(** * Trigram Markov model: counting structure, finalisation and generator

    A shallow embedding of [Markov.py]: the singly linked [LinkedList] of
    [Node]s, the [TrigramModel] training protocol ([start_input],
    [consume_word], [end_input]), the one-time [finish] pass that moves the
    best entry of every list to its head, and the [OutputGenerator] state
    machine.

    Conventions of the embedding.
    - A linked list is the chain of its nodes from the head: [head = None]
      is [[]], [prepend] is cons.  A reference to a node of a list is the
      path that reaches it: its key for the counting methods, its position
      for the lagging iterator.
    - Python integers are [Z]; words are [string]; an attribute holding
      [None] or a word is [option string].
    - A raised exception is [Raise e]; the state a method leaves behind when
      it raises is not modelled.
    - [random.choice] draws through an explicit stream of numbers. *)

From stdpp Require Import gmap strings list fin_maps sorting.
From Stdlib Require Import ZArith Ascii.

Local Open Scope Z_scope.

(** ** Exceptions *)

Inductive exn : Type :=
  | AttributeError
  | KeyError
  | IndexError
  | StopIteration
  | UnicodeDecodeError.

Inductive result (A : Type) : Type :=
  | Ok (a : A)
  | Raise (e : exn).
Arguments Ok {A} a.
Arguments Raise {A} e.

#[global] Instance result_ret : MRet result := @Ok.
#[global] Instance result_bind : MBind result := λ A B f m,
  match m with
  | Ok a => f a
  | Raise e => Raise e
  end.

(** [IndexError] and [KeyError] are the two subclasses of Python's
    [LookupError]. *)
Definition is_LookupError (e : exn) : bool :=
  match e with
  | KeyError | IndexError => true
  | AttributeError | StopIteration | UnicodeDecodeError => false
  end.

(** ** Node and LinkedList *)

(** [Node(data)]: [next] is the tail of the chain the node heads, [cnt]
    starts at 0.  [child] is the attribute [_count_bigram] attaches to
    second-word nodes; third-word nodes have none ([C = unit]). *)
Record Node (C : Type) : Type := mkNode {
  data : string;
  cnt : Z;
  child : C;
}.
Arguments mkNode {C} data cnt child.
Arguments data {C} n.
Arguments cnt {C} n.
Arguments child {C} n.

(** A list is its chain of nodes, head first. *)
Abbreviation LinkedList C := (list (Node C)).

(** The low-level lists of third words and the high-level lists of second
    words. *)
Abbreviation TrigramList := (LinkedList unit).
Abbreviation BigramList := (LinkedList TrigramList).

(** [LinkedList.__getitem__]: linear search for the first node holding
    [d]. *)
Fixpoint getitem {C} (l : LinkedList C) (d : string) : option (Node C) :=
  match l with
  | [] => None
  | node :: next =>
      if decide (data node = d) then Some node else getitem next d
  end.

(** [LinkedList.prepend]: a fresh node (count 0) becomes the head.  The
    [child] the caller attaches right after is passed along. *)
Definition prepend {C} (l : LinkedList C) (d : string) (c : C) : LinkedList C :=
  mkNode d 0 c :: l.

(** In-place update of the node [getitem l d] refers to. *)
Fixpoint update_item {C} (f : Node C → Node C) (l : LinkedList C) (d : string)
    : LinkedList C :=
  match l with
  | [] => []
  | node :: next =>
      if decide (data node = d) then f node :: next
      else node :: update_item f next d
  end.

(** A node reference handed out by the lagging iterator: the extra node
    created before the head, or the node at a position of the list. *)
Inductive pos : Type :=
  | node_before_head
  | node_at (i : nat).

(** [LinkedListIterator]: the items still to be produced. *)
Definition next {A} (it : list A) : result (A * list A) :=
  match it with
  | [] => Raise StopIteration
  | popped :: node => Ok (popped, node)
  end.

(** [LinkedList.lagging_iter]: starts right before the head, so it yields
    one more item than the list has nodes. *)
Definition lagging_iter {C} (l : LinkedList C) : list pos :=
  node_before_head :: (node_at <$> seq 0 (length l)).

(** [LinkedList.move_next_to_head]: unlink the node after [prev_node] and
    relink it before the head.  Nothing happens for [None] and for the node
    before the head (whose [next] is the head).  The node after position [i]
    is the one at [S i], never the head; when [prev_node] is the last node
    its [next] is [None] and [prev_node.next.next] raises. *)
Definition move_next_to_head {C} (l : LinkedList C) (prev_node : option pos)
    : result (LinkedList C) :=
  match prev_node with
  | None => Ok l
  | Some node_before_head => Ok l
  | Some (node_at i) =>
      match l !! S i with
      | Some new_head => Ok (new_head :: delete (S i) l)
      | None => Raise AttributeError
      end
  end.

(** ** TrigramModel *)

(** A value of the hash table: a high-level list with the unigram counter
    [_count_unigram] attaches to it. *)
Record Unigram : Type := mkUnigram {
  ucnt : Z;
  bigrams : BigramList;
}.

Module TrigramModel.

Record t : Type := mk {
  first_words : gmap string Unigram;
  prev_prev : option string;
  prev : option string;
}.

(** [TrigramModel()]: an empty hash table; the window attributes do not
    exist yet. *)
Definition init : t := mk ∅ None None.

Definition incr {C} (n : Node C) : Node C :=
  mkNode (data n) (cnt n + 1) (child n).

Definition with_child {C D} (k : C → D) (n : Node C) : Node D :=
  mkNode (data n) (cnt n) (k (child n)).

(** [_count_trigram]. *)
Definition _count_trigram (trigram_list : TrigramList) (word : string)
    : TrigramList :=
  let trigram_list :=
    match getitem trigram_list word with
    | None => prepend trigram_list word ()
    | Some _ => trigram_list
    end in
  update_item incr trigram_list word.

(** [_count_bigram].  The method returns a reference to the child list,
    which the caller then updates in place; here the caller's update is
    the argument [k]. *)
Definition _count_bigram (bigram_list : BigramList) (word : string)
    (k : TrigramList → TrigramList) : BigramList :=
  let bigram_list :=
    match getitem bigram_list word with
    | None => prepend bigram_list word []
    | Some _ => bigram_list
    end in
  update_item (λ bigram_node, with_child k (incr bigram_node)) bigram_list word.

(** [_count_unigram], with the caller's update of the returned list as
    [k]. *)
Definition _count_unigram (fw : gmap string Unigram) (word : string)
    (k : BigramList → BigramList) : gmap string Unigram :=
  let bigram_list :=
    match fw !! word with
    | None => mkUnigram 0 []
    | Some bigram_list => bigram_list
    end in
  <[word := mkUnigram (ucnt bigram_list + 1) (k (bigrams bigram_list))]> fw.

Definition start_input (self : t) (first_word second_word : string) : t :=
  mk (first_words self) (Some first_word) (Some second_word).

Definition end_input (self : t) : result t :=
  match prev_prev self, prev self with
  | Some pp, Some p =>
      let fw := _count_unigram (first_words self) pp
                  (λ bigram_list, _count_bigram bigram_list p id) in
      let fw := _count_unigram fw p id in
      Ok (mk fw (Some pp) (Some p))
  | _, _ => Raise AttributeError
  end.

Definition consume_word (self : t) (word : string) : result t :=
  match prev_prev self, prev self with
  | Some pp, Some p =>
      let fw := _count_unigram (first_words self) pp
                  (λ bigram_list, _count_bigram bigram_list p
                     (λ trigram_list, _count_trigram trigram_list word)) in
      Ok (mk fw (Some p) (Some word))
  | _, _ => Raise AttributeError
  end.

(** [best_choice]: the best count so far, the node before the best node,
    and the lagging iterator. *)
Definition best_choice : Type := Z * option pos * list pos.

Definition _update_choice (bc : best_choice) (new_cnt : Z) : result best_choice :=
  let '(best_cnt, best_prev, lagging) := bc in
  if decide (new_cnt >= best_cnt) then
    '(prev_node, lagging) ← next lagging;
    Ok (new_cnt, Some prev_node, lagging)
  else
    '(_, lagging) ← next lagging;
    Ok (best_cnt, best_prev, lagging).

(** The inner loop of [finish]: [for thirdWordNode in ...]. *)
Fixpoint for_third_words (nodes : TrigramList) (trigram_choice : best_choice)
    : result best_choice :=
  match nodes with
  | [] => Ok trigram_choice
  | thirdWordNode :: rest =>
      trigram_choice ← _update_choice trigram_choice (cnt thirdWordNode);
      for_third_words rest trigram_choice
  end.

(** The middle loop of [finish]: [for secondWordNode in firstWord].  The
    child lists are reordered in place as the loop goes; the list being
    iterated is only relinked after the loop. *)
Fixpoint for_second_words (nodes : BigramList) (bigram_choice : best_choice)
    : result (BigramList * best_choice) :=
  match nodes with
  | [] => Ok ([], bigram_choice)
  | secondWordNode :: rest =>
      bigram_choice ← _update_choice bigram_choice (cnt secondWordNode);
      let trigram_choice := (-1, None, lagging_iter (child secondWordNode)) in
      trigram_choice ← for_third_words (child secondWordNode) trigram_choice;
      child' ← move_next_to_head (child secondWordNode) (trigram_choice.1.2);
      '(rest, bigram_choice) ← for_second_words rest bigram_choice;
      Ok (mkNode (data secondWordNode) (cnt secondWordNode) child' :: rest,
          bigram_choice)
  end.

(** The body of the outer loop of [finish], for one value of the hash
    table. *)
Definition finish_first_word (firstWord : Unigram) : result Unigram :=
  let bigram_choice := (-1, None, lagging_iter (bigrams firstWord)) in
  '(nodes, bigram_choice) ← for_second_words (bigrams firstWord) bigram_choice;
  nodes ← move_next_to_head nodes (bigram_choice.1.2);
  Ok (mkUnigram (ucnt firstWord) nodes).

(** [finish]: [for firstWord in self.first_words.values()], every value
    updated in place. *)
Definition finish_dict (fw : gmap string Unigram) : result (gmap string Unigram) :=
  map_fold (λ word firstWord acc,
              fw ← acc;
              firstWord ← finish_first_word firstWord;
              Ok (<[word := firstWord]> fw))
           (Ok fw) fw.

Definition finish (self : t) : result t :=
  fw ← finish_dict (first_words self);
  Ok (mk fw (prev_prev self) (prev self)).

(** *** The training protocol as a sequence of calls *)

Inductive call : Type :=
  | StartInput (first_word second_word : string)
  | ConsumeWord (word : string)
  | EndInput.

Definition do_call (self : t) (c : call) : result t :=
  match c with
  | StartInput first_word second_word => Ok (start_input self first_word second_word)
  | ConsumeWord word => consume_word self word
  | EndInput => end_input self
  end.

Fixpoint run (cs : list call) (self : t) : result t :=
  match cs with
  | [] => Ok self
  | c :: cs => self ← do_call self c; run cs self
  end.

(** One input file: its first two words and the words that follow. *)
Definition document : Type := string * string * list string.

(** A complete training cycle: [start_input], [consume_word] for each of
    the following words, [end_input]. *)
Definition cycle (d : document) : list call :=
  let '(first_word, second_word, words) := d in
  StartInput first_word second_word :: (ConsumeWord <$> words) ++ [EndInput].

Definition training (docs : list document) : list call :=
  docs ≫= cycle.

End TrigramModel.

(** ** OutputGenerator *)

Module OutputGenerator.

Record t : Type := mk {
  first_words : gmap string Unigram;
  refresh_limit : Z;
  refresh_cnt : Z;
  prev_4 : option string;
  prev_3 : option string;
  prev_prev : option string;
  prev : option string;
}.

(** [OutputGenerator(first_words, refresh_limit)]. *)
Definition init (first_words : gmap string Unigram) (refresh_limit : Z) : t :=
  mk first_words refresh_limit refresh_limit None None None None.

(** The random source: a stream of numbers, one consumed per draw. *)
Definition rng : Type := nat → nat.

Definition advance (r : rng) : rng := λ i, r (S i).

(** [random.choice(seq)]: [IndexError] on an empty sequence, otherwise the
    item at a random index below [len(seq)]. *)
Definition choice (r : rng) (seq : list string) : result (string * rng) :=
  match seq with
  | [] => Raise IndexError
  | w0 :: _ => Ok (nth (r 0%nat `mod` length seq)%nat seq w0, advance r)
  end.

(** [tuple(first_words.keys())].  The tuple lists the keys in the order the
    map enumerates them; the index into it is drawn at random, so the order
    only names which key a given draw stands for. *)
Definition keys (fw : gmap string Unigram) : list string :=
  (map_to_list fw).*1.

(** [first_words[key]] for a window attribute, which may hold [None]. *)
Definition dict_getitem (fw : gmap string Unigram) (key : option string)
    : result Unigram :=
  match key ≫= (fw !!.) with
  | Some bigram_list => Ok bigram_list
  | None => Raise KeyError
  end.

Definition set_refresh_cnt (self : t) (c : Z) : t :=
  mk (first_words self) (refresh_limit self) c
     (prev_4 self) (prev_3 self) (prev_prev self) (prev self).

Definition _rand_word (self : t) (r : rng) : result (string * t * rng) :=
  let self := set_refresh_cnt self (refresh_limit self) in
  '(word, r) ← choice r (keys (first_words self));
  Ok (word, self, r).

Definition _best_bigram (self : t) (r : rng) : result (string * t * rng) :=
  bigram_list ← dict_getitem (first_words self) (prev self);
  match bigrams bigram_list with
  | bigram_node :: _ => Ok (data bigram_node, self, r)
  | [] => _rand_word self r
  end.

Definition _best_trigram (self : t) (r : rng) : result (string * t * rng) :=
  bigram_list ← dict_getitem (first_words self) (prev_prev self);
  match prev self ≫= getitem (bigrams bigram_list) with
  | Some bigram_node =>
      match child bigram_node with
      | trigram_node :: _ => Ok (data trigram_node, self, r)
      | [] => _best_bigram self r
      end
  | None => _best_bigram self r
  end.

(** The conditional expression that opens [generate_word]. *)
Definition select_word (self : t) (r : rng) : result (string * t * rng) :=
  if decide (refresh_cnt self <= 0) then _rand_word self r
  else if prev_prev self is Some _ then _best_trigram self r
  else if prev self is Some _ then _best_bigram self r
  else _rand_word self r.

(** The condition of the [if] that follows it. *)
Definition cycle_detected (self : t) (new_word : string) : bool :=
  bool_decide (Some new_word = prev_prev self ∧ prev self = prev_3 self)
  || bool_decide (Some new_word = prev_3 self ∧ prev self = prev_4 self).

Definition generate_word (self : t) (r : rng) : result (string * t * rng) :=
  '(new_word, self, r) ← select_word self r;
  '(new_word, self, r) ←
    (if cycle_detected self new_word then _rand_word self r
     else Ok (new_word, self, r));
  let self :=
    mk (first_words self) (refresh_limit self) (refresh_cnt self - 1)
       (prev_3 self) (prev_prev self) (prev self) (Some new_word) in
  Ok (new_word, self, r).

(** [n] successive calls of [generate_word], as the callers' loops make
    them; the words come out in order. *)
Fixpoint generate_words (n : nat) (self : t) (r : rng)
    : result (list string * t * rng) :=
  match n with
  | O => Ok ([], self, r)
  | S n =>
      '(word, self, r) ← generate_word self r;
      '(words, self, r) ← generate_words n self r;
      Ok (word :: words, self, r)
  end.

(** The generator states a caller can observe. *)
Inductive reachable (fw : gmap string Unigram) (R : Z) : t → Prop :=
  | reachable_init : reachable fw R (init fw R)
  | reachable_step self r word self' r' :
      reachable fw R self →
      generate_word self r = Ok (word, self', r') →
      reachable fw R self'.

End OutputGenerator.

(** [TrigramModel.output_generator]. *)
Definition output_generator (self : TrigramModel.t) (refresh_limit : Z)
    : OutputGenerator.t :=
  OutputGenerator.init (TrigramModel.first_words self) refresh_limit.

(** ** Observers of the hash table *)

(** The list of second words stored for a first word (empty when the word
    is not a key: a new unigram starts with an empty list). *)
Definition bigram_container (fw : gmap string Unigram) (a : string) : BigramList :=
  from_option bigrams [] (fw !! a).

(** The list of third words stored for a pair of words. *)
Definition trigram_container (fw : gmap string Unigram) (a b : string)
    : TrigramList :=
  from_option child [] (getitem (bigram_container fw a) b).

Definition unigram_cnt (fw : gmap string Unigram) (a : string) : Z :=
  from_option ucnt 0 (fw !! a).

Definition item_cnt {C} (l : LinkedList C) (w : string) : Z :=
  from_option cnt 0 (getitem l w).

Definition bigram_cnt (fw : gmap string Unigram) (a b : string) : Z :=
  item_cnt (bigram_container fw a) b.

Definition trigram_cnt (fw : gmap string Unigram) (a b c : string) : Z :=
  item_cnt (trigram_container fw a b) c.

(** ** The finalisation pass as a function on lists

    What [finish] computes for one list, used to reason about it: the
    position the scan records and the relinking it asks for. *)

(** The reference the lagging iterator yields at the [i]-th step. *)
Definition lag (i : nat) : pos :=
  match i with
  | O => node_before_head
  | S j => node_at j
  end.

(** The best count and the position of the node holding it, after the loop
    has seen the counts [cnts], starting at position [i]. *)
Fixpoint last_best (cnts : list Z) (i : nat) (best : Z) (bi : option nat)
    : Z * option nat :=
  match cnts with
  | [] => (best, bi)
  | c :: cnts =>
      if decide (c >= best) then last_best cnts (S i) c (Some i)
      else last_best cnts (S i) best bi
  end.

Definition move_to_front {A} (k : option nat) (l : list A) : list A :=
  match k with
  | Some (S j) =>
      match l !! S j with
      | Some x => x :: delete (S j) l
      | None => l
      end
  | _ => l
  end.

Definition promote {C} (l : LinkedList C) : LinkedList C :=
  move_to_front (last_best (cnt <$> l) 0 (-1) None).2 l.

Definition promote_unigram (u : Unigram) : Unigram :=
  mkUnigram (ucnt u) (promote (TrigramModel.with_child promote <$> bigrams u)).

(** ** Properties of lists and of the hash table *)

(** The head holds a count that no other entry exceeds. *)
Definition max_head {C} (l : LinkedList C) : Prop :=
  match l with
  | [] => True
  | h :: rest => Forall (λ e, cnt e <= cnt h) rest
  end.

(** The head holds a count that every other entry is strictly below. *)
Definition strict_head {C} (l : LinkedList C) : Prop :=
  match l with
  | [] => True
  | h :: rest => Forall (λ e, cnt e < cnt h) rest
  end.

(** Look up or create, then update: the shape shared by [_count_bigram] and
    [_count_trigram]. *)
Definition count_item {C} (f : Node C → Node C) (c0 : C) (l : LinkedList C)
    (w : string) : LinkedList C :=
  update_item f
    (match getitem l w with
     | None => prepend l w c0
     | Some _ => l
     end) w.

(** What training maintains in a list of third words and in a list of second
    words: keys are unique and every count is at least 1. *)
Definition trigrams_ok (t : TrigramList) : Prop :=
  NoDup (data <$> t) ∧ Forall (λ tn, 1 <= cnt tn) t.

Definition bigrams_ok (l : BigramList) : Prop :=
  NoDup (data <$> l) ∧ Forall (λ bn, 1 <= cnt bn ∧ trigrams_ok (child bn)) l.

Definition dict_ok (fw : gmap string Unigram) : Prop :=
  ∀ a, bigrams_ok (bigram_container fw a).

(** Both window attributes exist. *)
Definition window_set (m : TrigramModel.t) : Prop :=
  is_Some (TrigramModel.prev_prev m) ∧ is_Some (TrigramModel.prev m).

(** Two lists of third words hold the same entries. *)
Definition same_trigrams (t t' : TrigramList) : Prop := t ≡ₚ t'.

(** Two lists of second words hold the same entries: up to the order, the
    same words with the same counts, each owning the same third-word
    entries. *)
Definition same_bigrams (l l' : BigramList) : Prop :=
  ∃ l0, l0 ≡ₚ l' ∧
        Forall2 (λ bn bn', data bn' = data bn ∧ cnt bn' = cnt bn ∧
                           same_trigrams (child bn) (child bn')) l l0.

(** ** Creation order of the entries of a list

    The words held by the list of second words of [a], and by the list of
    third words of [a b], in a model. *)
Definition bigram_words (a : string) (m : TrigramModel.t) : list string :=
  data <$> bigram_container (TrigramModel.first_words m) a.

Definition trigram_words (a b : string) (m : TrigramModel.t) : list string :=
  data <$> trigram_container (TrigramModel.first_words m) a b.

(** In the training run [cs], the entry of [w1] was created before the
    entry of [w2] in the list [words_at] observes: at some point of the run
    the list held [w1] and did not hold [w2]. *)
Definition created_before (words_at : TrigramModel.t → list string)
    (cs : list TrigramModel.call) (w1 w2 : string) : Prop :=
  ∃ cs' m, cs' `prefix_of` cs ∧
           TrigramModel.run cs' TrigramModel.init = Ok m ∧
           w1 ∈ words_at m ∧ w2 ∉ words_at m.

(** A list of words in which every word was created after all the words
    that follow it. *)
Definition newest_first (words_at : TrigramModel.t → list string)
    (cs : list TrigramModel.call) (l : list string) : Prop :=
  StronglySorted (λ w w2, created_before words_at cs w2 w) l.

(** A call leaves the words of a list alone or puts one new word in
    front. *)
Definition grows_at_head (l l' : list string) : Prop :=
  l' = l ∨ ∃ w, l' = w :: l ∧ w ∉ l.

(** ** Example inputs *)

(** The worked example: the single document [x y z x y w]. *)
Definition doc1 : TrigramModel.document :=
  ("x", "y", ["z"; "x"; "y"; "w"])%string.

(** A document in which every pair of neighbours has a successor. *)
Definition doc2 : TrigramModel.document :=
  ("a", "b", ["c"; "d"; "e"; "a"; "b"])%string.

(** ** The generator: vocabulary and selection rule *)

(** Every word stored in a list of second or third words belongs to [V]. *)
Definition closed_in (V : gset string) (fw : gmap string Unigram) : Prop :=
  ∀ a, Forall (λ bn, data bn ∈ V ∧ Forall (λ tn, data tn ∈ V) (child bn))
         (bigram_container fw a).

(** Every stored word is a key of the hash table. *)
Definition closed (fw : gmap string Unigram) : Prop := closed_in (dom fw) fw.

(** The words of the training window. *)
Definition window_words (m : TrigramModel.t) : gset string :=
  from_option singleton ∅ (TrigramModel.prev_prev m)
  ∪ from_option singleton ∅ (TrigramModel.prev m).

(** The window of a generator over [fw] holds keys of [fw] only, and the
    second to last word is set only when the last one is. *)
Definition gen_ok (fw : gmap string Unigram) (g : OutputGenerator.t) : Prop :=
  OutputGenerator.first_words g = fw ∧
  (∀ w, OutputGenerator.prev g = Some w → w ∈ dom fw) ∧
  (∀ w, OutputGenerator.prev_prev g = Some w →
        w ∈ dom fw ∧ is_Some (OutputGenerator.prev g)).

(** The head of the list of third words of the bigram entry of [b] under
    the unigram of [a], when that entry exists and its list is not
    empty. *)
Definition trigram_head (fw : gmap string Unigram) (a b : string)
    : option string :=
  u ← fw !! a; bn ← getitem (bigrams u) b; data <$> head (child bn).

(** The head of the list of second words of [b], when not empty. *)
Definition bigram_head (fw : gmap string Unigram) (b : string) : option string :=
  u ← fw !! b; data <$> head (bigrams u).

(** A draw from the keys of the hash table, which resets [refresh_cnt] to
    [refresh_limit]. *)
Definition draw (g : OutputGenerator.t) (r : OutputGenerator.rng)
    : result (string * OutputGenerator.t * OutputGenerator.rng) :=
  '(w, r') ← OutputGenerator.choice r
             (OutputGenerator.keys (OutputGenerator.first_words g));
  Ok (w, OutputGenerator.set_refresh_cnt g (OutputGenerator.refresh_limit g), r').

(** The bigram rule of the specification: the head of the list of second
    words of the last word when not empty, otherwise a draw. *)
Definition bigram_rule (g : OutputGenerator.t) (r : OutputGenerator.rng)
    (b : string) : result (string * OutputGenerator.t * OutputGenerator.rng) :=
  match bigram_head (OutputGenerator.first_words g) b with
  | Some w => Ok (w, g, r)
  | None => draw g r
  end.

(** The candidate selection as the specification words it, first matching
    rule first. *)
Definition select_rule (g : OutputGenerator.t) (r : OutputGenerator.rng)
    : result (string * OutputGenerator.t * OutputGenerator.rng) :=
  if decide (OutputGenerator.refresh_cnt g <= 0) then draw g r
  else
    match OutputGenerator.prev_prev g, OutputGenerator.prev g with
    | Some a, Some b =>
        match trigram_head (OutputGenerator.first_words g) a b with
        | Some w => Ok (w, g, r)
        | None => bigram_rule g r b
        end
    | None, Some b => bigram_rule g r b
    | _, _ => draw g r
    end.

(** A stream of draws used in the examples. *)
Definition rng0 : OutputGenerator.rng := λ i, nth i [0; 2; 4; 1]%nat 0%nat.

(** The generator [generate_word] leaves behind: the counter as given, the
    window shifted by the new word. *)
Definition shift (g : OutputGenerator.t) (c : Z) (w : string) : OutputGenerator.t :=
  OutputGenerator.mk (OutputGenerator.first_words g)
    (OutputGenerator.refresh_limit g) c
    (OutputGenerator.prev_3 g) (OutputGenerator.prev_prev g)
    (OutputGenerator.prev g) (Some w).

(** The hash table after training on [docs] and [finish()]. *)
Definition trained (docs : list TrigramModel.document) : gmap string Unigram :=
  match TrigramModel.run (TrigramModel.training docs) TrigramModel.init
        ≫= TrigramModel.finish with
  | Ok m => TrigramModel.first_words m
  | Raise _ => ∅
  end.

(** A generator over the model of [doc2] that has just produced [a b a]:
    the bigram rule now proposes [b], which would close a 2-word cycle. *)
Definition gen_aba : OutputGenerator.t :=
  OutputGenerator.mk (trained [doc2]) 2 1
    None (Some "a"%string) (Some "b"%string) (Some "a"%string).

(** ** Refresh periodicity *)

(** The branch of [generate_word] taken when the counter has run out. *)
Definition forced_draw (g : OutputGenerator.t) : Prop :=
  OutputGenerator.refresh_cnt g <= 0.

(** The word the greedy rules read at the head of a list for the window of
    [g], if there is one: no draw is involved. *)
Definition greedy_head (g : OutputGenerator.t) : option string :=
  match OutputGenerator.prev_prev g, OutputGenerator.prev g with
  | Some a, Some b =>
      match trigram_head (OutputGenerator.first_words g) a b with
      | Some w => Some w
      | None => bigram_head (OutputGenerator.first_words g) b
      end
  | None, Some b => bigram_head (OutputGenerator.first_words g) b
  | _, _ => None
  end.

(** The first [n] calls on a fresh generator over [fw] never trigger cycle
    suppression, and from the second call on the greedy context is
    available whenever the draw is not forced.  [k] counts the calls already
    made: the state [g] is the one call [k + 1] starts from. *)
Definition quiet_run (fw : gmap string Unigram) (R : Z)
    (r0 : OutputGenerator.rng) (n : nat) : Prop :=
  ∀ k ws g r, (k < n)%nat →
    OutputGenerator.generate_words k (OutputGenerator.init fw R) r0
      = Ok (ws, g, r) →
    (∀ w g1 r1, OutputGenerator.select_word g r = Ok (w, g1, r1) →
                OutputGenerator.cycle_detected g1 w = false) ∧
    ((1 ≤ k)%nat → ¬ forced_draw g → is_Some (greedy_head g)).

(** Generation step [s] (counted from 1) takes the forced draw. *)
Definition forced_on_step (fw : gmap string Unigram) (R : Z)
    (r0 : OutputGenerator.rng) (s : nat) : Prop :=
  ∃ ws g r,
    OutputGenerator.generate_words (s - 1) (OutputGenerator.init fw R) r0
      = Ok (ws, g, r) ∧
    forced_draw g.

(** Refresh periodicity as the specification states it: the forced draws
    fall on the steps [R+1, 2R+2, 3R+3, ...]. *)
Definition periodicity_as_stated (fw : gmap string Unigram) (R : Z)
    (r0 : OutputGenerator.rng) (n : nat) : Prop :=
  quiet_run fw R r0 n →
  ∀ s, (2 ≤ s ≤ n)%nat →
    forced_on_step fw R r0 s ↔ Z.of_nat s `mod` (R + 1) = 0.

(** ** Documents as token lists *)

(** The words of an input file, in order. *)
Definition tokens (d : TrigramModel.document) : list string :=
  let '(first_word, second_word, words) := d in
  first_word :: second_word :: words.

(** The neighbouring pairs and triples of a list of words. *)
Fixpoint pairs (l : list string) : list (string * string) :=
  match l with
  | a :: ((b :: _) as tl) => (a, b) :: pairs tl
  | _ => []
  end.

Fixpoint triples (l : list string) : list (string * string * string) :=
  match l with
  | a :: ((b :: c :: _) as tl) => (a, b, c) :: triples tl
  | _ => []
  end.

(** How many times [x] occurs in [l]. *)
Fixpoint occ {A} `{EqDecision A} (x : A) (l : list A) : Z :=
  match l with
  | [] => 0
  | y :: l => (if decide (x = y) then 1 else 0) + occ x l
  end.

(** The sum of the counts stored in a list. *)
Definition total_cnt {C} (l : LinkedList C) : Z :=
  foldr (λ n acc, cnt n + acc) 0 l.

(** The counts of a hash table are consistent as frequencies: every
    unigram count is at least 1 and at least the sum of its bigram counts,
    and every bigram count is at least the sum of its trigram counts. *)
Definition counts_nested (fw : gmap string Unigram) : Prop :=
  ∀ a u, fw !! a = Some u →
    1 <= ucnt u ∧ total_cnt (bigrams u) <= ucnt u ∧
    Forall (λ bn, total_cnt (child bn) <= cnt bn) (bigrams u).

(** The four-word window of a generator, oldest word first. *)
Definition window (g : OutputGenerator.t) : list (option string) :=
  [OutputGenerator.prev_4 g; OutputGenerator.prev_3 g;
   OutputGenerator.prev_prev g; OutputGenerator.prev g].

(** ** Tester: reading the input files

    A text is the sequence of its characters, of any type [A] with decidable
    equality; indices count characters. *)

(** [find_at s sub i]: the search of [str.find] in the suffix [s] that
    starts at index [i] of the whole string. *)
Fixpoint find_at {A} `{!EqDecision A} (s sub : list A) (i : nat) : Z :=
  if bool_decide (sub `prefix_of` s) then Z.of_nat i
  else match s with
       | [] => -1
       | _ :: s' => find_at s' sub (S i)
       end.

(** [s.find(sub, start)] for [start >= 0]: the lowest index from [start] on
    at which [sub] occurs in [s], or -1. *)
Definition str_find {A} `{!EqDecision A} (s sub : list A) (start : nat) : Z :=
  if decide (start ≤ length s)%nat then find_at (drop start s) sub start
  else -1.

(** The loop of [_nth_index], [iters] iterations to go. *)
Fixpoint _nth_index_loop {A} `{!EqDecision A} (string substring : list A)
    (iters : nat) (ind : Z) : Z :=
  match iters with
  | O => ind
  | S iters =>
      let ind := str_find string substring (Z.to_nat (ind + 1)) in
      if decide (ind = -1) then -1
      else _nth_index_loop string substring iters ind
  end.

(** [_nth_index]: [range(n)] is empty for [n <= 0]. *)
Definition _nth_index {A} `{!EqDecision A} (string substring : list A) (n : Z) : Z :=
  _nth_index_loop string substring (Z.to_nat n) (-1).

(** What [open(name, "r")] followed by [input.read()] does: it gives the
    content of the file, or raises an [OSError] (no such file, no
    permission, a directory, a failing device), or raises an exception of
    another class, as [read()] does with [UnicodeDecodeError] on bytes that
    are not text in the expected encoding. *)
Inductive read_outcome (A : Type) : Type :=
  | Content (content : list A)
  | OSError
  | Propagates (e : exn).
Arguments Content {A} content.
Arguments OSError {A}.
Arguments Propagates {A} e.

(** [_read_file]: the file system is a function from names to what reading
    the file does.  Only [OSError] is caught, and answered with [None]; any
    other exception leaves the function.  The message printed for an
    [OSError] is not modelled.  [nl] is the newline character. *)
Definition _read_file {A} `{!EqDecision A} (fs : string → read_outcome A)
    (nl : A) (file_and_skip : string * Z) : result (option (list A)) :=
  match fs file_and_skip.1 with
  | OSError => Ok None
  | Propagates e => Raise e
  | Content content =>
      Ok (Some (drop (Z.to_nat (_nth_index content [nl] file_and_skip.2 + 1))
                  content))
  end.

(** ** Tester: tokens and model building *)

(** What the driver takes from outside: the two tokenizers of [nltk], the
    string methods [lower] and [capitalize], the file system and the newline
    character.  Texts are sequences of characters of type [A]; words are
    strings. *)
Record externals (A : Type) : Type := mkExternals {
  sent_tokenize : list A → list (list A);
  word_tokenize : list A → list string;
  str_lower : string → string;
  str_capitalize : string → string;
  file_system : string → read_outcome A;
  newline : A;
}.
Arguments sent_tokenize {A} _ _.
Arguments word_tokenize {A} _ _.
Arguments str_lower {A} _ _.
Arguments str_capitalize {A} _ _.
Arguments file_system {A} _ _.
Arguments newline {A} _.

(** [_PUNCTUATION]: the characters [!()-[]{};:], two apostrophes, two
    backquotes, a double quote, a backslash and [,<>/?@#$%^&*_~]. *)
Definition _PUNCTUATION : string :=
  "!()-[]{};:''``" +:+ String (Ascii.ascii_of_nat 34) "\,<>/?@#$%^&*_~".

(** [sub in s] for two strings: [sub] occurs somewhere in [s]. *)
Fixpoint str_in (sub s : string) : bool :=
  String.prefix sub s
  || match s with
     | EmptyString => false
     | String _ s' => str_in sub s'
     end.

(** [_remove_starting_single_quote]: [word[0]] and [word[1]] raise
    [IndexError] when the word is too short; [and] evaluates [word[1]] only
    when the first character is an apostrophe. *)
Definition _remove_starting_single_quote (word : string) : result string :=
  match word with
  | EmptyString => Raise IndexError
  | String c0 rest =>
      if decide (c0 = "'"%char) then
        match rest with
        | EmptyString => Raise IndexError
        | String c1 _ => if decide (c1 ≠ "s"%char) then Ok rest else Ok word
        end
      else Ok word
  end.

(** [_tokenize]: the words of all sentences in order, those occurring in
    [_PUNCTUATION] left out, the others lowered and stripped. *)
Definition _tokenize {A} (E : externals A) (words : list A) : result (list string) :=
  let sentences := sent_tokenize E words in
  mapM (λ word, _remove_starting_single_quote (str_lower E word))
    (filter (λ word, str_in word _PUNCTUATION = false)
       ((word_tokenize E <$> sentences) ≫= id)).

(** [l[i]] for [i >= 0]. *)
Definition py_index {B} (l : list B) (i : nat) : result B :=
  match l !! i with
  | Some x => Ok x
  | None => Raise IndexError
  end.

(** The loop of [_consume_text]: [for i in range(2, len(words))]. *)
Fixpoint consume_range (words : list string) (indices : list nat)
    (model : TrigramModel.t) : result TrigramModel.t :=
  match indices with
  | [] => Ok model
  | i :: indices =>
      word ← py_index words i;
      model ← TrigramModel.consume_word model word;
      consume_range words indices model
  end.

Definition _consume_text {A} (E : externals A) (model : TrigramModel.t)
    (text : list A) : result TrigramModel.t :=
  words ← _tokenize E text;
  first_word ← py_index words 0;
  second_word ← py_index words 1;
  let model := TrigramModel.start_input model first_word second_word in
  model ← consume_range words (seq 2 (length words - 2)) model;
  TrigramModel.end_input model.

Definition _FILES : list (string * Z) :=
  [("houn.txt", 8); ("sign.txt", 8); ("stud.txt", 8); ("vall.txt", 8)]%string.

(** The loop of [_build_model]; [Ok None] is its [return None]. *)
Fixpoint for_files {A} `{!EqDecision A} (E : externals A)
    (files : list (string * Z)) (model : TrigramModel.t)
    : result (option TrigramModel.t) :=
  match files with
  | [] => Ok (Some model)
  | file_and_skip :: files =>
      content ← _read_file (file_system E) (newline E) file_and_skip;
      match content with
      | None => Ok None
      | Some content =>
          model ← _consume_text E model content;
          for_files E files model
      end
  end.

Definition _build_model {A} `{!EqDecision A} (E : externals A)
    : result (option TrigramModel.t) :=
  built ← for_files E _FILES TrigramModel.init;
  match built with
  | None => Ok None
  | Some model => model ← TrigramModel.finish model; Ok (Some model)
  end.

(** Externals for the examples: one sentence per text, the words
    [Hello 'tis ( 's] in every sentence, files that are all empty. *)
Definition example_externals : externals nat :=
  mkExternals nat (λ text, [text])
    (λ _, ["Hello"; "'tis"; "("; "'s"]%string)
    (λ w, w) (λ w, w) (λ _, Content []) 0%nat.

(** The same with a second file, [sign.txt], that cannot be opened. *)
Definition unreadable_externals : externals nat :=
  mkExternals nat (λ text, [text])
    (λ _, ["Hello"; "'tis"; "("; "'s"]%string)
    (λ w, w) (λ w, w)
    (λ name, if decide (name = "sign.txt"%string) then OSError else Content [])
    0%nat.

(** The same with a second file that opens but does not hold text. *)
Definition undecodable_externals : externals nat :=
  mkExternals nat (λ text, [text])
    (λ _, ["Hello"; "'tis"; "("; "'s"]%string)
    (λ w, w) (λ w, w)
    (λ name, if decide (name = "sign.txt"%string)
             then Propagates UnicodeDecodeError else Content [])
    0%nat.

(** The generator after [n] calls of [generate_word] (the generator itself
    if one of them raises). *)
Definition after_calls (n : nat) (g : OutputGenerator.t)
    (r : OutputGenerator.rng) : OutputGenerator.t :=
  match OutputGenerator.generate_words n g r with
  | Ok (_, g', _) => g'
  | Raise _ => g
  end.

(** The word of a result, if there is one. *)
Definition word_of (res : result (string * OutputGenerator.t * OutputGenerator.rng))
    : option string :=
  match res with
  | Ok (w, _, _) => Some w
  | Raise _ => None
  end.

(** ** Tester: writing the output *)

Definition _CAPITALIZE : list string :=
  ["i"; "mr."; "dr."; "sherlock"; "holmes"; "john"; "watson"; "moriarty"]%string.

(** The local variables of [_generate_words], with the random source. *)
Record writer : Type := mkWriter {
  w_generator : OutputGenerator.t;
  w_rng : OutputGenerator.rng;
  w_words : list string;
  w_count : Z;
  w_capitalize : bool;
  w_new_word : option string;
}.

(** [words.pop()]: the last item and the list without it. *)
Definition pop {B} (l : list B) : result (B * list B) :=
  match last l with
  | Some x => Ok (x, removelast l)
  | None => Raise IndexError
  end.

(** The [while] loop of [_generate_words].  The loop runs until a period
    comes out after enough words, which may never happen: [fuel] bounds the
    number of iterations, and [None] is a loop that has not ended within
    it. *)
Fixpoint generate_loop {A} (E : externals A) (fuel : nat) (word_count : Z)
    (st : writer) : option (result (list string)) :=
  if decide (w_count st < word_count ∨ w_new_word st ≠ Some "."%string) then
    match fuel with
    | O => None
    | S fuel =>
        match OutputGenerator.generate_word (w_generator st) (w_rng st) with
        | Raise e => Some (Raise e)
        | Ok (new_word, g, r) =>
            if decide (new_word = "."%string) then
              if decide (w_count st = 0) then
                generate_loop E fuel word_count
                  (mkWriter g r (w_words st) (w_count st) (w_capitalize st)
                     (Some new_word))
              else
                match pop (w_words st) with
                | Raise e => Some (Raise e)
                | Ok (last_word, words) =>
                    generate_loop E fuel word_count
                      (mkWriter g r (words ++ [last_word +:+ "."])
                         (w_count st) true (Some new_word))
                end
            else
              let word :=
                if w_capitalize st || bool_decide (new_word ∈ _CAPITALIZE)
                then str_capitalize E new_word else new_word in
              generate_loop E fuel word_count
                (mkWriter g r (w_words st ++ [word]) (w_count st + 1) false
                   (Some new_word))
        end
    end
  else Some (Ok (w_words st)).

(** [_generate_words]: the words joined by spaces. *)
Definition _generate_words {A} (E : externals A) (fuel : nat)
    (model : TrigramModel.t) (word_count refresh_limit : Z)
    (r : OutputGenerator.rng) : option (result string) :=
  let generator := output_generator model refresh_limit in
  match generate_loop E fuel word_count
          (mkWriter generator r [] 0 true None) with
  | None => None
  | Some (Raise e) => Some (Raise e)
  | Some (Ok words) => Some (Ok (String.concat " " words))
  end.

(** The words [k] calls of [generate_word] return, none if one raises. *)
Definition generated (k : nat) (g : OutputGenerator.t) (r : OutputGenerator.rng)
    : list string :=
  match OutputGenerator.generate_words k g r with
  | Ok (ws, _, _) => ws
  | Raise _ => []
  end.

(** How many of the words are not the period. *)
Definition count_words (ws : list string) : Z :=
  Z.of_nat (length (filter (λ w, w ≠ "."%string) ws)).

(** A document that ends its sentences with periods. *)
Definition doc3 : TrigramModel.document :=
  ("so", ".", ["it"; "is"; "."; "so"; "."])%string.

(** What the loop keeps true of its variables over a model whose stored
    words are keys. *)
Definition writer_ok (fw : gmap string Unigram) (st : writer) : Prop :=
  gen_ok fw (w_generator st) ∧
  Z.of_nat (length (w_words st)) = w_count st ∧
  (w_new_word st = Some "."%string →
   w_words st = [] ∨ ∃ w, last (w_words st) = Some (w +:+ ".")).

(** * Proofs *)

(** A method that reads the window raises when an attribute is missing;
    otherwise the window holds two words. *)
Ltac window_cases m pp p :=
  destruct (TrigramModel.prev_prev m) as [pp|]; [|done];
  destruct (TrigramModel.prev m) as [p|]; [|done].


(** ** The result monad *)

Lemma bind_Ok {A B} (f : A → result B) (a : A) : Ok a ≫= f = f a.
Proof. reflexivity. Qed.

Lemma bind_Ok_inv {A B} (f : A → result B) (m : result A) (b : B) :
  m ≫= f = Ok b → ∃ a, m = Ok a ∧ f a = Ok b.
Proof. destruct m as [a|e]; [eauto | discriminate]. Qed.

(** ** The scan of [finish] *)

Section scan.
Context {C : Type}.
Implicit Types l nodes : LinkedList C.

Lemma update_choice_eq best bi i rest new_cnt :
  TrigramModel._update_choice (best, lag <$> bi, lag i :: rest) new_cnt =
  Ok (if decide (new_cnt >= best) then (new_cnt, Some (lag i), rest)
      else (best, lag <$> bi, rest)).
Proof. unfold TrigramModel._update_choice. by case_decide. Qed.

Lemma move_next_to_head_eq l k :
  (∀ j, k = Some j → j < length l)%nat →
  move_next_to_head l (lag <$> k) = Ok (move_to_front k l).
Proof.
  intros Hk. destruct k as [[|j]|]; simpl; try done.
  destruct (lookup_lt_is_Some_2 l (S j)) as [x Hx]; [by apply Hk|].
  by rewrite Hx.
Qed.
End scan.

Lemma for_third_words_eq nodes i best bi :
  TrigramModel.for_third_words nodes
    (best, lag <$> bi, lag <$> seq i (S (length nodes))) =
  Ok (let r := last_best (cnt <$> nodes) i best bi in
      (r.1, lag <$> r.2, [lag (i + length nodes)])).
Proof.
  revert i best bi. induction nodes as [|n nodes IH]; intros i best bi.
  - simpl. by rewrite Nat.add_0_r.
  - cbn [TrigramModel.for_third_words length].
    change (lag <$> seq i (S (S (length nodes))))
      with (lag i :: (lag <$> seq (S i) (S (length nodes)))).
    rewrite update_choice_eq, bind_Ok. cbn [fmap list_fmap last_best].
    replace (i + S (length nodes))%nat with (S i + length nodes)%nat by lia.
    case_decide.
    + apply (IH (S i) (cnt n) (Some i)).
    + apply IH.
Qed.

(** What the scan finds. *)
Lemma last_best_spec cnts i best bi :
  let r := last_best cnts i best bi in
  (r = (best, bi) ∧ Forall (λ c, c < best) cnts) ∨
  (∃ j, r.2 = Some (i + j)%nat ∧ cnts !! j = Some r.1 ∧ r.1 >= best ∧
        Forall (λ c, c <= r.1) cnts ∧
        ∀ j' c', (j < j')%nat → cnts !! j' = Some c' → c' < r.1).
Proof.
  revert i best bi. induction cnts as [|c cnts IH]; intros i best bi; simpl.
  - left. by split.
  - case_decide as Hc.
    + destruct (IH (S i) c (Some i)) as [[Hr Hlt]|(j & Hj & Hlk & Hge & Hall & Hlast)].
      * right. exists 0%nat. rewrite Hr. simpl. rewrite Nat.add_0_r.
        split_and!; [done|done|lia|..].
        -- constructor; [lia|]. eapply Forall_impl; [done|]. simpl. lia.
        -- intros [|j'] c' Hj' Hc'; [lia|]. simpl in Hc'.
           rewrite Forall_lookup in Hlt. by apply (Hlt j').
      * right. exists (S j). rewrite Hj. split_and!; [f_equal; lia|done|lia|..].
        -- constructor; [lia|done].
        -- intros [|j'] c' Hj' Hc'; [lia|]. simpl in Hc'.
           apply (Hlast j'); [lia|done].
    + destruct (IH (S i) best bi) as [[Hr Hlt]|(j & Hj & Hlk & Hge & Hall & Hlast)].
      * left. split; [done|]. constructor; [lia|done].
      * right. exists (S j). rewrite Hj. split_and!; [f_equal; lia|done|lia|..].
        -- constructor; [lia|done].
        -- intros [|j'] c' Hj' Hc'; [lia|]. simpl in Hc'.
           apply (Hlast j'); [lia|done].
Qed.

Lemma lagging_iter_eq {C} (l : LinkedList C) :
  lagging_iter l = lag <$> seq 0 (S (length l)).
Proof.
  unfold lagging_iter. simpl. f_equal.
  rewrite <- fmap_S_seq, <- list_fmap_compose. done.
Qed.

Lemma last_best_index cnts j :
  (last_best cnts 0 (-1) None).2 = Some j → (j < length cnts)%nat.
Proof.
  intros Hj.
  destruct (last_best_spec cnts 0 (-1) None) as [[Hr _]|(j' & Hj' & Hlk & _)].
  - rewrite Hr in Hj. done.
  - rewrite Hj' in Hj. simplify_eq. by eapply lookup_lt_Some.
Qed.

Lemma third_words_promote (l : TrigramList) :
  (trigram_choice ← TrigramModel.for_third_words l (-1, None, lagging_iter l);
   move_next_to_head l (trigram_choice.1.2)) = Ok (promote l).
Proof.
  rewrite lagging_iter_eq.
  rewrite (for_third_words_eq l 0 (-1) None
             : TrigramModel.for_third_words l
                 (-1, None, lag <$> seq 0 (S (length l))) = _), bind_Ok.
  cbn [fst snd].
  apply move_next_to_head_eq. intros j Hj.
  apply last_best_index in Hj. by rewrite length_fmap in Hj.
Qed.

Lemma for_second_words_eq nodes i best bi :
  TrigramModel.for_second_words nodes
    (best, lag <$> bi, lag <$> seq i (S (length nodes))) =
  Ok (TrigramModel.with_child promote <$> nodes,
      let r := last_best (cnt <$> nodes) i best bi in
      (r.1, lag <$> r.2, [lag (i + length nodes)])).
Proof.
  revert i best bi. induction nodes as [|n nodes IH]; intros i best bi.
  - simpl. by rewrite Nat.add_0_r.
  - cbn [TrigramModel.for_second_words length].
    change (lag <$> seq i (S (S (length nodes))))
      with (lag i :: (lag <$> seq (S i) (S (length nodes)))).
    rewrite update_choice_eq, bind_Ok.
    pose proof (third_words_promote (child n)) as Hc.
    destruct (TrigramModel.for_third_words (child n) _) as [tc|]; [|done].
    rewrite bind_Ok in Hc. rewrite bind_Ok, Hc, bind_Ok.
    cbn [fmap list_fmap last_best].
    replace (i + S (length nodes))%nat with (S i + length nodes)%nat by lia.
    case_decide.
    + pose proof (IH (S i) (cnt n) (Some i)) as IH'.
      cbn [fmap option_fmap option_map] in IH'. by rewrite IH'.
    + by rewrite IH.
Qed.

Lemma cnt_with_child {C D} (k : C → D) (l : LinkedList C) :
  cnt <$> (TrigramModel.with_child k <$> l) = cnt <$> l.
Proof. rewrite <- list_fmap_compose. done. Qed.

Lemma data_with_child {C D} (k : C → D) (l : LinkedList C) :
  data <$> (TrigramModel.with_child k <$> l) = data <$> l.
Proof. rewrite <- list_fmap_compose. done. Qed.

(** Finalising one value of the hash table never raises, and computes
    [promote_unigram]. *)
Lemma finish_first_word_eq (u : Unigram) :
  TrigramModel.finish_first_word u = Ok (promote_unigram u).
Proof.
  unfold TrigramModel.finish_first_word. rewrite lagging_iter_eq.
  rewrite (for_second_words_eq (bigrams u) 0 (-1) None
             : TrigramModel.for_second_words (bigrams u)
                 (-1, None, lag <$> seq 0 (S (length (bigrams u)))) = _), bind_Ok.
  cbn [fst snd]. unfold promote_unigram, promote.
  rewrite cnt_with_child.
  rewrite move_next_to_head_eq; [done|].
  intros j Hj. apply last_best_index in Hj.
  by rewrite !length_fmap in *.
Qed.

Lemma finish_dict_eq (fw : gmap string Unigram) :
  TrigramModel.finish_dict fw = Ok (promote_unigram <$> fw).
Proof.
  unfold TrigramModel.finish_dict.
  assert (∀ m : gmap string Unigram,
    map_fold (λ word firstWord acc,
                fw ← acc;
                firstWord ← TrigramModel.finish_first_word firstWord;
                Ok (<[word := firstWord]> fw))
             (Ok fw) m = Ok ((promote_unigram <$> m) ∪ fw)) as Hfold.
  { apply (map_fold_weak_ind (λ r m, r = Ok ((promote_unigram <$> m) ∪ fw))).
    - by rewrite fmap_empty, (left_id_L ∅ (∪)).
    - intros w u m r Hw ->. rewrite bind_Ok, finish_first_word_eq, bind_Ok.
      by rewrite fmap_insert, insert_union_l. }
  rewrite Hfold. f_equal. apply map_eq. intros w.
  rewrite lookup_union, lookup_fmap. by destruct (fw !! w).
Qed.

Lemma finish_eq (m : TrigramModel.t) :
  TrigramModel.finish m =
  Ok (TrigramModel.mk (promote_unigram <$> TrigramModel.first_words m)
        (TrigramModel.prev_prev m) (TrigramModel.prev m)).
Proof. unfold TrigramModel.finish. by rewrite finish_dict_eq. Qed.

(** ** Lookup and update of list items *)

Section items.
Context {C : Type}.
Implicit Types l : LinkedList C.
Implicit Types f : Node C → Node C.

Lemma getitem_Some l d n : getitem l d = Some n → n ∈ l ∧ data n = d.
Proof.
  induction l as [|x l IH]; simpl; [done|].
  case_decide; intros Hg.
  - simplify_eq. split; [by left | done].
  - destruct (IH Hg). split; [by right | done].
Qed.

Lemma getitem_None l d : getitem l d = None ↔ d ∉ data <$> l.
Proof.
  induction l as [|x l IH]; simpl.
  - split; [intros _; apply not_elem_of_nil | done].
  - rewrite not_elem_of_cons. case_decide; split; try done.
    + intros [? _]. congruence.
    + intros Hg. split; [congruence | by apply IH].
    + intros [_ ?]. by apply IH.
Qed.

Lemma getitem_is_Some l d : is_Some (getitem l d) ↔ d ∈ data <$> l.
Proof.
  destruct (getitem l d) eqn:Hg.
  - split; [intros _ | by eauto].
    apply getitem_Some in Hg as [Hin <-]. by apply list_elem_of_fmap_2.
  - split; [by intros [? ?] | intros Hin]. by apply getitem_None in Hg.
Qed.

(** With unique keys, the node found for a key is the only one holding
    it. *)
Lemma getitem_elem l n :
  NoDup (data <$> l) → n ∈ l → getitem l (data n) = Some n.
Proof.
  induction l as [|x l IH]; simpl; intros Hnd Hin.
  - by apply elem_of_nil in Hin.
  - apply NoDup_cons in Hnd as [Hx Hnd].
    apply elem_of_cons in Hin as [->|Hin]; [by rewrite decide_True|].
    rewrite decide_False; [by apply IH|].
    intros Heq. apply Hx. rewrite Heq. by apply list_elem_of_fmap_2.
Qed.

Lemma data_update_item f l d :
  (∀ n, data (f n) = data n) → data <$> update_item f l d = data <$> l.
Proof.
  intros Hf. induction l as [|x l IH]; [done|].
  cbn [update_item]. case_decide; csimpl; [by rewrite Hf | by rewrite IH].
Qed.

Lemma getitem_update_item f l d d' :
  (∀ n, data (f n) = data n) →
  getitem (update_item f l d) d' =
  if decide (d = d') then f <$> getitem l d else getitem l d'.
Proof.
  intros Hf. induction l as [|x l IH]; simpl; [by case_decide|].
  destruct (decide (data x = d)) as [Hx|Hx]; simpl.
  - rewrite Hf. subst d. by destruct (decide (data x = d')).
  - rewrite IH. destruct (decide (d = d')) as [<-|Hd]; [|done].
    by rewrite decide_False.
Qed.

Lemma Forall_update_item (P : Node C → Prop) f l d :
  (∀ n, n ∈ l → data n = d → P n → P (f n)) →
  Forall P l → Forall P (update_item f l d).
Proof.
  induction l as [|x l IH]; simpl; intros Hf Hl; [done|].
  apply Forall_cons in Hl as [Hx Hl].
  case_decide.
  - constructor; [apply Hf; [by left|done..] | done].
  - constructor; [done|]. apply IH; [|done].
    intros n Hn. apply Hf. by right.
Qed.

Lemma data_count_item f c0 l w :
  (∀ n, data (f n) = data n) →
  data <$> count_item f c0 l w =
  if decide (w ∈ data <$> l) then data <$> l else w :: (data <$> l).
Proof.
  intros Hf. unfold count_item. rewrite data_update_item by done.
  destruct (getitem l w) eqn:Hg.
  - rewrite decide_True; [done|]. apply getitem_is_Some. by rewrite Hg.
  - rewrite decide_False; [done|]. by apply getitem_None.
Qed.

Lemma getitem_count_item f c0 l w b :
  (∀ n, data (f n) = data n) →
  getitem (count_item f c0 l w) b =
  if decide (w = b) then Some (f (default (mkNode w 0 c0) (getitem l w)))
  else getitem l b.
Proof.
  intros Hf. unfold count_item. rewrite getitem_update_item by done.
  destruct (getitem l w) eqn:Hg; simpl.
  - by rewrite Hg.
  - destruct (decide (w = w)); [|done]. by case_decide.
Qed.

Lemma Forall_count_item (P : Node C → Prop) f c0 l w :
  P (f (mkNode w 0 c0)) →
  (∀ n, n ∈ l → data n = w → P n → P (f n)) →
  Forall P l → Forall P (count_item f c0 l w).
Proof.
  intros H0 Hf Hl. unfold count_item.
  destruct (getitem l w) eqn:Hg.
  - by apply Forall_update_item.
  - unfold prepend. simpl. rewrite decide_True by done.
    by constructor.
Qed.

Lemma NoDup_count_item f c0 l w :
  (∀ n, data (f n) = data n) →
  NoDup (data <$> l) → NoDup (data <$> count_item f c0 l w).
Proof.
  intros Hf Hnd. rewrite data_count_item by done.
  case_decide; [done|]. by constructor.
Qed.
End items.

(** ** The counting methods *)

Lemma bigram_container_count_unigram fw w k a :
  bigram_container (TrigramModel._count_unigram fw w k) a =
  if decide (w = a) then k (bigram_container fw w) else bigram_container fw a.
Proof.
  unfold bigram_container, TrigramModel._count_unigram.
  case_decide as Hwa.
  - subst a. rewrite lookup_insert_eq. simpl. by destruct (fw !! w).
  - by rewrite lookup_insert_ne.
Qed.

Lemma unigram_cnt_count_unigram fw w k a :
  unigram_cnt (TrigramModel._count_unigram fw w k) a =
  unigram_cnt fw a + (if decide (w = a) then 1 else 0).
Proof.
  unfold unigram_cnt, TrigramModel._count_unigram.
  case_decide as Hwa.
  - subst a. rewrite lookup_insert_eq. simpl. by destruct (fw !! w).
  - rewrite lookup_insert_ne by done. lia.
Qed.

Lemma dom_count_unigram fw w k :
  dom (TrigramModel._count_unigram fw w k) = {[w]} ∪ dom fw.
Proof. unfold TrigramModel._count_unigram. by rewrite dom_insert_L. Qed.

Lemma trigrams_ok_nil : trigrams_ok [].
Proof. split; [constructor | done]. Qed.

Lemma trigrams_ok_count t w :
  trigrams_ok t → trigrams_ok (TrigramModel._count_trigram t w).
Proof.
  intros [Hnd Hcnt]. split.
  - by apply (NoDup_count_item TrigramModel.incr ()).
  - apply (Forall_count_item _ TrigramModel.incr ()); [simpl; lia | | done].
    intros n _ _. simpl. lia.
Qed.

Lemma bigrams_ok_count l w k :
  (∀ t, trigrams_ok t → trigrams_ok (k t)) →
  bigrams_ok l → bigrams_ok (TrigramModel._count_bigram l w k).
Proof.
  intros Hk [Hnd Hall]. split.
  - by apply (NoDup_count_item
                (λ n, TrigramModel.with_child k (TrigramModel.incr n)) []).
  - apply (Forall_count_item _
             (λ n, TrigramModel.with_child k (TrigramModel.incr n)) []);
      [| |done].
    + simpl. split; [lia|]. apply Hk, trigrams_ok_nil.
    + intros n _ _ [Hc Ht]. simpl. split; [lia|]. by apply Hk.
Qed.

Lemma dict_ok_count_unigram fw w k :
  (∀ l, bigrams_ok l → bigrams_ok (k l)) →
  dict_ok fw → dict_ok (TrigramModel._count_unigram fw w k).
Proof.
  intros Hk Hfw a. rewrite bigram_container_count_unigram.
  case_decide; [apply Hk|]; apply Hfw.
Qed.

Lemma dict_ok_empty : dict_ok ∅.
Proof. intros a. unfold bigram_container. rewrite lookup_empty. split; constructor. Qed.

(** ** Running the training protocol *)

Lemma run_app cs1 cs2 m :
  TrigramModel.run (cs1 ++ cs2) m =
  TrigramModel.run cs1 m ≫= TrigramModel.run cs2.
Proof.
  revert m. induction cs1 as [|c cs1 IH]; intros m; simpl; [done|].
  destruct (TrigramModel.do_call m c); simpl; [apply IH | done].
Qed.

Lemma run_preserves (P : TrigramModel.t → Prop) :
  (∀ m c m', P m → TrigramModel.do_call m c = Ok m' → P m') →
  ∀ cs m m', P m → TrigramModel.run cs m = Ok m' → P m'.
Proof.
  intros Hstep cs. induction cs as [|c cs IH]; simpl; intros m m' Hm Hrun.
  - by simplify_eq.
  - apply bind_Ok_inv in Hrun as (m1 & Hc & Hrun). eauto.
Qed.

Lemma do_call_window m c :
  window_set m → ∃ m', TrigramModel.do_call m c = Ok m' ∧ window_set m'.
Proof.
  intros [[pp Hpp] [p Hp]]. destruct c as [f s|w|]; simpl.
  - eexists. split; [done|]. split; by eexists.
  - unfold TrigramModel.consume_word. rewrite Hpp, Hp.
    eexists. split; [done|]. split; by eexists.
  - unfold TrigramModel.end_input. rewrite Hpp, Hp.
    eexists. split; [done|]. split; by eexists.
Qed.

Lemma run_window cs m :
  window_set m → ∃ m', TrigramModel.run cs m = Ok m' ∧ window_set m'.
Proof.
  revert m. induction cs as [|c cs IH]; intros m Hm; simpl; [by eauto|].
  destruct (do_call_window m c Hm) as (m1 & -> & Hm1). by apply IH.
Qed.

Lemma run_cycle_ok d m : ∃ m', TrigramModel.run (TrigramModel.cycle d) m = Ok m'.
Proof.
  destruct d as [[f s] ws]. simpl.
  destruct (run_window ((TrigramModel.ConsumeWord <$> ws) ++ [TrigramModel.EndInput])
              (TrigramModel.start_input m f s)) as (m' & Hm' & _).
  - split; by eexists.
  - by exists m'.
Qed.

(** Complete training cycles never raise. *)
Lemma run_training_ok docs m :
  ∃ m', TrigramModel.run (TrigramModel.training docs) m = Ok m'.
Proof.
  revert m. induction docs as [|d docs IH]; intros m.
  - by exists m.
  - unfold TrigramModel.training. rewrite bind_cons, run_app.
    destruct (run_cycle_ok d m) as [m1 ->]. apply IH.
Qed.

Lemma do_call_dict_ok m c m' :
  dict_ok (TrigramModel.first_words m) →
  TrigramModel.do_call m c = Ok m' →
  dict_ok (TrigramModel.first_words m').
Proof.
  intros Hm. destruct c as [f s|w|]; simpl.
  - intros. by simplify_eq.
  - unfold TrigramModel.consume_word.
    window_cases m pp p.
    intros. simplify_eq. simpl.
    apply dict_ok_count_unigram; [|done].
    intros l Hl. apply bigrams_ok_count; [|done].
    intros t Ht. by apply trigrams_ok_count.
  - unfold TrigramModel.end_input.
    window_cases m pp p.
    intros. simplify_eq. simpl.
    apply dict_ok_count_unigram; [done|].
    apply dict_ok_count_unigram; [|done].
    intros l Hl. by apply bigrams_ok_count.
Qed.

Lemma run_dict_ok cs m :
  TrigramModel.run cs TrigramModel.init = Ok m →
  dict_ok (TrigramModel.first_words m).
Proof.
  apply (run_preserves (λ m, dict_ok (TrigramModel.first_words m))).
  - apply do_call_dict_ok.
  - apply dict_ok_empty.
Qed.

(** ** What [promote] does to a list *)

Section promote.
Context {C : Type}.
Implicit Types l : LinkedList C.

Lemma move_to_front_perm {A} k (l : list A) : move_to_front k l ≡ₚ l.
Proof.
  destruct k as [[|j]|]; simpl; try done.
  destruct (l !! S j) eqn:Hj; [|done].
  symmetry. by apply delete_Permutation.
Qed.

Lemma promote_perm l : promote l ≡ₚ l.
Proof. apply move_to_front_perm. Qed.

Lemma promote_nil : promote (@nil (Node C)) = [].
Proof. done. Qed.

(** On a non-empty list whose counts are not below the initial best of
    the scan, the entry moved to the head holds the greatest count and is
    the last such entry of the list. *)
Lemma promote_spec l :
  l ≠ [] → Forall (λ n, -1 <= cnt n) l →
  ∃ j h, l !! j = Some h ∧ promote l = h :: delete j l ∧
         Forall (λ e, cnt e <= cnt h) l ∧
         ∀ j' e, (j < j')%nat → l !! j' = Some e → cnt e < cnt h.
Proof.
  intros Hne Hge. unfold promote.
  destruct (last_best_spec (cnt <$> l) 0 (-1) None)
    as [[_ Hlt]|(j & Hj & Hlk & _ & Hall & Hlast)].
  - destruct l as [|x l]; [done|].
    apply Forall_cons in Hge as [Hx _].
    rewrite fmap_cons in Hlt. apply Forall_cons in Hlt as [Hx' _]. lia.
  - simpl in Hj. rewrite Hj.
    apply list_lookup_fmap_Some in Hlk as (h & Hc & Hh).
    symmetry in Hc. exists j, h. split_and!.
    + done.
    + destruct j as [|j]; simpl.
      * destruct l; by simplify_eq/=.
      * by rewrite Hh.
    + rewrite Forall_fmap in Hall. eapply Forall_impl; [done|].
      simpl. intros e He. by rewrite Hc.
    + intros j' e Hj' He. rewrite Hc. apply (Hlast j'); [done|].
      by rewrite list_lookup_fmap, He.
Qed.

Lemma promote_max_head l :
  Forall (λ n, -1 <= cnt n) l → max_head (promote l).
Proof.
  intros Hge. destruct (decide (l = [])) as [->|Hne]; [done|].
  destruct (promote_spec l Hne Hge) as (j & h & Hh & -> & Hall & _).
  simpl. by apply Forall_delete.
Qed.
End promote.

Lemma Forall_cnt_with_child {C D} (k : C → D) (P : Z → Prop) (l : LinkedList C) :
  Forall (λ n, P (cnt n)) l →
  Forall (λ n, P (cnt n)) (TrigramModel.with_child k <$> l).
Proof. intros Hl. by rewrite Forall_fmap. Qed.

(** The entries of a finalised hash table, in terms of the trained one. *)
Lemma promote_unigram_lookup (fw : gmap string Unigram) (a : string) u' :
  (promote_unigram <$> fw) !! a = Some u' →
  ∃ u, fw !! a = Some u ∧ u' = promote_unigram u.
Proof.
  rewrite lookup_fmap. destruct (fw !! a) as [u|]; [|done].
  intros. simplify_eq/=. by exists u.
Qed.

Lemma elem_of_promote_unigram u bn' :
  bn' ∈ bigrams (promote_unigram u) →
  ∃ bn, bn ∈ bigrams u ∧ bn' = TrigramModel.with_child promote bn.
Proof.
  simpl. rewrite promote_perm. intros Hin.
  apply list_elem_of_fmap in Hin as (bn & -> & Hbn). by exists bn.
Qed.

Lemma dict_ok_lookup (fw : gmap string Unigram) (a : string) u :
  dict_ok fw → fw !! a = Some u → bigrams_ok (bigrams u).
Proof.
  intros Hok Ha. specialize (Hok a). unfold bigram_container in Hok.
  by rewrite Ha in Hok.
Qed.

Lemma bigrams_ok_cnt l : bigrams_ok l → Forall (λ n, -1 <= cnt n) l.
Proof. intros [_ H]. eapply Forall_impl; [done|]. simpl. lia. Qed.

Lemma trigrams_ok_cnt t : trigrams_ok t → Forall (λ n, -1 <= cnt n) t.
Proof. intros [_ H]. eapply Forall_impl; [done|]. simpl. lia. Qed.

Lemma bigrams_ok_child l bn : bigrams_ok l → bn ∈ l → trigrams_ok (child bn).
Proof.
  intros [_ H] Hin. rewrite Forall_forall in H. by destruct (H bn Hin).
Qed.

(** ** Claims about [finish] *)

Lemma same_bigrams_promote (u : Unigram) :
  same_bigrams (bigrams u) (bigrams (promote_unigram u)).
Proof.
  exists (TrigramModel.with_child promote <$> bigrams u). split.
  - symmetry. apply promote_perm.
  - apply Forall2_fmap_r, Forall_Forall2_diag, Forall_forall.
    intros bn _. simpl. split_and!; [done|done|].
    symmetry. apply promote_perm.
Qed.

(** C1. After any sequence of complete training cycles followed by
    [finish()], which never raises, the finished hash table has the keys of
    the trained one, and under every key [a] of the trained table the
    finished unigram holds the entries the trained one held (the same words
    with the same counts, each owning the same third-word entries), now
    ordered so that in its list of second words and in every list of third
    words the count of the head is greater than or equal to the count of
    every other entry of that list. *)
Theorem finish_max_head (docs : list TrigramModel.document) :
  ∃ m mf,
    TrigramModel.run (TrigramModel.training docs) TrigramModel.init = Ok m ∧
    TrigramModel.finish m = Ok mf ∧
    dom (TrigramModel.first_words mf) = dom (TrigramModel.first_words m) ∧
    ∀ a u, TrigramModel.first_words m !! a = Some u →
      ∃ u', TrigramModel.first_words mf !! a = Some u' ∧
            same_bigrams (bigrams u) (bigrams u') ∧
            max_head (bigrams u') ∧
            ∀ bn', bn' ∈ bigrams u' → max_head (child bn').
Proof.
  destruct (run_training_ok docs TrigramModel.init) as [m Hm].
  exists m. eexists. split; [done|]. split; [apply finish_eq|].
  simpl. split; [by rewrite dom_fmap_L|]. intros a u Hu.
  apply run_dict_ok in Hm.
  pose proof (dict_ok_lookup _ _ _ Hm Hu) as Hok.
  exists (promote_unigram u). split_and!.
  - by rewrite lookup_fmap, Hu.
  - apply same_bigrams_promote.
  - simpl. apply promote_max_head.
    apply (Forall_cnt_with_child promote (λ c, -1 <= c)), bigrams_ok_cnt, Hok.
  - intros bn' Hbn'.
    apply elem_of_promote_unigram in Hbn' as (bn & Hbn & ->). simpl.
    apply promote_max_head, trigrams_ok_cnt. by eapply bigrams_ok_child.
Qed.

(** C8. [finish()] never raises and changes positions only: the keys of the
    hash table and the window are the same, every unigram keeps its count,
    and every list holds the same entries before and after, each with the
    same word and the same count; no entry is created, deleted or moved to
    another list. *)
Theorem finish_frame (m : TrigramModel.t) :
  ∃ mf,
    TrigramModel.finish m = Ok mf ∧
    TrigramModel.prev_prev mf = TrigramModel.prev_prev m ∧
    TrigramModel.prev mf = TrigramModel.prev m ∧
    dom (TrigramModel.first_words mf) = dom (TrigramModel.first_words m) ∧
    ∀ a u, TrigramModel.first_words m !! a = Some u →
      ∃ u', TrigramModel.first_words mf !! a = Some u' ∧
            ucnt u' = ucnt u ∧ same_bigrams (bigrams u) (bigrams u').
Proof.
  eexists. split; [apply finish_eq|]. simpl. split_and!; [done|done|..].
  - by rewrite dom_fmap_L.
  - intros a u Hu. exists (promote_unigram u). split_and!.
    + by rewrite lookup_fmap, Hu.
    + done.
    + exists (TrigramModel.with_child promote <$> bigrams u). split.
      * symmetry. apply promote_perm.
      * apply Forall2_fmap_r, Forall_Forall2_diag, Forall_forall.
        intros bn _. simpl. split_and!; [done|done|].
        symmetry. apply promote_perm.
Qed.

(** The worked example: trained on [x y z x y w], the bigram [x y] has
    count 2, its third words [z] and [w] tie at 1, and after [finish()] the
    head is [z], the one observed first. *)
Example worked_example_counts :
  bigram_cnt (trained [doc1]) "x" "y" = 2 ∧
  trigram_cnt (trained [doc1]) "x" "y" "z" = 1 ∧
  trigram_cnt (trained [doc1]) "x" "y" "w" = 1.
Proof. by vm_compute. Qed.

Example worked_example_head :
  data <$> trigram_container (trained [doc1]) "x" "y" = ["z"; "w"]%string ∧
  trigram_head (trained [doc1]) "x" "y" = Some "z"%string.
Proof. by vm_compute. Qed.

(** ** Creation order *)

Lemma trigram_container_count fw pp p k a b :
  trigram_container
    (TrigramModel._count_unigram fw pp
       (λ bigram_list, TrigramModel._count_bigram bigram_list p k)) a b =
  if decide (pp = a ∧ p = b) then k (trigram_container fw a b)
  else trigram_container fw a b.
Proof.
  unfold trigram_container. rewrite bigram_container_count_unigram.
  destruct (decide (pp = a)) as [->|Hpp].
  - unfold TrigramModel._count_bigram.
    change (getitem (update_item ?f ?l p) b)
      with (getitem (count_item f [] (bigram_container fw a) p) b).
    rewrite getitem_count_item by done.
    destruct (decide (p = b)) as [->|Hp].
    + rewrite decide_True by done. simpl.
      by destruct (getitem (bigram_container fw a) b).
    + rewrite decide_False; [done|]. by intros [_ ?].
  - rewrite decide_False; [done|]. by intros [? _].
Qed.

Lemma trigram_container_count_id fw p a b :
  trigram_container (TrigramModel._count_unigram fw p id) a b =
  trigram_container fw a b.
Proof.
  unfold trigram_container. rewrite bigram_container_count_unigram.
  by case_decide; simplify_eq.
Qed.

Lemma bigram_container_count_id fw p a :
  bigram_container (TrigramModel._count_unigram fw p id) a =
  bigram_container fw a.
Proof. rewrite bigram_container_count_unigram. by case_decide; simplify_eq. Qed.

Lemma data_count_bigram l p k :
  data <$> TrigramModel._count_bigram l p k =
  if decide (p ∈ data <$> l) then data <$> l else p :: (data <$> l).
Proof.
  apply (data_count_item
           (λ n, TrigramModel.with_child k (TrigramModel.incr n)) []). done.
Qed.

Lemma data_count_trigram t w :
  data <$> TrigramModel._count_trigram t w =
  if decide (w ∈ data <$> t) then data <$> t else w :: (data <$> t).
Proof. apply (data_count_item TrigramModel.incr ()). done. Qed.

Lemma grows_if (w : string) (l : list string) :
  grows_at_head l (if decide (w ∈ l) then l else w :: l).
Proof. case_decide; [by left | right; by exists w]. Qed.

Lemma bigram_words_step a m c m' :
  TrigramModel.do_call m c = Ok m' →
  grows_at_head (bigram_words a m) (bigram_words a m').
Proof.
  unfold bigram_words. destruct c as [f s|w|]; simpl.
  - intros. simplify_eq. by left.
  - unfold TrigramModel.consume_word.
    window_cases m pp p.
    intros. simplify_eq. simpl. rewrite bigram_container_count_unigram.
    case_decide; [|by left]. subst. rewrite data_count_bigram.
    apply grows_if.
  - unfold TrigramModel.end_input.
    window_cases m pp p.
    intros. simplify_eq. simpl.
    rewrite bigram_container_count_id, bigram_container_count_unigram.
    case_decide; [|by left]. subst. rewrite data_count_bigram.
    apply grows_if.
Qed.

Lemma trigram_words_step a b m c m' :
  TrigramModel.do_call m c = Ok m' →
  grows_at_head (trigram_words a b m) (trigram_words a b m').
Proof.
  unfold trigram_words. destruct c as [f s|w|]; simpl.
  - intros. simplify_eq. by left.
  - unfold TrigramModel.consume_word.
    window_cases m pp p.
    intros. simplify_eq. simpl. rewrite trigram_container_count.
    case_decide; [|by left]. rewrite data_count_trigram.
    apply grows_if.
  - unfold TrigramModel.end_input.
    window_cases m pp p.
    intros. simplify_eq. simpl.
    rewrite trigram_container_count_id, trigram_container_count.
    case_decide; by left.
Qed.

Lemma created_before_mono words_at cs c w1 w2 :
  created_before words_at cs w1 w2 →
  created_before words_at (cs ++ [c]) w1 w2.
Proof.
  intros (cs' & m & Hpre & Hrun & H1 & H2). exists cs', m.
  split_and!; try done. by apply prefix_app_r.
Qed.

Lemma StronglySorted_weaken {A} (R R' : A → A → Prop) (l : list A) :
  (∀ x y, R x y → R' x y) → StronglySorted R l → StronglySorted R' l.
Proof.
  intros HR. induction 1 as [|x l Hl IH Hx]; constructor; [done|].
  eapply Forall_impl; [done|]. apply HR.
Qed.

Lemma StronglySorted_lookup_lt {A} (R : A → A → Prop) (l : list A) i j x y :
  StronglySorted R l → (i < j)%nat →
  l !! i = Some x → l !! j = Some y → R x y.
Proof.
  intros Hl. revert i j. induction Hl as [|z l Hl IH Hz]; intros i j Hij Hi Hj.
  - done.
  - destruct j as [|j]; [lia|]. simpl in Hj. destruct i as [|i]; simpl in Hi.
    + simplify_eq. rewrite Forall_forall in Hz. apply Hz.
      by eapply list_elem_of_lookup_2.
    + apply (IH i j); [lia|done..].
Qed.

(** During training every list keeps its entries newest first. *)
Lemma run_newest_first (words_at : TrigramModel.t → list string) :
  (∀ m c m', TrigramModel.do_call m c = Ok m' →
             grows_at_head (words_at m) (words_at m')) →
  words_at TrigramModel.init = [] →
  ∀ cs m, TrigramModel.run cs TrigramModel.init = Ok m →
          newest_first words_at cs (words_at m).
Proof.
  intros Hstep Hinit cs. induction cs as [|c cs IH] using rev_ind; intros m Hrun.
  - simpl in Hrun. simplify_eq. rewrite Hinit. constructor.
  - rewrite run_app in Hrun. apply bind_Ok_inv in Hrun as (m1 & Hm1 & Hc).
    simpl in Hc. apply bind_Ok_inv in Hc as (m2 & Hc & ?). simplify_eq.
    pose proof (StronglySorted_weaken _
                  (λ w w2, created_before words_at (cs ++ [c]) w2 w) _
                  (λ x y, created_before_mono words_at cs c y x)
                  (IH m1 Hm1)) as Hsorted.
    destruct (Hstep _ _ _ Hc) as [->|(w & -> & Hw)]; [done|].
    constructor; [done|]. apply Forall_forall. intros w2 Hw2.
    exists cs, m1. split_and!; try done. by apply prefix_app_r.
Qed.

(** After [promote], an entry that ties with the head precedes it in every
    order the list was sorted by. *)
Lemma promote_tie_break {C} (l : LinkedList C) (R : string → string → Prop)
    h rest e :
  Forall (λ n, -1 <= cnt n) l →
  StronglySorted R (data <$> l) →
  promote l = h :: rest → e ∈ rest → cnt e = cnt h →
  R (data e) (data h).
Proof.
  intros Hge Hsorted Hp He Hcnt.
  assert (l ≠ []) as Hne by (by intros ->).
  destruct (promote_spec l Hne Hge) as (j & h' & Hh & Hp' & _ & Hlast).
  rewrite Hp in Hp'. simplify_eq.
  apply list_elem_of_lookup in He as [i Hi].
  destruct (decide (i < j)%nat) as [Hij|Hij].
  - rewrite list_lookup_delete_lt in Hi by done.
    apply (StronglySorted_lookup_lt R (data <$> l) i j); [done..| |].
    + by rewrite list_lookup_fmap, Hi.
    + by rewrite list_lookup_fmap, Hh.
  - rewrite list_lookup_delete_ge in Hi by lia.
    pose proof (Hlast (S i) e ltac:(lia) Hi). lia.
Qed.

(** Entries are never removed, so creation order is a strict order. *)
Lemma run_words_grow (words_at : TrigramModel.t → list string) cs m1 m2 :
  (∀ m c m', TrigramModel.do_call m c = Ok m' →
             grows_at_head (words_at m) (words_at m')) →
  TrigramModel.run cs m1 = Ok m2 → words_at m1 ⊆ words_at m2.
Proof.
  intros Hstep.
  apply (run_preserves (λ m, words_at m1 ⊆ words_at m)); [|done].
  intros m c m' Hm Hc. destruct (Hstep _ _ _ Hc) as [->|(w & -> & _)]; [done|].
  intros x Hx. right. by apply Hm.
Qed.

Lemma created_before_asym (words_at : TrigramModel.t → list string) cs w1 w2 :
  (∀ m c m', TrigramModel.do_call m c = Ok m' →
             grows_at_head (words_at m) (words_at m')) →
  created_before words_at cs w1 w2 → ¬ created_before words_at cs w2 w1.
Proof.
  intros Hstep (cs1 & m1 & Hp1 & Hr1 & Hin1 & Hout1)
               (cs2 & m2 & Hp2 & Hr2 & Hin2 & Hout2).
  destruct (prefix_weak_total _ _ _ Hp1 Hp2) as [[k ->]|[k ->]].
  - rewrite run_app, Hr1 in Hr2. simpl in Hr2.
    apply Hout2. by eapply (run_words_grow words_at).
  - rewrite run_app, Hr2 in Hr1. simpl in Hr1.
    apply Hout1. by eapply (run_words_grow words_at).
Qed.

Lemma bigram_container_lookup (fw : gmap string Unigram) (a : string) u :
  fw !! a = Some u → bigram_container fw a = bigrams u.
Proof. intros Hu. unfold bigram_container. by rewrite Hu. Qed.

Lemma trigram_container_elem (fw : gmap string Unigram) (a : string) u bn :
  dict_ok fw → fw !! a = Some u → bn ∈ bigrams u →
  trigram_container fw a (data bn) = child bn.
Proof.
  intros Hok Hu Hbn. unfold trigram_container.
  rewrite (bigram_container_lookup _ _ _ Hu), getitem_elem; [done| |done].
  by destruct (dict_ok_lookup _ _ _ Hok Hu).
Qed.

(** C2. After complete training cycles and a single [finish()], the
    finished hash table has the keys of the trained one, and under every key
    [a] of the trained table the finished unigram holds the entries the
    trained one held, ordered so that in its list of second words and in
    every list of third words no entry has a greater count than the head,
    and every other entry whose count equals the head's was created after
    the head, not before it: the head is the earliest created of the entries
    holding the maximum count. *)
Theorem finish_tie_break (docs : list TrigramModel.document) :
  ∃ m mf,
    TrigramModel.run (TrigramModel.training docs) TrigramModel.init = Ok m ∧
    TrigramModel.finish m = Ok mf ∧
    dom (TrigramModel.first_words mf) = dom (TrigramModel.first_words m) ∧
    ∀ a u, TrigramModel.first_words m !! a = Some u →
      ∃ u', TrigramModel.first_words mf !! a = Some u' ∧
      same_bigrams (bigrams u) (bigrams u') ∧
      (∀ h rest e, bigrams u' = h :: rest → e ∈ rest →
         cnt e <= cnt h ∧
         (cnt e = cnt h →
          created_before (bigram_words a) (TrigramModel.training docs)
            (data h) (data e) ∧
          ¬ created_before (bigram_words a) (TrigramModel.training docs)
              (data e) (data h))) ∧
      (∀ bn h rest e, bn ∈ bigrams u' → child bn = h :: rest → e ∈ rest →
         cnt e <= cnt h ∧
         (cnt e = cnt h →
          created_before (trigram_words a (data bn)) (TrigramModel.training docs)
            (data h) (data e) ∧
          ¬ created_before (trigram_words a (data bn)) (TrigramModel.training docs)
              (data e) (data h))).
Proof.
  destruct (run_training_ok docs TrigramModel.init) as [m Hm].
  exists m. eexists. split; [done|]. split; [apply finish_eq|].
  simpl. split; [by rewrite dom_fmap_L|]. intros a u Hu.
  pose proof (run_dict_ok _ _ Hm) as Hok.
  pose proof (dict_ok_lookup _ _ _ Hok Hu) as Hu_ok.
  exists (promote_unigram u).
  split; [by rewrite lookup_fmap, Hu|].
  split; [apply same_bigrams_promote|]. split.
  - simpl. intros h rest e Hp He.
    assert (Forall (λ n, -1 <= cnt n)
              (TrigramModel.with_child promote <$> bigrams u)) as Hge.
    { apply (Forall_cnt_with_child promote (λ c, -1 <= c)), bigrams_ok_cnt, Hu_ok. }
    split.
    + pose proof (promote_max_head _ Hge) as Hmax. rewrite Hp in Hmax.
      simpl in Hmax. rewrite Forall_forall in Hmax. by apply Hmax.
    + intros Hcnt.
      enough (created_before (bigram_words a) (TrigramModel.training docs)
                (data h) (data e)) as Hcb.
      { split; [done|].
        by apply (created_before_asym _ _ _ _ (bigram_words_step a)). }
      apply (promote_tie_break _
               (λ w w2, created_before (bigram_words a)
                          (TrigramModel.training docs) w2 w) h rest e Hge);
        [|done..].
      rewrite data_with_child.
      pose proof (run_newest_first (bigram_words a)
                    (bigram_words_step a) eq_refl _ _ Hm) as Hs.
      unfold bigram_words in Hs at 2.
      by rewrite (bigram_container_lookup _ _ _ Hu) in Hs.
  - intros bn' h rest e Hbn' Hp He.
    apply elem_of_promote_unigram in Hbn' as (bn & Hbn & ->).
    simpl in Hp |- *.
    pose proof (trigrams_ok_cnt _ (bigrams_ok_child _ _ Hu_ok Hbn)) as Hge.
    split.
    + pose proof (promote_max_head _ Hge) as Hmax. rewrite Hp in Hmax.
      simpl in Hmax. rewrite Forall_forall in Hmax. by apply Hmax.
    + intros Hcnt.
      enough (created_before (trigram_words a (data bn))
                (TrigramModel.training docs) (data h) (data e)) as Hcb.
      { split; [done|].
        by apply (created_before_asym _ _ _ _
                    (trigram_words_step a (data bn))). }
      apply (promote_tie_break _
               (λ w w2, created_before (trigram_words a (data bn))
                          (TrigramModel.training docs) w2 w) h rest e Hge);
        [|done..].
      pose proof (run_newest_first (trigram_words a (data bn))
                    (trigram_words_step a (data bn)) eq_refl _ _ Hm) as Hs.
      unfold trigram_words in Hs at 2.
      by rewrite (trigram_container_elem _ _ _ _ Hok Hu Hbn) in Hs.
Qed.

(** ** A second [finish] *)

Lemma NoDup_data_lookup {C} (l : LinkedList C) i j x y :
  NoDup (data <$> l) → l !! i = Some x → l !! j = Some y →
  data x = data y → i = j.
Proof.
  intros Hnd Hi Hj Hxy.
  apply (NoDup_lookup (data <$> l) i j (data x)); [done|..].
  - by rewrite list_lookup_fmap, Hi.
  - by rewrite list_lookup_fmap, Hj, Hxy.
Qed.

(** [promote] leaves a list with unique keys as it is exactly when its head
    is strictly ahead of every other entry. *)
Lemma promote_fixed_iff {C} (l : LinkedList C) :
  NoDup (data <$> l) → Forall (λ n, -1 <= cnt n) l →
  promote l = l ↔ strict_head l.
Proof.
  intros Hnd Hge. destruct (decide (l = [])) as [->|Hne]; [done|].
  destruct (promote_spec l Hne Hge) as (j & h & Hh & Hp & Hall & Hlast).
  rewrite Hp. split.
  - intros Heq. destruct l as [|x l]; [done|].
    assert (j = 0%nat) as ->.
    { injection Heq as -> _.
      by apply (NoDup_data_lookup (x :: l) j 0 x x). }
    simpl in Hh. simplify_eq. simpl. apply Forall_lookup.
    intros i e Hi. apply (Hlast (S i)); [lia|done].
  - intros Hs. destruct l as [|x l]; [done|]. simpl in Hs.
    destruct j as [|j]; simpl in Hh; [by simplify_eq|].
    rewrite Forall_lookup in Hs. apply Forall_cons in Hall as [Hx _].
    pose proof (Hs j h Hh). lia.
Qed.

Lemma trigrams_ok_promote t : trigrams_ok t → trigrams_ok (promote t).
Proof.
  intros [Hnd Hc]. split.
  - by rewrite promote_perm.
  - by rewrite promote_perm.
Qed.

Lemma bigrams_ok_promote l :
  bigrams_ok l → bigrams_ok (promote (TrigramModel.with_child promote <$> l)).
Proof.
  intros [Hnd Hall]. split.
  - by rewrite promote_perm, data_with_child.
  - rewrite promote_perm, Forall_fmap. eapply Forall_impl; [done|].
    simpl. intros bn [Hc Ht]. split; [done|]. by apply trigrams_ok_promote.
Qed.

Lemma dict_ok_promote fw : dict_ok fw → dict_ok (promote_unigram <$> fw).
Proof.
  intros Hok a. specialize (Hok a). unfold bigram_container in *.
  rewrite lookup_fmap. destruct (fw !! a) as [u|]; simpl in *; [|done].
  by apply bigrams_ok_promote.
Qed.

Lemma fmap_with_child_fixed (l : BigramList) :
  TrigramModel.with_child promote <$> l = l ↔
  ∀ bn, bn ∈ l → promote (child bn) = child bn.
Proof.
  induction l as [|x l IH]; csimpl.
  - split; [|done]. intros _ bn Hbn. by apply elem_of_nil in Hbn.
  - split.
    + intros Heq. injection Heq as Hx Hl. intros bn Hbn.
      apply elem_of_cons in Hbn as [->|Hbn].
      * destruct x as [d c ch]. unfold TrigramModel.with_child in Hx.
        simpl in *. by injection Hx.
      * by apply IH.
    + intros Hall. f_equal.
      * destruct x as [d c ch]. unfold TrigramModel.with_child. simpl.
        f_equal. apply (Hall (mkNode d c ch)). by left.
      * apply IH. intros bn Hbn. apply Hall. by right.
Qed.

Lemma promote_unigram_fixed_iff u :
  bigrams_ok (bigrams u) →
  promote_unigram u = u ↔
  strict_head (bigrams u) ∧ ∀ bn, bn ∈ bigrams u → strict_head (child bn).
Proof.
  intros Hok. destruct u as [c l]. simpl in *.
  pose proof Hok as [Hnd Hall].
  set (L := TrigramModel.with_child promote <$> l).
  assert (NoDup (data <$> L)) as HndL by (by unfold L; rewrite data_with_child).
  assert (Forall (λ n, -1 <= cnt n) L) as HgeL.
  { apply (Forall_cnt_with_child promote (λ c, -1 <= c)), bigrams_ok_cnt, Hok. }
  assert (∀ bn, bn ∈ l →
            promote (child bn) = child bn ↔ strict_head (child bn)) as Hchild.
  { intros bn Hbn. pose proof (bigrams_ok_child _ _ Hok Hbn) as Ht.
    apply promote_fixed_iff; [apply Ht | by apply trigrams_ok_cnt]. }
  unfold promote_unigram. simpl. fold L. split.
  - intros Heq. injection Heq as Heq.
    assert (L = l) as HL.
    { destruct (decide (L = [])) as [HL|Hne].
      - rewrite HL in Heq. by rewrite <-Heq.
      - destruct (promote_spec L Hne HgeL) as (j & h & Hh & Hp & _).
        rewrite Hp in Heq. destruct j as [|j].
        + rewrite <-Heq. destruct L; by simplify_eq/=.
        + exfalso. destruct l as [|x l']; [done|]. injection Heq as -> _.
          assert (data <$> L = data <$> x :: l') as Hd
            by apply data_with_child.
          assert ((data <$> L) !! 0%nat = Some (data x)) as H0
            by (by rewrite Hd).
          assert ((data <$> L) !! S j = Some (data x)) as Hj
            by (by rewrite list_lookup_fmap, Hh).
          by pose proof (NoDup_lookup _ _ _ _ HndL H0 Hj). }
    rewrite HL in Heq. split.
    + apply promote_fixed_iff; [done| |done]. by apply bigrams_ok_cnt.
    + intros bn Hbn. apply Hchild; [done|].
      by apply (fmap_with_child_fixed l).
  - intros [Hs Hc]. f_equal.
    assert (L = l) as ->.
    { apply fmap_with_child_fixed. intros bn Hbn. apply Hchild; auto. }
    apply promote_fixed_iff; [done| |done]. by apply bigrams_ok_cnt.
Qed.

Lemma fmap_fixed (f : Unigram → Unigram) (fw : gmap string Unigram) :
  f <$> fw = fw ↔ ∀ a u, fw !! a = Some u → f u = u.
Proof.
  split.
  - intros Heq a u Hu. apply (f_equal (λ m : gmap string Unigram, m !! a)) in Heq.
    rewrite lookup_fmap, Hu in Heq. by simplify_eq/=.
  - intros Hall. apply map_eq. intros a. rewrite lookup_fmap.
    destruct (fw !! a) as [u|] eqn:Hu; [|done]. simpl. f_equal. by apply (Hall a).
Qed.

(** C3, as stated, fails on the worked example: after one [finish()] the
    list of third words of [x y] is [z; w], after a second one it is
    [w; z]. *)
Lemma finish_twice_counterexample :
  ∃ m m1 m2,
    TrigramModel.run (TrigramModel.training [doc1]) TrigramModel.init = Ok m ∧
    TrigramModel.finish m = Ok m1 ∧
    TrigramModel.finish m1 = Ok m2 ∧
    data <$> trigram_container (TrigramModel.first_words m1) "x" "y" = ["z"; "w"]%string ∧
    data <$> trigram_container (TrigramModel.first_words m2) "x" "y" = ["w"; "z"]%string.
Proof.
  destruct (run_training_ok [doc1] TrigramModel.init) as [m Hm].
  exists m. do 2 eexists.
  split; [done|]. split; [apply finish_eq|]. split; [apply finish_eq|].
  vm_compute in Hm. injection Hm as <-. by vm_compute.
Qed.

(** C3, amended. After complete training cycles, a second [finish()] never
    raises, and it leaves the model exactly as the first one left it if and
    only if, in the model the first one left, the head of every list is
    strictly ahead of every other entry of that list (no tie for the
    maximum count). *)
Theorem finish_twice (docs : list TrigramModel.document) :
  ∃ m m1 m2,
    TrigramModel.run (TrigramModel.training docs) TrigramModel.init = Ok m ∧
    TrigramModel.finish m = Ok m1 ∧
    TrigramModel.finish m1 = Ok m2 ∧
    (m2 = m1 ↔
     ∀ a u, TrigramModel.first_words m1 !! a = Some u →
       strict_head (bigrams u) ∧ ∀ bn, bn ∈ bigrams u → strict_head (child bn)).
Proof.
  destruct (run_training_ok docs TrigramModel.init) as [m Hm].
  exists m. do 2 eexists.
  split; [done|]. split; [apply finish_eq|]. split; [apply finish_eq|].
  simpl. pose proof (dict_ok_promote _ (run_dict_ok _ _ Hm)) as Hok.
  set (fw1 := promote_unigram <$> TrigramModel.first_words m) in *.
  split.
  - intros Heq. injection Heq as Heq. intros a u Hu.
    apply promote_unigram_fixed_iff; [apply (dict_ok_lookup fw1 a u Hok Hu)|].
    by apply (proj1 (fmap_fixed promote_unigram fw1) Heq a).
  - intros Hall. f_equal. apply fmap_fixed. intros a u Hu.
    apply promote_unigram_fixed_iff; [apply (dict_ok_lookup fw1 a u Hok Hu)|].
    by apply (Hall a).
Qed.

(** ** [end_input] *)

Lemma item_cnt_count_bigram l p k b :
  item_cnt (TrigramModel._count_bigram l p k) b =
  item_cnt l b + (if decide (p = b) then 1 else 0).
Proof.
  unfold item_cnt, TrigramModel._count_bigram.
  change (getitem (update_item ?f ?l' p) b)
    with (getitem (count_item f [] l p) b).
  rewrite getitem_count_item by done.
  case_decide as Hpb; [|lia]. subst b. simpl.
  by destruct (getitem l p).
Qed.

Lemma getitem_count_bigram_is_Some l p k :
  is_Some (getitem (TrigramModel._count_bigram l p k) p).
Proof.
  unfold TrigramModel._count_bigram.
  change (getitem (update_item ?f ?l' p) p)
    with (getitem (count_item f [] l p) p).
  rewrite getitem_count_item by done. rewrite decide_True by done. by eexists.
Qed.

(** C7. With the window holding [pp] and [p], [end_input()] does not raise;
    it adds one to the unigram count of [pp] and one to the unigram count of
    [p] (two when they are the same word), adds one to the count of the
    bigram entry of [p] under [pp], which exists afterwards, being put in
    front of the list when it was not there, leaves every list of third
    words as it was (the boundary pair gets no trigram entry), and changes
    no other count. *)
Theorem end_input_counts (m : TrigramModel.t) (pp p : string) :
  TrigramModel.prev_prev m = Some pp →
  TrigramModel.prev m = Some p →
  ∃ m', TrigramModel.end_input m = Ok m' ∧
    (∀ a, unigram_cnt (TrigramModel.first_words m') a =
          unigram_cnt (TrigramModel.first_words m) a
          + (if decide (a = pp) then 1 else 0)
          + (if decide (a = p) then 1 else 0)) ∧
    (∀ a b, bigram_cnt (TrigramModel.first_words m') a b =
            bigram_cnt (TrigramModel.first_words m) a b
            + (if decide (a = pp ∧ b = p) then 1 else 0)) ∧
    is_Some (getitem (bigram_container (TrigramModel.first_words m') pp) p) ∧
    (∀ a, bigram_words a m' =
          if decide (a = pp ∧ p ∉ bigram_words pp m)
          then p :: bigram_words a m else bigram_words a m) ∧
    (∀ a b, trigram_container (TrigramModel.first_words m') a b =
            trigram_container (TrigramModel.first_words m) a b) ∧
    (∀ a b c, trigram_cnt (TrigramModel.first_words m') a b c =
              trigram_cnt (TrigramModel.first_words m) a b c) ∧
    TrigramModel.prev_prev m' = Some pp ∧ TrigramModel.prev m' = Some p.
Proof.
  intros Hpp Hp. unfold TrigramModel.end_input. rewrite Hpp, Hp.
  eexists. split; [done|]. simpl.
  assert (∀ a b,
    trigram_container
      (TrigramModel._count_unigram
         (TrigramModel._count_unigram (TrigramModel.first_words m) pp
            (λ bigram_list, TrigramModel._count_bigram bigram_list p id)) p id)
      a b = trigram_container (TrigramModel.first_words m) a b) as Htri.
  { intros a b. rewrite trigram_container_count_id, trigram_container_count.
    by case_decide. }
  split_and!; try done.
  - intros a. rewrite !unigram_cnt_count_unigram.
    destruct (decide (a = pp)), (decide (pp = a)),
             (decide (a = p)), (decide (p = a)); congruence || lia.
  - intros a b. unfold bigram_cnt.
    rewrite bigram_container_count_id, bigram_container_count_unigram.
    destruct (decide (pp = a)) as [->|Hne].
    + rewrite item_cnt_count_bigram.
      destruct (decide (p = b)) as [->|Hpb].
      * by rewrite decide_True.
      * rewrite decide_False; [done|]. intros [_ ?]. congruence.
    + rewrite decide_False; [lia|]. intros [? _]. congruence.
  - rewrite bigram_container_count_id, bigram_container_count_unigram.
    rewrite decide_True by done. apply getitem_count_bigram_is_Some.
  - intros a. unfold bigram_words. simpl.
    rewrite bigram_container_count_id, bigram_container_count_unigram.
    destruct (decide (pp = a)) as [->|Hne].
    + rewrite data_count_bigram. case_decide as Hin.
      * rewrite decide_False; [done|]. intros [_ ?]. done.
      * by rewrite decide_True.
    + rewrite decide_False; [done|]. intros [? _]. congruence.
  - intros a b c. unfold trigram_cnt. by rewrite Htri.
Qed.

Lemma end_input_counts_witness :
  ∃ m', TrigramModel.end_input
          (TrigramModel.start_input TrigramModel.init "x" "y") = Ok m' ∧
        unigram_cnt (TrigramModel.first_words m') "x" = 1 ∧
        unigram_cnt (TrigramModel.first_words m') "y" = 1 ∧
        bigram_cnt (TrigramModel.first_words m') "x" "y" = 1 ∧
        trigram_container (TrigramModel.first_words m') "x" "y" = [].
Proof.
  destruct (end_input_counts
              (TrigramModel.start_input TrigramModel.init "x" "y") "x" "y"
              eq_refl eq_refl)
    as (m' & Hm' & Hu & Hb & _ & _ & Ht & _).
  exists m'. split; [exact Hm'|].
  split; [exact (Hu "x"%string)|].
  split; [exact (Hu "y"%string)|].
  split; [exact (Hb "x"%string "y"%string)|].
  exact (Ht "x"%string "y"%string).
Defined.

(** ** The vocabulary is closed under training *)

Lemma closed_in_mono (V V' : gset string) fw :
  V ⊆ V' → closed_in V fw → closed_in V' fw.
Proof.
  intros HV Hc a. eapply Forall_impl; [apply Hc|]. simpl.
  intros bn [Hb Ht]. split; [by apply HV|].
  eapply Forall_impl; [done|]. simpl. intros tn. apply HV.
Qed.

Lemma closed_in_count (V : gset string) fw pp p k :
  p ∈ V →
  (∀ t, Forall (λ tn : Node unit, data tn ∈ V) t →
        Forall (λ tn, data tn ∈ V) (k t)) →
  closed_in V fw →
  closed_in V (TrigramModel._count_unigram fw pp
                 (λ bigram_list, TrigramModel._count_bigram bigram_list p k)).
Proof.
  intros Hp Hk Hc a. rewrite bigram_container_count_unigram.
  case_decide; [|apply Hc].
  apply (Forall_count_item _
           (λ n, TrigramModel.with_child k (TrigramModel.incr n)) []).
  - simpl. split; [done|]. by apply Hk.
  - intros n _ Hn [Hd Ht]. simpl. split; [done|]. by apply Hk.
  - apply Hc.
Qed.

Lemma closed_in_count_id (V : gset string) fw p :
  closed_in V fw → closed_in V (TrigramModel._count_unigram fw p id).
Proof. intros Hc a. rewrite bigram_container_count_id. apply Hc. Qed.

Lemma Forall_count_trigram (V : gset string) t w :
  w ∈ V →
  Forall (λ tn : Node unit, data tn ∈ V) t →
  Forall (λ tn, data tn ∈ V) (TrigramModel._count_trigram t w).
Proof.
  intros Hw Ht. apply (Forall_count_item _ TrigramModel.incr ()); [done| |done].
  by intros n _ _ Hn.
Qed.

(** Inside a cycle the stored words are keys or words of the window. *)
Lemma consume_word_closed m w m' :
  closed_in (dom (TrigramModel.first_words m) ∪ window_words m)
    (TrigramModel.first_words m) →
  TrigramModel.consume_word m w = Ok m' →
  closed_in (dom (TrigramModel.first_words m') ∪ window_words m')
    (TrigramModel.first_words m').
Proof.
  unfold TrigramModel.consume_word, window_words.
  window_cases m pp p.
  intros Hc [= <-]. simpl in *. rewrite dom_count_unigram.
  apply closed_in_count.
  - set_solver.
  - intros t Ht. apply Forall_count_trigram; [set_solver|done].
  - eapply closed_in_mono; [|done].
    intros x. rewrite !elem_of_union, !elem_of_singleton. tauto.
Qed.

Lemma end_input_closed m m' :
  closed_in (dom (TrigramModel.first_words m) ∪ window_words m)
    (TrigramModel.first_words m) →
  TrigramModel.end_input m = Ok m' →
  closed (TrigramModel.first_words m').
Proof.
  unfold TrigramModel.end_input, window_words, closed.
  window_cases m pp p.
  intros Hc [= <-]. simpl in *. rewrite !dom_count_unigram.
  apply closed_in_count_id, closed_in_count.
  - set_solver.
  - done.
  - eapply closed_in_mono; [|done].
    intros x. rewrite !elem_of_union, !elem_of_singleton. tauto.
Qed.

Lemma run_consume_closed ws m m' :
  closed_in (dom (TrigramModel.first_words m) ∪ window_words m)
    (TrigramModel.first_words m) →
  TrigramModel.run (TrigramModel.ConsumeWord <$> ws) m = Ok m' →
  closed_in (dom (TrigramModel.first_words m') ∪ window_words m')
    (TrigramModel.first_words m').
Proof.
  revert m. induction ws as [|w ws IH]; intros m Hc; csimpl.
  - intros. by simplify_eq.
  - intros Hrun. apply bind_Ok_inv in Hrun as (m1 & Hw & Hrun).
    apply (IH m1); [|done]. by eapply consume_word_closed.
Qed.

Lemma run_cycle_closed d m m' :
  closed (TrigramModel.first_words m) →
  TrigramModel.run (TrigramModel.cycle d) m = Ok m' →
  closed (TrigramModel.first_words m').
Proof.
  destruct d as [[f s] ws]. intros Hc Hrun. simpl in Hrun.
  rewrite run_app in Hrun. apply bind_Ok_inv in Hrun as (m1 & Hws & Hend).
  simpl in Hend. apply bind_Ok_inv in Hend as (m2 & Hend & ?). simplify_eq.
  eapply end_input_closed; [|done].
  eapply run_consume_closed; [|done].
  simpl. eapply closed_in_mono; [|done]. set_solver.
Qed.

Lemma closed_empty : closed ∅.
Proof. intros a. unfold bigram_container. by rewrite lookup_empty. Qed.

Lemma run_training_closed docs m m' :
  closed (TrigramModel.first_words m) →
  TrigramModel.run (TrigramModel.training docs) m = Ok m' →
  closed (TrigramModel.first_words m').
Proof.
  revert m. induction docs as [|d docs IH]; intros m Hc.
  - simpl. intros. by simplify_eq.
  - unfold TrigramModel.training. rewrite bind_cons, run_app.
    intros Hrun. apply bind_Ok_inv in Hrun as (m1 & Hd & Hrun).
    apply (IH m1); [|done]. by eapply run_cycle_closed.
Qed.

Lemma closed_promote fw : closed fw → closed (promote_unigram <$> fw).
Proof.
  unfold closed. rewrite dom_fmap_L. intros Hc a. specialize (Hc a).
  unfold bigram_container in *. rewrite lookup_fmap.
  destruct (fw !! a) as [u|]; simpl in *; [|done].
  rewrite promote_perm, Forall_fmap. eapply Forall_impl; [done|].
  simpl. intros bn [Hb Ht]. split; [done|]. by rewrite promote_perm.
Qed.

(** ** The generator *)

Lemma choice_Ok r l w r' :
  OutputGenerator.choice r l = Ok (w, r') →
  w ∈ l ∧ r' = OutputGenerator.advance r.
Proof.
  unfold OutputGenerator.choice. destruct l as [|w0 l]; [done|].
  remember (w0 :: l) as l' eqn:Hl'. intros H. injection H as <- <-.
  split; [|done].
  apply list_elem_of_In, nth_In, Nat.mod_upper_bound. by subst l'.
Qed.

Lemma choice_Raise r l e :
  OutputGenerator.choice r l = Raise e → e = IndexError ∧ l = [].
Proof.
  unfold OutputGenerator.choice. destruct l as [|w0 l]; [|done].
  by intros [= <-].
Qed.

Lemma elem_of_keys (fw : gmap string Unigram) w :
  w ∈ OutputGenerator.keys fw ↔ w ∈ dom fw.
Proof.
  unfold OutputGenerator.keys. rewrite elem_of_dom, list_elem_of_fmap. split.
  - intros ([k u] & -> & Hin). apply elem_of_map_to_list in Hin. by exists u.
  - intros [u Hu]. exists (w, u). split; [done|]. by apply elem_of_map_to_list.
Qed.

Lemma keys_nil (fw : gmap string Unigram) :
  OutputGenerator.keys fw = [] → fw = ∅.
Proof.
  unfold OutputGenerator.keys. intros H. apply fmap_nil_inv in H.
  by apply map_to_list_empty_iff.
Qed.

Lemma rand_word_draw g r : OutputGenerator._rand_word g r = draw g r.
Proof. done. Qed.

Lemma draw_Ok g r w g' r' :
  draw g r = Ok (w, g', r') →
  w ∈ dom (OutputGenerator.first_words g) ∧
  g' = OutputGenerator.set_refresh_cnt g (OutputGenerator.refresh_limit g) ∧
  r' = OutputGenerator.advance r.
Proof.
  unfold draw. intros H. apply bind_Ok_inv in H as ([w1 r1] & Hc & [= <- <- <-]).
  apply choice_Ok in Hc as [Hw ->]. by rewrite <-elem_of_keys.
Qed.

Lemma draw_Raise g r e :
  draw g r = Raise e → e = IndexError ∧ OutputGenerator.first_words g = ∅.
Proof.
  unfold draw.
  destruct (OutputGenerator.choice r _) as [[w r']|e'] eqn:Hc; [done|].
  intros [= <-]. apply choice_Raise in Hc as [-> Hk]. by apply keys_nil in Hk.
Qed.

Lemma best_bigram_rule g r b :
  OutputGenerator.prev g = Some b →
  b ∈ dom (OutputGenerator.first_words g) →
  OutputGenerator._best_bigram g r = bigram_rule g r b.
Proof.
  intros Hb Hin. apply elem_of_dom in Hin as [u Hu].
  unfold OutputGenerator._best_bigram, OutputGenerator.dict_getitem,
    bigram_rule, bigram_head.
  rewrite Hb. simpl. rewrite Hu. simpl. by destruct (bigrams u).
Qed.

(** On a generator whose window holds keys only, [generate_word] selects
    as the rule says. *)
Lemma select_word_rule g r :
  gen_ok (OutputGenerator.first_words g) g →
  OutputGenerator.select_word g r = select_rule g r.
Proof.
  intros (_ & Hp & Hpp). unfold OutputGenerator.select_word, select_rule.
  case_decide; [done|].
  destruct (OutputGenerator.prev_prev g) as [a|] eqn:Ha.
  - destruct (Hpp a eq_refl) as [Hin [b Hb]]. rewrite Hb.
    pose proof (best_bigram_rule g r b Hb (Hp b Hb)) as Hbb.
    apply elem_of_dom in Hin as [u Hu].
    unfold OutputGenerator._best_trigram, OutputGenerator.dict_getitem,
      trigram_head.
    rewrite Ha, Hb. simpl. rewrite Hu. simpl.
    destruct (getitem (bigrams u) b) as [bn|]; simpl; [|done].
    by destruct (child bn).
  - destruct (OutputGenerator.prev g) as [b|] eqn:Hb; [|done].
    by apply best_bigram_rule, Hp.
Qed.

Lemma bigram_head_closed fw b w :
  closed fw → bigram_head fw b = Some w → w ∈ dom fw.
Proof.
  intros Hc. unfold bigram_head. destruct (fw !! b) as [u|] eqn:Hu; [|done].
  simpl. destruct (bigrams u) as [|bn l] eqn:Hl; [done|]. intros [= <-].
  specialize (Hc b). rewrite (bigram_container_lookup _ _ _ Hu), Hl in Hc.
  by apply Forall_cons in Hc as [[? _] _].
Qed.

Lemma trigram_head_closed fw a b w :
  closed fw → trigram_head fw a b = Some w → w ∈ dom fw.
Proof.
  intros Hc. unfold trigram_head. destruct (fw !! a) as [u|] eqn:Hu; [|done].
  simpl. destruct (getitem (bigrams u) b) as [bn|] eqn:Hbn; [|done].
  simpl. destruct (child bn) as [|tn t] eqn:Ht; [done|]. intros [= <-].
  apply getitem_Some in Hbn as [Hin _].
  specialize (Hc a). rewrite (bigram_container_lookup _ _ _ Hu) in Hc.
  rewrite Forall_forall in Hc. destruct (Hc bn Hin) as [_ Hall].
  rewrite Ht in Hall. by apply Forall_cons in Hall as [? _].
Qed.

Lemma bigram_rule_Ok g r b w g' r' :
  closed (OutputGenerator.first_words g) →
  bigram_rule g r b = Ok (w, g', r') →
  w ∈ dom (OutputGenerator.first_words g) ∧
  g' = OutputGenerator.set_refresh_cnt g (OutputGenerator.refresh_cnt g').
Proof.
  intros Hc. unfold bigram_rule.
  destruct (bigram_head _ b) as [w'|] eqn:Hh.
  - intros [= <- <- <-]. split; [by eapply bigram_head_closed|].
    by destruct g.
  - intros Hd. apply draw_Ok in Hd as (Hw & -> & _). by split.
Qed.

Lemma bigram_rule_Raise g r b e :
  bigram_rule g r b = Raise e →
  e = IndexError ∧ OutputGenerator.first_words g = ∅.
Proof.
  unfold bigram_rule. destruct (bigram_head _ b); [done|]. apply draw_Raise.
Qed.

Lemma select_rule_Ok g r w g' r' :
  closed (OutputGenerator.first_words g) →
  select_rule g r = Ok (w, g', r') →
  w ∈ dom (OutputGenerator.first_words g) ∧
  g' = OutputGenerator.set_refresh_cnt g (OutputGenerator.refresh_cnt g').
Proof.
  intros Hc. unfold select_rule.
  assert (∀ w g' r', draw g r = Ok (w, g', r') →
            w ∈ dom (OutputGenerator.first_words g) ∧
            g' = OutputGenerator.set_refresh_cnt g
                   (OutputGenerator.refresh_cnt g')) as Hdraw.
  { intros ??? Hd. apply draw_Ok in Hd as (Hw & -> & _). by split. }
  case_decide; [apply Hdraw|].
  destruct (OutputGenerator.prev_prev g) as [a|],
           (OutputGenerator.prev g) as [b|]; try apply Hdraw;
    try by apply bigram_rule_Ok.
  destruct (trigram_head _ a b) as [w'|] eqn:Hh; [|by apply bigram_rule_Ok].
  intros [= <- <- <-]. split; [by eapply trigram_head_closed|]. by destruct g.
Qed.

Lemma select_rule_Raise g r e :
  select_rule g r = Raise e →
  e = IndexError ∧ OutputGenerator.first_words g = ∅.
Proof.
  unfold select_rule. case_decide; [apply draw_Raise|].
  destruct (OutputGenerator.prev_prev g) as [a|],
           (OutputGenerator.prev g) as [b|];
    try apply draw_Raise; try apply bigram_rule_Raise.
  destruct (trigram_head _ a b); [done|]. apply bigram_rule_Raise.
Qed.

Lemma generate_word_Ok fw g r w g' r' :
  closed fw → gen_ok fw g →
  OutputGenerator.generate_word g r = Ok (w, g', r') →
  w ∈ dom fw ∧ gen_ok fw g'.
Proof.
  intros Hc Hg Hgen. pose proof Hg as (Hfw & Hp & Hpp). subst fw.
  unfold OutputGenerator.generate_word in Hgen.
  rewrite (select_word_rule g r Hg) in Hgen.
  apply bind_Ok_inv in Hgen as ([[w1 g1] r1] & Hsel & Hgen).
  apply (select_rule_Ok _ _ _ _ _ Hc) in Hsel as [Hw1 Hg1].
  assert (∃ c, (w ∈ dom (OutputGenerator.first_words g)) ∧
    g' = OutputGenerator.mk (OutputGenerator.first_words g)
           (OutputGenerator.refresh_limit g) c
           (OutputGenerator.prev_3 g) (OutputGenerator.prev_prev g)
           (OutputGenerator.prev g) (Some w)) as (c & Hw & ->).
  { destruct (OutputGenerator.cycle_detected g1 w1).
    - apply bind_Ok_inv in Hgen as ([[w2 g2] r2] & Hd & [= <- <- <-]).
      rewrite rand_word_draw in Hd. apply draw_Ok in Hd as (Hw2 & -> & _).
      rewrite Hg1 in *. simpl in *. by eexists.
    - simpl in Hgen. injection Hgen as <- <- <-.
      rewrite Hg1. simpl. by eexists. }
  split; [done|]. split_and!; simpl.
  - done.
  - by intros ? [= <-].
  - intros a Ha. split; [by apply Hp|]. by eexists.
Qed.

Lemma select_rule_state g r w g' r' :
  select_rule g r = Ok (w, g', r') →
  g' = OutputGenerator.set_refresh_cnt g (OutputGenerator.refresh_cnt g').
Proof.
  unfold select_rule.
  assert (∀ w g' r', draw g r = Ok (w, g', r') →
            g' = OutputGenerator.set_refresh_cnt g
                   (OutputGenerator.refresh_cnt g')) as Hdraw.
  { intros ??? Hd. by apply draw_Ok in Hd as (_ & -> & _). }
  assert (∀ b w g' r', bigram_rule g r b = Ok (w, g', r') →
            g' = OutputGenerator.set_refresh_cnt g
                   (OutputGenerator.refresh_cnt g')) as Hbr.
  { intros b ???. unfold bigram_rule. destruct (bigram_head _ b).
    - intros [= <- <- <-]. by destruct g.
    - apply Hdraw. }
  case_decide; [apply Hdraw|].
  destruct (OutputGenerator.prev_prev g) as [a|],
           (OutputGenerator.prev g) as [b|]; try apply Hdraw; try apply Hbr.
  destruct (trigram_head _ a b); [|apply Hbr].
  intros [= <- <- <-]. by destruct g.
Qed.

Lemma generate_word_Raise g r e :
  gen_ok (OutputGenerator.first_words g) g →
  OutputGenerator.generate_word g r = Raise e →
  e = IndexError ∧ OutputGenerator.first_words g = ∅.
Proof.
  intros Hg. unfold OutputGenerator.generate_word.
  rewrite (select_word_rule g r Hg).
  destruct (select_rule g r) as [[[w1 g1] r1]|e1] eqn:Hsel.
  - simpl. destruct (OutputGenerator.cycle_detected g1 w1); [|done].
    rewrite rand_word_draw.
    destruct (draw g1 r1) as [[[w2 g2] r2]|e2] eqn:Hd; [done|].
    intros [= <-]. apply draw_Raise in Hd as [-> Hd].
    apply select_rule_state in Hsel. rewrite Hsel in Hd. by split.
  - simpl. intros [= <-]. by apply select_rule_Raise in Hsel.
Qed.

Lemma gen_ok_init fw R : gen_ok fw (OutputGenerator.init fw R).
Proof. split_and!; [done|by intros w [=]..]. Qed.


Lemma generate_words_Ok fw n g r ws g' r' :
  closed fw → gen_ok fw g →
  OutputGenerator.generate_words n g r = Ok (ws, g', r') →
  Forall (λ w, w ∈ dom fw) ws ∧ gen_ok fw g'.
Proof.
  intros Hc. revert g r ws. induction n as [|n IH]; intros g r ws Hg; simpl.
  - intros [= <- <- <-]. by split.
  - intros Hgen.
    apply bind_Ok_inv in Hgen as ([[w g1] r1] & Hw & Hgen).
    apply bind_Ok_inv in Hgen as ([[ws' g2] r2] & Hws & [= <- <- <-]).
    destruct (generate_word_Ok fw g r w g1 r1 Hc Hg Hw) as [Hin Hg1].
    destruct (IH g1 r1 ws' Hg1 Hws) as [Hall Hg2].
    split; [by constructor | done].
Qed.

Lemma generate_words_Raise fw n g r e :
  closed fw → gen_ok fw g →
  OutputGenerator.generate_words n g r = Raise e →
  e = IndexError ∧ fw = ∅.
Proof.
  intros Hc. revert g r. induction n as [|n IH]; intros g r Hg; simpl; [done|].
  destruct (OutputGenerator.generate_word g r) as [[[w g1] r1]|e1] eqn:Hw.
  - simpl. destruct (generate_word_Ok fw g r w g1 r1 Hc Hg Hw) as [_ Hg1].
    destruct (OutputGenerator.generate_words n g1 r1) as [[[ws g2] r2]|e2] eqn:Hws;
      [done|].
    intros [= <-]. by apply (IH g1 r1).
  - simpl. intros [= <-]. pose proof Hg as [Hfw _]. rewrite <-Hfw in Hg |- *.
    by apply (generate_word_Raise g r e1).
Qed.

Lemma closed_lookup (fw : gmap string Unigram) (a : string) u bn :
  closed fw → fw !! a = Some u → bn ∈ bigrams u →
  data bn ∈ dom fw ∧ ∀ tn, tn ∈ child bn → data tn ∈ dom fw.
Proof.
  intros Hc Hu Hbn. specialize (Hc a).
  rewrite (bigram_container_lookup _ _ _ Hu), Forall_forall in Hc.
  destruct (Hc bn Hbn) as [Hd Ht]. split; [done|].
  by rewrite Forall_forall in Ht.
Qed.

Lemma run_training_closed_init docs m :
  TrigramModel.run (TrigramModel.training docs) TrigramModel.init = Ok m →
  closed (TrigramModel.first_words m).
Proof. apply run_training_closed, closed_empty. Qed.

(** ** Claims about the generator *)

(** The worked example, continued: a generator whose last two words are
    [x y] returns [z]. *)
Example worked_example_generate :
  match OutputGenerator.generate_word
          (OutputGenerator.mk (trained [doc1]) 15 15 None None
             (Some "x"%string) (Some "y"%string)) rng0 with
  | Ok (w, _, _) => w = "z"%string
  | Raise _ => False
  end.
Proof. by vm_compute. Qed.


(** C10. After complete training cycles, before and after [finish()],
    every word stored in a list of second or third words is a key of the
    hash table; and a generator over it returns keys of the hash table
    only, however many times [generate_word()] is called, and raises no
    [KeyError]: the only exception, [IndexError], is that of a draw from an
    empty hash table. *)
Theorem vocabulary_closed (docs : list TrigramModel.document) :
  ∃ m mf,
    TrigramModel.run (TrigramModel.training docs) TrigramModel.init = Ok m ∧
    TrigramModel.finish m = Ok mf ∧
    ∀ m', m' = m ∨ m' = mf →
      (∀ a u bn, TrigramModel.first_words m' !! a = Some u → bn ∈ bigrams u →
         data bn ∈ dom (TrigramModel.first_words m') ∧
         ∀ tn, tn ∈ child bn → data tn ∈ dom (TrigramModel.first_words m')) ∧
      ∀ R r n,
        match OutputGenerator.generate_words n (output_generator m' R) r with
        | Ok (ws, _, _) => Forall (λ w, w ∈ dom (TrigramModel.first_words m')) ws
        | Raise e => e = IndexError ∧ TrigramModel.first_words m' = ∅
        end.
Proof.
  destruct (run_training_ok docs TrigramModel.init) as [m Hm].
  exists m. eexists. split; [done|]. split; [apply finish_eq|].
  pose proof (run_training_closed_init docs m Hm) as Hc.
  pose proof (closed_promote _ Hc) as Hcf.
  assert (∀ m', closed (TrigramModel.first_words m') →
    (∀ a u bn, TrigramModel.first_words m' !! a = Some u → bn ∈ bigrams u →
       data bn ∈ dom (TrigramModel.first_words m') ∧
       ∀ tn, tn ∈ child bn → data tn ∈ dom (TrigramModel.first_words m')) ∧
    ∀ R r n,
      match OutputGenerator.generate_words n (output_generator m' R) r with
      | Ok (ws, _, _) => Forall (λ w, w ∈ dom (TrigramModel.first_words m')) ws
      | Raise e => e = IndexError ∧ TrigramModel.first_words m' = ∅
      end) as Hall.
  { intros m' Hc'. split.
    - intros a u bn Hu Hbn. by eapply closed_lookup.
    - intros R r n. unfold output_generator.
      set (fw := TrigramModel.first_words m') in *.
      destruct (OutputGenerator.generate_words n _ r)
        as [[[ws g'] r']|e] eqn:Hgen.
      + by destruct (generate_words_Ok fw n _ r ws g' r' Hc'
                       (gen_ok_init fw R) Hgen).
      + by apply (generate_words_Raise fw n _ r e Hc' (gen_ok_init fw R)). }
  intros m' [->| ->]; by apply Hall.
Qed.

(** C9, as stated, fails on the model nothing was trained on: the
    constructor returns a generator, and the exception the first
    [generate_word()] raises is the [IndexError] of [random.choice], a
    lookup failure, not a rejection of the empty model. *)
Lemma empty_vocabulary_counterexample :
  ¬ ∃ e,
      OutputGenerator.generate_word (output_generator TrigramModel.init 15) rng0
        = Raise e ∧
      is_LookupError e = false.
Proof. intros (e & He & Hl). vm_compute in He. by simplify_eq. Qed.

(** C9, amended. On a model whose hash table is empty the constructor
    returns a generator, and the first [generate_word()] returns no word: it
    raises the [IndexError] of [random.choice] on the empty tuple of keys,
    whatever the refresh limit and the random source. *)
Theorem empty_vocabulary_raises (m : TrigramModel.t) (R : Z)
    (r : OutputGenerator.rng) :
  TrigramModel.first_words m = ∅ →
  OutputGenerator.generate_word (output_generator m R) r = Raise IndexError ∧
  is_LookupError IndexError = true.
Proof.
  intros Hm. split; [|done].
  unfold OutputGenerator.generate_word, OutputGenerator.select_word,
    output_generator. rewrite Hm. simpl.
  assert (OutputGenerator._rand_word (OutputGenerator.init ∅ R) r
          = Raise IndexError) as Hr by done.
  case_decide; by rewrite Hr.
Qed.

Lemma empty_vocabulary_raises_witness :
  OutputGenerator.generate_word (output_generator TrigramModel.init 15) rng0
    = Raise IndexError ∧
  is_LookupError IndexError = true.
Proof. apply (empty_vocabulary_raises TrigramModel.init 15 rng0). reflexivity. Defined.

(** [select_word] only ever touches the counter. *)
Lemma rand_word_state g r w g' r' :
  OutputGenerator._rand_word g r = Ok (w, g', r') →
  g' = OutputGenerator.set_refresh_cnt g (OutputGenerator.refresh_cnt g').
Proof.
  rewrite rand_word_draw. intros Hd. by apply draw_Ok in Hd as (_ & -> & _).
Qed.

Lemma best_bigram_state g r w g' r' :
  OutputGenerator._best_bigram g r = Ok (w, g', r') →
  g' = OutputGenerator.set_refresh_cnt g (OutputGenerator.refresh_cnt g').
Proof.
  unfold OutputGenerator._best_bigram.
  destruct (OutputGenerator.dict_getitem _ _) as [u|]; [|done]. simpl.
  destruct (bigrams u); [apply rand_word_state|].
  intros [= <- <- <-]. by destruct g.
Qed.

Lemma best_trigram_state g r w g' r' :
  OutputGenerator._best_trigram g r = Ok (w, g', r') →
  g' = OutputGenerator.set_refresh_cnt g (OutputGenerator.refresh_cnt g').
Proof.
  unfold OutputGenerator._best_trigram.
  destruct (OutputGenerator.dict_getitem _ _) as [u|]; [|done]. simpl.
  destruct (OutputGenerator.prev g ≫= getitem (bigrams u)) as [bn|];
    [|apply best_bigram_state].
  destruct (child bn); [apply best_bigram_state|].
  intros [= <- <- <-]. by destruct g.
Qed.

Lemma select_word_state g r w g' r' :
  OutputGenerator.select_word g r = Ok (w, g', r') →
  g' = OutputGenerator.set_refresh_cnt g (OutputGenerator.refresh_cnt g').
Proof.
  unfold OutputGenerator.select_word. case_decide; [apply rand_word_state|].
  destruct (OutputGenerator.prev_prev g); [apply best_trigram_state|].
  destruct (OutputGenerator.prev g); [apply best_bigram_state|].
  apply rand_word_state.
Qed.

Lemma cycle_detected_iff g w :
  OutputGenerator.cycle_detected g w = true ↔
  (Some w = OutputGenerator.prev_prev g ∧
   OutputGenerator.prev g = OutputGenerator.prev_3 g) ∨
  (Some w = OutputGenerator.prev_3 g ∧
   OutputGenerator.prev g = OutputGenerator.prev_4 g).
Proof.
  unfold OutputGenerator.cycle_detected.
  by rewrite orb_true_iff, !bool_decide_eq_true.
Qed.

(** C6. Whatever the generator and the candidate [w] selected: when [w] is
    the second to last word and the last word is the third to last, or [w]
    is the third to last word and the last word is the fourth to last,
    [generate_word()] returns a fresh draw from the keys instead of [w] and
    leaves the counter at [refresh_limit - 1] (reset, then decremented);
    otherwise it returns [w] and the counter left by the selection,
    decremented.  The window is shifted by the returned word either way. *)
Theorem cycle_suppression (g : OutputGenerator.t) (r : OutputGenerator.rng)
    (w : string) (g1 : OutputGenerator.t) (r1 : OutputGenerator.rng) :
  OutputGenerator.select_word g r = Ok (w, g1, r1) →
  let cycle :=
    (Some w = OutputGenerator.prev_prev g ∧
     OutputGenerator.prev g = OutputGenerator.prev_3 g) ∨
    (Some w = OutputGenerator.prev_3 g ∧
     OutputGenerator.prev g = OutputGenerator.prev_4 g) in
  (cycle →
   OutputGenerator.generate_word g r =
   '(w', r') ← OutputGenerator.choice r1
                 (OutputGenerator.keys (OutputGenerator.first_words g));
   Ok (w', shift g (OutputGenerator.refresh_limit g - 1) w', r')) ∧
  (¬ cycle →
   OutputGenerator.generate_word g r =
   Ok (w, shift g (OutputGenerator.refresh_cnt g1 - 1) w, r1)).
Proof.
  intros Hsel cycle. unfold OutputGenerator.generate_word. rewrite Hsel, bind_Ok.
  apply select_word_state in Hsel.
  assert (cycle ↔ OutputGenerator.cycle_detected g1 w = true) as Hcyc.
  { rewrite cycle_detected_iff, Hsel. done. }
  split; intros Hc.
  - apply Hcyc in Hc. rewrite Hc. unfold OutputGenerator._rand_word.
    rewrite Hsel. simpl.
    by destruct (OutputGenerator.choice r1 _) as [[w' r']|].
  - destruct (OutputGenerator.cycle_detected g1 w); [by destruct Hc; apply Hcyc|].
    rewrite bind_Ok, Hsel. done.
Qed.

Lemma cycle_suppression_witness :
  OutputGenerator.generate_word gen_aba rng0 =
  '(w', r') ← OutputGenerator.choice rng0 (OutputGenerator.keys (trained [doc2]));
  Ok (w', shift gen_aba 1 w', r').
Proof.
  refine (proj1 (cycle_suppression gen_aba rng0 "b" gen_aba rng0 _) _).
  - vm_compute. reflexivity.
  - left. split; reflexivity.
Defined.

(** ** Refresh periodicity *)

Lemma generate_words_S n g r :
  OutputGenerator.generate_words (S n) g r =
  '(w, g1, r1) ← OutputGenerator.generate_word g r;
  '(ws, g2, r2) ← OutputGenerator.generate_words n g1 r1;
  Ok (w :: ws, g2, r2).
Proof. done. Qed.

Lemma generate_words_snoc n g r :
  OutputGenerator.generate_words (S n) g r =
  '(ws, g1, r1) ← OutputGenerator.generate_words n g r;
  '(w, g2, r2) ← OutputGenerator.generate_word g1 r1;
  Ok (ws ++ [w], g2, r2).
Proof.
  revert g r. induction n as [|n IH]; intros g r.
  - simpl. by destruct (OutputGenerator.generate_word g r) as [[[??]?]|].
  - rewrite (generate_words_S (S n)), (generate_words_S n).
    destruct (OutputGenerator.generate_word g r) as [[[w g1] r1]|]; [|done].
    rewrite !bind_Ok, IH.
    destruct (OutputGenerator.generate_words n g1 r1) as [[[ws g2] r2]|]; [|done].
    rewrite !bind_Ok.
    by destruct (OutputGenerator.generate_word g2 r2) as [[[??]?]|].
Qed.

Lemma select_rule_greedy g r w :
  ¬ forced_draw g → greedy_head g = Some w → select_rule g r = Ok (w, g, r).
Proof.
  unfold forced_draw, greedy_head, select_rule, bigram_rule.
  intros Hf Hh. rewrite decide_False by done.
  destruct (OutputGenerator.prev_prev g) as [a|],
           (OutputGenerator.prev g) as [b|]; try done.
  - destruct (trigram_head _ a b); [by simplify_eq|]. by rewrite Hh.
  - by rewrite Hh.
Qed.

Lemma mod_succ (x R : Z) :
  0 < R →
  (x + 1) `mod` R = if decide (x `mod` R = R - 1) then 0 else x `mod` R + 1.
Proof.
  intros HR. case_decide as Hx.
  - rewrite Z.add_mod, Hx by lia.
    destruct (decide (R = 1)) as [->|]; [done|].
    rewrite (Z.mod_small 1) by lia.
    replace (R - 1 + 1) with (1 * R) by lia. apply Z.mod_mul. lia.
  - pose proof (Z.mod_pos_bound x R HR).
    rewrite Z.add_mod by lia.
    destruct (decide (R = 1)) as [->|]; [rewrite Z.mod_1_r in *; lia|].
    rewrite (Z.mod_small 1) by lia. apply Z.mod_small. lia.
Qed.

Lemma select_word_init fw R r :
  OutputGenerator.select_word (OutputGenerator.init fw R) r =
  draw (OutputGenerator.init fw R) r.
Proof. unfold OutputGenerator.select_word. by case_decide. Qed.

(** What one call does to the counter when no cycle is detected. *)
Lemma generate_word_quiet g r w g' r' :
  OutputGenerator.generate_word g r = Ok (w, g', r') →
  (∀ w g1 r1, OutputGenerator.select_word g r = Ok (w, g1, r1) →
              OutputGenerator.cycle_detected g1 w = false) →
  ∃ g1, OutputGenerator.select_word g r = Ok (w, g1, r') ∧
        OutputGenerator.refresh_cnt g' = OutputGenerator.refresh_cnt g1 - 1 ∧
        OutputGenerator.refresh_limit g' = OutputGenerator.refresh_limit g.
Proof.
  intros Hgen Hq. unfold OutputGenerator.generate_word in Hgen.
  destruct (OutputGenerator.select_word g r) as [[[w1 g1] r1]|] eqn:Hsel; [|done].
  rewrite bind_Ok, (Hq w1 g1 r1 eq_refl) in Hgen. simpl in Hgen.
  injection Hgen as <- <- <-. exists g1. split_and!; [done..|].
  apply select_word_state in Hsel. by rewrite Hsel.
Qed.

(** The counter along a quiet run. *)
Lemma quiet_run_counter fw R r0 n :
  closed fw → fw ≠ ∅ → 1 <= R → quiet_run fw R r0 n →
  ∀ k, (1 ≤ k ≤ n)%nat →
    ∃ ws g r,
      OutputGenerator.generate_words k (OutputGenerator.init fw R) r0
        = Ok (ws, g, r) ∧
      gen_ok fw g ∧
      OutputGenerator.refresh_limit g = R ∧
      OutputGenerator.refresh_cnt g = R - 1 - (Z.of_nat k - 1) `mod` R.
Proof.
  intros Hc Hne HR Hq k [Hk1 Hkn]. induction k as [|k IH]; [lia|].
  destruct (decide (k = 0%nat)) as [->|Hk0].
  - (* the very first call draws *)
    clear IH. destruct (Hq 0%nat [] (OutputGenerator.init fw R) r0) as [Hcyc _];
      [lia|done|].
    pose proof (gen_ok_init fw R) as Hg0. simpl.
    destruct (OutputGenerator.generate_word (OutputGenerator.init fw R) r0)
      as [[[w g1] r1]|e] eqn:Hgen.
    + destruct (generate_word_Ok fw _ _ _ _ _ Hc Hg0 Hgen) as [_ Hg1].
      destruct (generate_word_quiet _ _ _ _ _ Hgen Hcyc) as (g' & Hsel & Hcnt & Hlim).
      exists [w], g1, r1. split_and!; [done|done|done|].
      rewrite Hcnt. rewrite select_word_init in Hsel.
      apply draw_Ok in Hsel as (_ & -> & _). simpl.
      replace (Z.of_nat 1 - 1) with 0 by lia. rewrite Zmod_0_l. lia.
    + exfalso. apply Hne.
      by apply (generate_word_Raise _ _ _ Hg0) in Hgen as [_ ?].
  - destruct IH as (ws & g & r & Hk & Hg & Hlim & Hcnt); [lia..|].
    destruct (Hq k ws g r ltac:(lia) Hk) as [Hcyc Hgre].
    rewrite generate_words_snoc, Hk, bind_Ok.
    destruct (OutputGenerator.generate_word g r) as [[[w g1] r1]|e] eqn:Hgen.
    + destruct (generate_word_Ok fw _ _ _ _ _ Hc Hg Hgen) as [_ Hg1].
      destruct (generate_word_quiet _ _ _ _ _ Hgen Hcyc) as (g' & Hsel & Hcnt' & Hlim').
      exists (ws ++ [w]), g1, r1. split_and!; [done|done|congruence|].
      rewrite Hcnt'.
      replace (Z.of_nat (S k) - 1) with (Z.of_nat k - 1 + 1) by lia.
      rewrite (mod_succ _ R) by lia.
      pose proof (Z.mod_pos_bound (Z.of_nat k - 1) R ltac:(lia)) as Hb.
      destruct (decide (forced_draw g)) as [Hf|Hf].
      * unfold forced_draw in Hf.
        unfold OutputGenerator.select_word in Hsel.
        rewrite decide_True in Hsel by done.
        rewrite rand_word_draw in Hsel. apply draw_Ok in Hsel as (_ & -> & _).
        simpl. rewrite Hlim. rewrite decide_True by lia. lia.
      * destruct (Hgre ltac:(lia) Hf) as [w' Hw'].
        pose proof Hg as [Hfw _]. rewrite <-Hfw in Hg.
        rewrite (select_word_rule g r Hg),
          (select_rule_greedy g r w' Hf Hw') in Hsel.
        injection Hsel as <- <- <-.
        unfold forced_draw in Hf. rewrite decide_False by lia. lia.
    + exfalso. apply Hne. pose proof Hg as [Hfw _]. rewrite <-Hfw in Hg.
      apply (generate_word_Raise _ _ _ Hg) in Hgen as [_ ?]. congruence.
Qed.

Lemma trained_closed docs : closed (trained docs).
Proof.
  unfold trained.
  destruct (run_training_ok docs TrigramModel.init) as [m Hm].
  rewrite Hm, bind_Ok, finish_eq. simpl.
  by apply closed_promote, (run_training_closed_init docs).
Qed.

Lemma trained_doc2_nonempty : trained [doc2] ≠ ∅.
Proof.
  intros H. apply (f_equal (λ m : gmap string Unigram, m !! "a"%string)) in H.
  vm_compute in H. discriminate.
Qed.

(** On the model of [doc2], with limit 2, the first six calls are a quiet
    run: the words come out as [c d a b d e]. *)
Lemma quiet_run_doc2 : quiet_run (trained [doc2]) 2 rng0 6.
Proof.
  intros k ws g r Hk Hgen.
  do 6 (destruct k as [|k];
        [vm_compute in Hgen; injection Hgen as <- <- <-; split;
         [intros w g1 r1 Hsel; vm_compute in Hsel;
          injection Hsel as <- <- <-; vm_compute; reflexivity
         |intros Hk1 _; first [lia | vm_compute; eexists; reflexivity]] |]).
  lia.
Qed.

(** C5, as stated, fails on that run: step 5 takes the forced draw, and 5
    is not a multiple of [R + 1 = 3]. *)
Lemma refresh_period_counterexample :
  ¬ periodicity_as_stated (trained [doc2]) 2 rng0 6.
Proof.
  intros H. destruct (H quiet_run_doc2 5%nat ltac:(lia)) as [H5 _].
  assert (forced_on_step (trained [doc2]) 2 rng0 5) as Hf.
  { do 3 eexists. split; [vm_compute; reflexivity|].
    unfold forced_draw. simpl. lia. }
  apply H5 in Hf. vm_compute in Hf. discriminate.
Qed.

(** C5, amended. For every refresh limit [R ≥ 1], on a fresh generator over
    a non-empty model whose stored words are all keys, along a run without
    cycle suppression and with the greedy context available: every step
    [s ≥ 2] is reached, it takes the forced draw exactly when [s - 1] is a
    multiple of [R] (steps [R+1, 2R+1, 3R+1, ...]: the forced draw itself
    is counted by the decrement that follows it), and every other step
    selects the head the greedy rule reads, without any draw. *)
Theorem refresh_period (fw : gmap string Unigram) (R : Z)
    (r0 : OutputGenerator.rng) (n : nat) :
  closed fw → fw ≠ ∅ → 1 <= R → quiet_run fw R r0 n →
  ∀ s, (2 ≤ s ≤ n)%nat →
    (forced_on_step fw R r0 s ↔ (Z.of_nat s - 1) `mod` R = 0) ∧
    ∃ ws g r,
      OutputGenerator.generate_words (s - 1) (OutputGenerator.init fw R) r0
        = Ok (ws, g, r) ∧
      (¬ forced_draw g →
       ∃ w, greedy_head g = Some w ∧
            OutputGenerator.select_word g r = Ok (w, g, r)).
Proof.
  intros Hc Hne HR Hq s Hs.
  destruct (quiet_run_counter fw R r0 n Hc Hne HR Hq (s - 1)%nat ltac:(lia))
    as (ws & g & r & Hgen & Hg & Hlim & Hcnt).
  assert (forced_draw g ↔ (Z.of_nat s - 1) `mod` R = 0) as Hforced.
  { unfold forced_draw. rewrite Hcnt.
    replace (Z.of_nat (s - 1) - 1) with (Z.of_nat s - 2) by lia.
    replace (Z.of_nat s - 1) with (Z.of_nat s - 2 + 1) by lia.
    rewrite (mod_succ _ R) by lia.
    pose proof (Z.mod_pos_bound (Z.of_nat s - 2) R ltac:(lia)).
    case_decide; lia. }
  split.
  - rewrite <-Hforced. unfold forced_on_step. split.
    + intros (ws' & g' & r' & Hgen' & Hf). congruence.
    + intros Hf. by exists ws, g, r.
  - exists ws, g, r. split; [done|]. intros Hf.
    destruct (Hq (s - 1)%nat ws g r ltac:(lia) Hgen) as [_ Hgre].
    destruct (Hgre ltac:(lia) Hf) as [w Hw]. exists w. split; [done|].
    pose proof Hg as [Hfw _]. rewrite <-Hfw in Hg.
    rewrite (select_word_rule g r Hg). by apply select_rule_greedy.
Qed.

Lemma refresh_period_witness :
  (forced_on_step (trained [doc2]) 2 rng0 5 ↔ (Z.of_nat 5 - 1) `mod` 2 = 0) ∧
  ∃ ws g r,
    OutputGenerator.generate_words (5 - 1)
      (OutputGenerator.init (trained [doc2]) 2) rng0 = Ok (ws, g, r) ∧
    (¬ forced_draw g →
     ∃ w, greedy_head g = Some w ∧
          OutputGenerator.select_word g r = Ok (w, g, r)).
Proof.
  apply (refresh_period (trained [doc2]) 2 rng0 6).
  - apply trained_closed.
  - apply trained_doc2_nonempty.
  - lia.
  - apply quiet_run_doc2.
  - lia.
Defined.

(** * Further properties of the code *)

(** Equality of two sets of words built from singletons, unions and lists. *)
Ltac set_eq_words :=
  apply set_eq; intros ?;
  rewrite ?list_to_set_app_L, ?list_to_set_cons, ?list_to_set_nil;
  rewrite ?elem_of_union, ?elem_of_singleton, ?elem_of_empty; tauto.

(** ** What one training call counts *)

Lemma item_cnt_count_trigram t w c :
  item_cnt (TrigramModel._count_trigram t w) c =
  item_cnt t c + (if decide (w = c) then 1 else 0).
Proof.
  unfold item_cnt, TrigramModel._count_trigram.
  change (getitem (update_item ?f ?l' w) c)
    with (getitem (count_item f () t w) c).
  rewrite getitem_count_item by done.
  case_decide as Hwc; [|lia]. subst c. simpl.
  by destruct (getitem t w).
Qed.

Lemma consume_word_step m pp p w :
  TrigramModel.prev_prev m = Some pp →
  TrigramModel.prev m = Some p →
  ∃ m', TrigramModel.consume_word m w = Ok m' ∧
    TrigramModel.prev_prev m' = Some p ∧ TrigramModel.prev m' = Some w ∧
    dom (TrigramModel.first_words m') = {[pp]} ∪ dom (TrigramModel.first_words m) ∧
    (∀ a, unigram_cnt (TrigramModel.first_words m') a =
          unigram_cnt (TrigramModel.first_words m) a
          + (if decide (a = pp) then 1 else 0)) ∧
    (∀ a b, bigram_cnt (TrigramModel.first_words m') a b =
            bigram_cnt (TrigramModel.first_words m) a b
            + (if decide ((a, b) = (pp, p)) then 1 else 0)) ∧
    (∀ a b c, trigram_cnt (TrigramModel.first_words m') a b c =
              trigram_cnt (TrigramModel.first_words m) a b c
              + (if decide ((a, b, c) = (pp, p, w)) then 1 else 0)).
Proof.
  intros Hpp Hp. unfold TrigramModel.consume_word. rewrite Hpp, Hp.
  eexists. split; [done|]. simpl. split_and!; [done|done|..].
  - apply dom_count_unigram.
  - intros a. rewrite unigram_cnt_count_unigram.
    destruct (decide (pp = a)), (decide (a = pp)); congruence || lia.
  - intros a b. unfold bigram_cnt. rewrite bigram_container_count_unigram.
    destruct (decide (pp = a)) as [->|Hne].
    + rewrite item_cnt_count_bigram.
      destruct (decide (p = b)) as [->|Hpb].
      * by rewrite decide_True.
      * rewrite decide_False; [done|]. congruence.
    + rewrite decide_False; [lia|]. congruence.
  - intros a b c. unfold trigram_cnt. rewrite trigram_container_count.
    destruct (decide (pp = a ∧ p = b)) as [[-> ->]|Hne].
    + rewrite item_cnt_count_trigram.
      destruct (decide (w = c)) as [->|Hwc].
      * by rewrite decide_True.
      * rewrite decide_False; [done|]. congruence.
    + rewrite decide_False; [lia|]. intros [= -> -> ->]. by apply Hne.
Qed.

Lemma end_input_step m pp p :
  TrigramModel.prev_prev m = Some pp →
  TrigramModel.prev m = Some p →
  ∃ m', TrigramModel.end_input m = Ok m' ∧
    dom (TrigramModel.first_words m')
      = {[pp; p]} ∪ dom (TrigramModel.first_words m) ∧
    (∀ a, unigram_cnt (TrigramModel.first_words m') a =
          unigram_cnt (TrigramModel.first_words m) a
          + (if decide (a = pp) then 1 else 0)
          + (if decide (a = p) then 1 else 0)) ∧
    (∀ a b, bigram_cnt (TrigramModel.first_words m') a b =
            bigram_cnt (TrigramModel.first_words m) a b
            + (if decide ((a, b) = (pp, p)) then 1 else 0)) ∧
    (∀ a b c, trigram_cnt (TrigramModel.first_words m') a b c =
              trigram_cnt (TrigramModel.first_words m) a b c).
Proof.
  intros Hpp Hp. unfold TrigramModel.end_input. rewrite Hpp, Hp.
  eexists. split; [done|]. simpl. split_and!.
  - rewrite !dom_count_unigram. set_eq_words.
  - intros a. rewrite !unigram_cnt_count_unigram.
    destruct (decide (a = pp)), (decide (pp = a)),
             (decide (a = p)), (decide (p = a)); congruence || lia.
  - intros a b. unfold bigram_cnt.
    rewrite bigram_container_count_id, bigram_container_count_unigram.
    destruct (decide (pp = a)) as [->|Hne].
    + rewrite item_cnt_count_bigram.
      destruct (decide (p = b)) as [->|Hpb].
      * by rewrite decide_True.
      * rewrite decide_False; [done|]. congruence.
    + rewrite decide_False; [lia|]. congruence.
  - intros a b c. unfold trigram_cnt.
    rewrite trigram_container_count_id, trigram_container_count.
    by case_decide.
Qed.

(** ** What training counts *)

(** The counts a model reports, as one record of observations. *)
Lemma run_rest_counts ws m pp p :
  TrigramModel.prev_prev m = Some pp →
  TrigramModel.prev m = Some p →
  ∃ m', TrigramModel.run
          ((TrigramModel.ConsumeWord <$> ws) ++ [TrigramModel.EndInput]) m
        = Ok m' ∧
    dom (TrigramModel.first_words m')
      = list_to_set (pp :: p :: ws) ∪ dom (TrigramModel.first_words m) ∧
    (∀ a, unigram_cnt (TrigramModel.first_words m') a =
          unigram_cnt (TrigramModel.first_words m) a + occ a (pp :: p :: ws)) ∧
    (∀ a b, bigram_cnt (TrigramModel.first_words m') a b =
            bigram_cnt (TrigramModel.first_words m) a b
            + occ (a, b) (pairs (pp :: p :: ws))) ∧
    (∀ a b c, trigram_cnt (TrigramModel.first_words m') a b c =
              trigram_cnt (TrigramModel.first_words m) a b c
              + occ (a, b, c) (triples (pp :: p :: ws))).
Proof.
  revert m pp p. induction ws as [|w ws IH]; intros m pp p Hpp Hp.
  - destruct (end_input_step m pp p Hpp Hp) as (m' & Hend & Hdom & Hu & Hb & Ht).
    exists m'. csimpl. rewrite Hend. split; [done|]. split_and!.
    + rewrite Hdom. set_eq_words.
    + intros a. rewrite Hu. cbn [occ]. lia.
    + intros a b. rewrite Hb. cbn [occ pairs]. lia.
    + intros a b c. rewrite Ht. cbn [occ triples]. lia.
  - destruct (consume_word_step m pp p w Hpp Hp)
      as (m1 & Hcw & Hpp1 & Hp1 & Hdom1 & Hu1 & Hb1 & Ht1).
    destruct (IH m1 p w Hpp1 Hp1) as (m' & Hrun & Hdom & Hu & Hb & Ht).
    exists m'. csimpl. rewrite Hcw. split; [done|]. split_and!.
    + rewrite Hdom, Hdom1. set_eq_words.
    + intros a. rewrite Hu, Hu1. cbn [occ]. lia.
    + intros a b. rewrite Hb, Hb1. cbn [occ pairs]. lia.
    + intros a b c. rewrite Ht, Ht1. cbn [occ triples]. lia.
Qed.

Lemma occ_app {A} `{EqDecision A} (x : A) (l1 l2 : list A) :
  occ x (l1 ++ l2) = occ x l1 + occ x l2.
Proof. induction l1 as [|y l1 IH]; simpl; lia. Qed.

Lemma run_training_counts docs m :
  ∃ m', TrigramModel.run (TrigramModel.training docs) m = Ok m' ∧
    dom (TrigramModel.first_words m')
      = list_to_set (docs ≫= tokens) ∪ dom (TrigramModel.first_words m) ∧
    (∀ a, unigram_cnt (TrigramModel.first_words m') a =
          unigram_cnt (TrigramModel.first_words m) a
          + occ a (docs ≫= tokens)) ∧
    (∀ a b, bigram_cnt (TrigramModel.first_words m') a b =
            bigram_cnt (TrigramModel.first_words m) a b
            + occ (a, b) (docs ≫= λ d, pairs (tokens d))) ∧
    (∀ a b c, trigram_cnt (TrigramModel.first_words m') a b c =
              trigram_cnt (TrigramModel.first_words m) a b c
              + occ (a, b, c) (docs ≫= λ d, triples (tokens d))).
Proof.
  revert m. induction docs as [|[[f s] ws] docs IH]; intros m.
  - exists m. split; [done|]. split_and!; intros; csimpl; try lia.
    by rewrite (left_id_L ∅ (∪)).
  - destruct (run_rest_counts ws (TrigramModel.start_input m f s) f s eq_refl eq_refl)
      as (m1 & Hrun1 & Hdom1 & Hu1 & Hb1 & Ht1).
    destruct (IH m1) as (m' & Hrun & Hdom & Hu & Hb & Ht).
    exists m'. split.
    { unfold TrigramModel.training. rewrite bind_cons, run_app.
      change (TrigramModel.run (TrigramModel.cycle (f, s, ws)) m)
        with (TrigramModel.run
                ((TrigramModel.ConsumeWord <$> ws) ++ [TrigramModel.EndInput])
                (TrigramModel.start_input m f s)).
      by rewrite Hrun1. }
    simpl in Hdom1, Hu1, Hb1, Ht1. rewrite !bind_cons.
    change (tokens (f, s, ws)) with (f :: s :: ws). split_and!.
    + rewrite Hdom, Hdom1. set_eq_words.
    + intros a. rewrite Hu, Hu1, occ_app. simpl. lia.
    + intros a b. rewrite Hb, Hb1, occ_app. simpl. lia.
    + intros a b c. rewrite Ht, Ht1, occ_app. simpl. lia.
Qed.

(** X1. After complete training cycles the unigram count of every word is
    the number of times the word occurs in the documents, and the keys of
    the hash table are exactly the words that occur. *)
Theorem training_counts_unigrams (docs : list TrigramModel.document) :
  ∃ m,
    TrigramModel.run (TrigramModel.training docs) TrigramModel.init = Ok m ∧
    (∀ a, unigram_cnt (TrigramModel.first_words m) a = occ a (docs ≫= tokens)) ∧
    (∀ a, a ∈ dom (TrigramModel.first_words m) ↔ a ∈ docs ≫= tokens).
Proof.
  destruct (run_training_counts docs TrigramModel.init)
    as (m & Hrun & Hdom & Hu & _).
  exists m. split; [done|]. split.
  - intros a. rewrite Hu. unfold unigram_cnt. simpl. by rewrite lookup_empty.
  - intros a. rewrite Hdom. simpl. rewrite dom_empty_L, (right_id_L ∅ (∪)).
    apply elem_of_list_to_set.
Qed.

(** X2. After complete training cycles the count of the bigram entry of
    [b] under [a] is the number of places where [b] follows [a] inside a
    document (0, the count of an absent entry, when it never does); pairs
    that straddle two documents are not counted. *)
Theorem training_counts_bigrams (docs : list TrigramModel.document) :
  ∃ m,
    TrigramModel.run (TrigramModel.training docs) TrigramModel.init = Ok m ∧
    ∀ a b, bigram_cnt (TrigramModel.first_words m) a b =
           occ (a, b) (docs ≫= λ d, pairs (tokens d)).
Proof.
  destruct (run_training_counts docs TrigramModel.init)
    as (m & Hrun & _ & _ & Hb & _).
  exists m. split; [done|]. intros a b. rewrite Hb.
  unfold bigram_cnt, bigram_container. simpl. by rewrite lookup_empty.
Qed.

(** X3. After complete training cycles the count of the trigram entry of
    [c] under [a b] is the number of places where [a b c] occur in a row
    inside a document. *)
Theorem training_counts_trigrams (docs : list TrigramModel.document) :
  ∃ m,
    TrigramModel.run (TrigramModel.training docs) TrigramModel.init = Ok m ∧
    ∀ a b c, trigram_cnt (TrigramModel.first_words m) a b c =
             occ (a, b, c) (docs ≫= λ d, triples (tokens d)).
Proof.
  destruct (run_training_counts docs TrigramModel.init)
    as (m & Hrun & _ & _ & _ & Ht).
  exists m. split; [done|]. intros a b c. rewrite Ht.
  unfold trigram_cnt, trigram_container, bigram_container. simpl.
  by rewrite lookup_empty.
Qed.

(** X4. With the window holding [pp] and [p], [consume_word(w)] does not
    raise; it adds one to the unigram count of [pp], to the count of the
    bigram entry of [p] under [pp] and to the count of the trigram entry of
    [w] under [pp p], changes no other count, makes [pp] a key, and slides
    the window to [p w]. *)
Theorem consume_word_counts (m : TrigramModel.t) (pp p w : string) :
  TrigramModel.prev_prev m = Some pp →
  TrigramModel.prev m = Some p →
  ∃ m', TrigramModel.consume_word m w = Ok m' ∧
    TrigramModel.prev_prev m' = Some p ∧ TrigramModel.prev m' = Some w ∧
    dom (TrigramModel.first_words m') = {[pp]} ∪ dom (TrigramModel.first_words m) ∧
    (∀ a, unigram_cnt (TrigramModel.first_words m') a =
          unigram_cnt (TrigramModel.first_words m) a
          + (if decide (a = pp) then 1 else 0)) ∧
    (∀ a b, bigram_cnt (TrigramModel.first_words m') a b =
            bigram_cnt (TrigramModel.first_words m) a b
            + (if decide ((a, b) = (pp, p)) then 1 else 0)) ∧
    (∀ a b c, trigram_cnt (TrigramModel.first_words m') a b c =
              trigram_cnt (TrigramModel.first_words m) a b c
              + (if decide ((a, b, c) = (pp, p, w)) then 1 else 0)).
Proof. apply consume_word_step. Qed.

Lemma consume_word_counts_witness :
  ∃ m', TrigramModel.consume_word
          (TrigramModel.start_input TrigramModel.init "x" "y") "z" = Ok m' ∧
        TrigramModel.prev_prev m' = Some "y"%string ∧
        TrigramModel.prev m' = Some "z"%string ∧
        unigram_cnt (TrigramModel.first_words m') "x" = 1 ∧
        unigram_cnt (TrigramModel.first_words m') "y" = 0 ∧
        bigram_cnt (TrigramModel.first_words m') "x" "y" = 1 ∧
        trigram_cnt (TrigramModel.first_words m') "x" "y" "z" = 1.
Proof.
  destruct (consume_word_counts
              (TrigramModel.start_input TrigramModel.init "x" "y") "x" "y" "z"
              eq_refl eq_refl)
    as (m' & Hm' & Hpp & Hp & _ & Hu & Hb & Ht).
  exists m'. split; [exact Hm'|]. split; [exact Hpp|]. split; [exact Hp|].
  split; [exact (Hu "x"%string)|]. split; [exact (Hu "y"%string)|].
  split; [exact (Hb "x"%string "y"%string)|].
  exact (Ht "x"%string "y"%string "z"%string).
Defined.

(** ** When training raises *)

Lemma run_window_set cs m :
  window_set m → ∃ m', TrigramModel.run cs m = Ok m'.
Proof. intros Hm. destruct (run_window cs m Hm) as (m' & ? & _). eauto. Qed.

(** X5. On a fresh model a sequence of training calls raises exactly when
    it starts with [consume_word] or [end_input], and the exception is then
    the [AttributeError] of the missing window attribute; once
    [start_input] has been called no training call raises. *)
Theorem run_raises_iff (cs : list TrigramModel.call) (e : exn) :
  TrigramModel.run cs TrigramModel.init = Raise e ↔
  e = AttributeError ∧
  ∃ c cs', cs = c :: cs' ∧ ∀ f s, c ≠ TrigramModel.StartInput f s.
Proof.
  destruct cs as [|c cs].
  - simpl. split; [done|]. by intros (_ & c & cs' & ? & _).
  - destruct c as [f s|w|]; simpl.
    + destruct (run_window_set cs
                  (TrigramModel.start_input TrigramModel.init f s))
        as [m' ->]; [split; by eexists|].
      split; [done|]. intros (_ & c & cs' & [= <- <-] & Hc). by destruct (Hc f s).
    + split.
      * intros [= <-]. split; [done|]. by eexists _, _.
      * by intros [-> _].
    + split.
      * intros [= <-]. split; [done|]. by eexists _, _.
      * by intros [-> _].
Qed.

(** ** Invariants of every training run *)

Section total.
Context {C : Type}.
Implicit Types l : LinkedList C.

Lemma total_cnt_update_item (f : Node C → Node C) l d :
  (∀ n, cnt (f n) = cnt n + 1) →
  is_Some (getitem l d) →
  total_cnt (update_item f l d) = total_cnt l + 1.
Proof.
  intros Hf. induction l as [|x l IH]; simpl; [by intros [??]|].
  case_decide; intros Hd; simpl.
  - rewrite Hf. lia.
  - rewrite IH by done. lia.
Qed.

Lemma total_cnt_count_item (f : Node C → Node C) c0 l w :
  (∀ n, cnt (f n) = cnt n + 1) →
  total_cnt (count_item f c0 l w) = total_cnt l + 1.
Proof.
  intros Hf. unfold count_item. destruct (getitem l w) eqn:Hg.
  - apply total_cnt_update_item; [done|]. by rewrite Hg.
  - unfold prepend. simpl. rewrite decide_True by done. simpl.
    rewrite Hf. simpl. lia.
Qed.
End total.

Lemma total_cnt_count_trigram t w :
  total_cnt (TrigramModel._count_trigram t w) = total_cnt t + 1.
Proof. by apply (total_cnt_count_item TrigramModel.incr ()). Qed.

Lemma total_cnt_count_bigram l w k :
  total_cnt (TrigramModel._count_bigram l w k) = total_cnt l + 1.
Proof.
  by apply (total_cnt_count_item
              (λ n, TrigramModel.with_child k (TrigramModel.incr n)) []).
Qed.

Lemma nested_count_bigram l w k :
  (∀ t, total_cnt (k t) <= total_cnt t + 1) →
  Forall (λ bn, total_cnt (child bn) <= cnt bn) l →
  Forall (λ bn, total_cnt (child bn) <= cnt bn) (TrigramModel._count_bigram l w k).
Proof.
  intros Hk Hl.
  apply (Forall_count_item _
           (λ n, TrigramModel.with_child k (TrigramModel.incr n)) []);
    [| |done].
  - simpl. pose proof (Hk []) as H0. simpl in H0. lia.
  - intros n _ _ Hn. simpl. pose proof (Hk (child n)). lia.
Qed.

Lemma counts_nested_count_unigram fw w K :
  (∀ l, total_cnt (K l) <= total_cnt l + 1) →
  (∀ l, Forall (λ bn, total_cnt (child bn) <= cnt bn) l →
        Forall (λ bn, total_cnt (child bn) <= cnt bn) (K l)) →
  counts_nested fw → counts_nested (TrigramModel._count_unigram fw w K).
Proof.
  intros HK1 HK2 Hfw a u. unfold TrigramModel._count_unigram.
  destruct (decide (w = a)) as [->|Hne].
  - rewrite lookup_insert_eq. intros [= <-]. simpl.
    destruct (fw !! a) as [u0|] eqn:Hu0; simpl.
    + destruct (Hfw a u0 Hu0) as (H1 & H2 & H3).
      pose proof (HK1 (bigrams u0)). split_and!; [lia|lia|by apply HK2].
    + pose proof (HK1 []) as H0. simpl in H0.
      split_and!; [lia|lia|by apply HK2].
  - rewrite lookup_insert_ne by done. apply Hfw.
Qed.

Lemma do_call_counts_nested m c m' :
  counts_nested (TrigramModel.first_words m) →
  TrigramModel.do_call m c = Ok m' →
  counts_nested (TrigramModel.first_words m').
Proof.
  intros Hm. destruct c as [f s|w|]; simpl.
  - by intros [= <-].
  - unfold TrigramModel.consume_word. window_cases m pp p.
    intros [= <-]. simpl. apply counts_nested_count_unigram; [| |done].
    + intros l. rewrite total_cnt_count_bigram. lia.
    + intros l. apply nested_count_bigram.
      intros t. rewrite total_cnt_count_trigram. lia.
  - unfold TrigramModel.end_input. window_cases m pp p.
    intros [= <-]. simpl.
    apply counts_nested_count_unigram; [intros; simpl; lia|done|].
    apply counts_nested_count_unigram; [| |done].
    + intros l. rewrite total_cnt_count_bigram. lia.
    + intros l. apply nested_count_bigram. intros t. simpl. lia.
Qed.

(** X6. Whatever training calls are made on a fresh model, complete cycles
    or not, as long as they do not raise: no list holds a word twice, every
    stored count is at least 1, the bigram counts of a unigram add up to at
    most its count and the trigram counts of a bigram add up to at most its
    count, so the frequency ratios the model stands for never exceed 1. *)
Theorem training_invariants (cs : list TrigramModel.call) :
  match TrigramModel.run cs TrigramModel.init with
  | Ok m =>
      ∀ a u, TrigramModel.first_words m !! a = Some u →
        1 <= ucnt u ∧
        NoDup (data <$> bigrams u) ∧
        total_cnt (bigrams u) <= ucnt u ∧
        ∀ bn, bn ∈ bigrams u →
          1 <= cnt bn ∧
          NoDup (data <$> child bn) ∧
          total_cnt (child bn) <= cnt bn ∧
          ∀ tn, tn ∈ child bn → 1 <= cnt tn
  | Raise _ => True
  end.
Proof.
  destruct (TrigramModel.run cs TrigramModel.init) as [m|] eqn:Hrun; [|done].
  pose proof (run_dict_ok cs m Hrun) as Hok.
  assert (counts_nested (TrigramModel.first_words m)) as Hn.
  { revert Hrun.
    apply (run_preserves (λ m, counts_nested (TrigramModel.first_words m))).
    - apply do_call_counts_nested.
    - intros a u. simpl. by rewrite lookup_empty. }
  intros a u Hu. destruct (Hn a u Hu) as (H1 & H2 & H3).
  destruct (dict_ok_lookup _ _ _ Hok Hu) as [Hnd Hall].
  split_and!; try done. intros bn Hbn.
  rewrite Forall_forall in Hall, H3.
  destruct (Hall bn Hbn) as (Hc & Hndt & Ht). rewrite Forall_forall in Ht.
  split_and!; [done|done|by apply H3|done].
Qed.

Lemma do_call_monotone m c m' :
  TrigramModel.do_call m c = Ok m' →
  dom (TrigramModel.first_words m) ⊆ dom (TrigramModel.first_words m') ∧
  (∀ a, unigram_cnt (TrigramModel.first_words m) a
        <= unigram_cnt (TrigramModel.first_words m') a) ∧
  (∀ a b, bigram_cnt (TrigramModel.first_words m) a b
          <= bigram_cnt (TrigramModel.first_words m') a b) ∧
  (∀ a b c, trigram_cnt (TrigramModel.first_words m) a b c
            <= trigram_cnt (TrigramModel.first_words m') a b c).
Proof.
  destruct c as [f s|w|]; simpl.
  - intros [= <-]. by split_and!.
  - intros Hc. assert (∃ pp p, TrigramModel.prev_prev m = Some pp ∧
                               TrigramModel.prev m = Some p) as (pp & p & Hpp & Hp).
    { unfold TrigramModel.consume_word in Hc. window_cases m pp p. eauto. }
    destruct (consume_word_step m pp p w Hpp Hp)
      as (m1 & Hc1 & _ & _ & Hdom & Hu & Hb & Ht).
    rewrite Hc in Hc1. injection Hc1 as <-. split_and!.
    + rewrite Hdom. apply union_subseteq_r.
    + intros a. rewrite Hu. case_decide; lia.
    + intros a b. rewrite Hb. case_decide; lia.
    + intros a b c. rewrite Ht. case_decide; lia.
  - intros Hc. assert (∃ pp p, TrigramModel.prev_prev m = Some pp ∧
                               TrigramModel.prev m = Some p) as (pp & p & Hpp & Hp).
    { unfold TrigramModel.end_input in Hc. window_cases m pp p. eauto. }
    destruct (end_input_step m pp p Hpp Hp) as (m1 & Hc1 & Hdom & Hu & Hb & Ht).
    rewrite Hc in Hc1. injection Hc1 as <-. split_and!.
    + rewrite Hdom. apply union_subseteq_r.
    + intros a. rewrite Hu. repeat case_decide; lia.
    + intros a b. rewrite Hb. case_decide; lia.
    + intros a b c. rewrite Ht. lia.
Qed.

(** X7. Training never deletes and never decrements, whatever the model
    it starts from: across any sequence of calls that does not raise, every
    key stays a key, every list keeps the words it held, and no unigram,
    bigram or trigram count goes down. *)
Theorem training_monotone (cs : list TrigramModel.call) (m : TrigramModel.t) :
  match TrigramModel.run cs m with
  | Ok m' =>
      dom (TrigramModel.first_words m) ⊆ dom (TrigramModel.first_words m') ∧
      (∀ a, bigram_words a m ⊆ bigram_words a m') ∧
      (∀ a b, trigram_words a b m ⊆ trigram_words a b m') ∧
      (∀ a, unigram_cnt (TrigramModel.first_words m) a
            <= unigram_cnt (TrigramModel.first_words m') a) ∧
      (∀ a b, bigram_cnt (TrigramModel.first_words m) a b
              <= bigram_cnt (TrigramModel.first_words m') a b) ∧
      (∀ a b c, trigram_cnt (TrigramModel.first_words m) a b c
                <= trigram_cnt (TrigramModel.first_words m') a b c)
  | Raise _ => True
  end.
Proof.
  destruct (TrigramModel.run cs m) as [m'|] eqn:Hrun; [|done].
  split_and!.
  - revert Hrun.
    apply (run_preserves (λ m', dom (TrigramModel.first_words m)
                                ⊆ dom (TrigramModel.first_words m'))); [|done].
    intros m1 c m2 H1 Hc. destruct (do_call_monotone _ _ _ Hc) as [Hd _].
    by etrans.
  - intros a.
    apply (run_words_grow (bigram_words a) cs m m' (bigram_words_step a) Hrun).
  - intros a b.
    apply (run_words_grow (trigram_words a b) cs m m'
             (trigram_words_step a b) Hrun).
  - intros a. revert Hrun.
    apply (run_preserves (λ m', unigram_cnt (TrigramModel.first_words m) a
                                <= unigram_cnt (TrigramModel.first_words m') a));
      [|done].
    intros m1 c m2 H1 Hc. destruct (do_call_monotone _ _ _ Hc) as (_ & Hu & _).
    specialize (Hu a). lia.
  - intros a b. revert Hrun.
    apply (run_preserves (λ m', bigram_cnt (TrigramModel.first_words m) a b
                                <= bigram_cnt (TrigramModel.first_words m') a b));
      [|done].
    intros m1 c m2 H1 Hc. destruct (do_call_monotone _ _ _ Hc) as (_ & _ & Hb & _).
    specialize (Hb a b). lia.
  - intros a b c. revert Hrun.
    apply (run_preserves (λ m', trigram_cnt (TrigramModel.first_words m) a b c
                                <= trigram_cnt (TrigramModel.first_words m') a b c));
      [|done].
    intros m1 c' m2 H1 Hc. destruct (do_call_monotone _ _ _ Hc) as (_ & _ & _ & Ht).
    specialize (Ht a b c). lia.
Qed.

(** ** Lookups after [finish] *)

Lemma getitem_perm {C} (l l' : LinkedList C) d :
  NoDup (data <$> l) → l ≡ₚ l' → getitem l' d = getitem l d.
Proof.
  intros Hnd Hp. destruct (getitem l d) as [n|] eqn:Hg.
  - apply getitem_Some in Hg as [Hin <-].
    apply getitem_elem; [by rewrite <-Hp | by rewrite <-Hp].
  - apply getitem_None. apply getitem_None in Hg. by rewrite <-Hp.
Qed.

Lemma getitem_with_child {C D} (k : C → D) (l : LinkedList C) d :
  getitem (TrigramModel.with_child k <$> l) d
  = TrigramModel.with_child k <$> getitem l d.
Proof.
  induction l as [|x l IH]; csimpl; [done|]. by case_decide.
Qed.

Lemma getitem_promote_unigram u b :
  bigrams_ok (bigrams u) →
  getitem (bigrams (promote_unigram u)) b
  = TrigramModel.with_child promote <$> getitem (bigrams u) b.
Proof.
  intros [Hnd _]. simpl. rewrite <-getitem_with_child.
  apply getitem_perm; [by rewrite data_with_child|].
  symmetry. apply promote_perm.
Qed.

(** X8. [finish()] changes no count a lookup reports: after complete
    training cycles, every unigram, bigram and trigram count read through
    the lists' own lookup is the same after [finish()] as before. *)
Theorem finish_keeps_counts (docs : list TrigramModel.document) :
  ∃ m mf,
    TrigramModel.run (TrigramModel.training docs) TrigramModel.init = Ok m ∧
    TrigramModel.finish m = Ok mf ∧
    (∀ a, unigram_cnt (TrigramModel.first_words mf) a
          = unigram_cnt (TrigramModel.first_words m) a) ∧
    (∀ a b, bigram_cnt (TrigramModel.first_words mf) a b
            = bigram_cnt (TrigramModel.first_words m) a b) ∧
    (∀ a b c, trigram_cnt (TrigramModel.first_words mf) a b c
              = trigram_cnt (TrigramModel.first_words m) a b c).
Proof.
  destruct (run_training_ok docs TrigramModel.init) as [m Hm].
  exists m. eexists. split; [done|]. split; [apply finish_eq|]. simpl.
  pose proof (run_dict_ok _ _ Hm) as Hok.
  set (fw := TrigramModel.first_words m) in *.
  assert (∀ a b, getitem (bigram_container (promote_unigram <$> fw) a) b
                 = TrigramModel.with_child promote
                   <$> getitem (bigram_container fw a) b) as Hget.
  { intros a b. unfold bigram_container. rewrite lookup_fmap.
    destruct (fw !! a) as [u|] eqn:Hu; [|done]. simpl.
    apply getitem_promote_unigram. by eapply dict_ok_lookup. }
  split_and!.
  - intros a. unfold unigram_cnt. rewrite lookup_fmap. by destruct (fw !! a).
  - intros a b. unfold bigram_cnt, item_cnt. rewrite Hget.
    by destruct (getitem (bigram_container fw a) b).
  - intros a b c. unfold trigram_cnt, trigram_container, item_cnt.
    rewrite Hget.
    destruct (getitem (bigram_container fw a) b) as [bn|] eqn:Hbn; [|done].
    simpl. f_equal. apply getitem_perm; [|symmetry; apply promote_perm].
    apply getitem_Some in Hbn as [Hin _].
    destruct (Hok a) as [_ Hall]. rewrite Forall_forall in Hall.
    by destruct (Hall bn Hin) as (_ & ? & _).
Qed.

(** ** The list operations *)

(** X9. [LinkedList.__getitem__] returns the first node holding the word,
    and [None] exactly when no node holds it. *)
Theorem getitem_first {C} (l : LinkedList C) (d : string) :
  match getitem l d with
  | Some n =>
      ∃ i, l !! i = Some n ∧ data n = d ∧
           ∀ j x, (j < i)%nat → l !! j = Some x → data x ≠ d
  | None => ∀ x, x ∈ l → data x ≠ d
  end.
Proof.
  induction l as [|y l IH]; simpl.
  - intros x Hx. by apply elem_of_nil in Hx.
  - case_decide as Hy.
    + exists 0%nat. split_and!; [done|done|]. intros j x Hj. lia.
    + destruct (getitem l d) as [n|].
      * destruct IH as (i & Hi & Hd & Hfirst). exists (S i).
        split_and!; [done|done|]. intros [|j] x Hj Hx; simpl in Hx.
        -- by simplify_eq.
        -- apply (Hfirst j); [lia|done].
      * intros x Hx. apply elem_of_cons in Hx as [->|Hx]; [done|by apply IH].
Qed.

(** X10. [LinkedList.move_next_to_head] never drops or duplicates a node.
    For [None] and for the node before the head it leaves the list as it
    is; for the node at position [i] it puts the node at [i + 1] first and
    keeps the others in order; it raises, with [AttributeError], exactly
    when asked to move the successor of the last node. *)
Theorem move_next_to_head_spec {C} (l : LinkedList C) (prev_node : option pos) :
  match move_next_to_head l prev_node with
  | Ok l' =>
      l' ≡ₚ l ∧
      match prev_node with
      | Some (node_at i) =>
          ∃ moved, l !! S i = Some moved ∧
                   l' = moved :: take (S i) l ++ drop (S (S i)) l
      | _ => l' = l
      end
  | Raise e =>
      e = AttributeError ∧
      ∃ i, prev_node = Some (node_at i) ∧ (length l ≤ S i)%nat
  end.
Proof.
  destruct prev_node as [[|i]|]; simpl; try done.
  destruct (l !! S i) as [moved|] eqn:Hi.
  - split.
    + symmetry. by apply delete_Permutation.
    + exists moved. split; [done|]. by rewrite delete_take_drop.
  - split; [done|]. exists i. split; [done|]. by apply lookup_ge_None.
Qed.

(** X11. The scan of [finish] raises exactly when the lagging iterator it
    is given has fewer items left than the list has nodes, and the exception
    is then the [StopIteration] of the exhausted iterator; with the
    iterator [lagging_iter] makes for the list itself this never happens. *)
Theorem scan_raises_iff (l : TrigramList) (bc : TrigramModel.best_choice)
    (e : exn) :
  (TrigramModel.for_third_words l bc = Raise e ↔
   e = StopIteration ∧ (length bc.2 < length l)%nat) ∧
  ∀ best best_prev,
    TrigramModel.for_third_words l (best, best_prev, lagging_iter l) ≠ Raise e.
Proof.
  assert (∀ l bc, TrigramModel.for_third_words l bc = Raise e ↔
                  e = StopIteration ∧ (length bc.2 < length l)%nat) as Hiff.
  { clear. intros l. induction l as [|x l IH]; intros [[best bp] it]; simpl.
    - split; [done|]. intros [_ ?]. lia.
    - destruct it as [|p it]; simpl.
      + case_decide; simpl; (split; [intros [= <-]; split; [done|lia] | by intros [-> _]]).
      + case_decide; simpl; rewrite IH; simpl;
          (split; intros [-> ?]; (split; [done|lia])). }
  split; [apply Hiff|]. intros best bp Hr. apply Hiff in Hr as [_ Hlen].
  unfold lagging_iter in Hlen. simpl in Hlen.
  rewrite length_fmap, length_seq in Hlen. lia.
Qed.

(** X12. On a non-empty list whose counts are not below -1, scanned with
    its own lagging iterator, the scan ends with the greatest count of the
    list as best count and, as recorded node, the item the lagging iterator
    yielded for the last node holding that count (the node just before it);
    the iterator is left with exactly one item, the last node. *)
Theorem scan_finds_last_max (l : TrigramList) :
  l ≠ [] → Forall (λ n, -1 <= cnt n) l →
  ∃ j n best_prev rest,
    TrigramModel.for_third_words l (-1, None, lagging_iter l)
      = Ok (cnt n, Some best_prev, rest) ∧
    l !! j = Some n ∧
    lagging_iter l !! j = Some best_prev ∧
    length rest = 1%nat ∧
    Forall (λ x, cnt x <= cnt n) l ∧
    ∀ j' x, (j < j')%nat → l !! j' = Some x → cnt x < cnt n.
Proof.
  intros Hne Hge. rewrite lagging_iter_eq.
  rewrite (for_third_words_eq l 0 (-1) None
             : TrigramModel.for_third_words l
                 (-1, None, lag <$> seq 0 (S (length l))) = _).
  destruct (last_best_spec (cnt <$> l) 0 (-1) None)
    as [[_ Hlt]|(j & Hj & Hlk & _ & Hall & Hlast)].
  - destruct l as [|x l]; [done|].
    apply Forall_cons in Hge as [Hx _].
    rewrite fmap_cons in Hlt. apply Forall_cons in Hlt as [Hx' _]. lia.
  - apply list_lookup_fmap_Some in Hlk as (n & Hc & Hn).
    exists j, n, (lag j), [lag (0 + length l)]. simpl in Hj.
    split_and!; try done.
    + cbv zeta. by rewrite Hj, Hc.
    + rewrite list_lookup_fmap, lookup_seq_lt; [done|].
      apply lookup_lt_Some in Hn. lia.
    + rewrite Forall_fmap in Hall. eapply Forall_impl; [done|].
      simpl. intros x Hx. by rewrite <-Hc.
    + intros j' x Hj' Hx. rewrite <-Hc. apply (Hlast j'); [done|].
      by rewrite list_lookup_fmap, Hx.
Qed.

Lemma scan_finds_last_max_witness :
  ∃ j n best_prev rest,
    TrigramModel.for_third_words [mkNode "w" 1 (); mkNode "z" 1 ()]
      (-1, None, lagging_iter [mkNode "w" 1 (); mkNode "z" 1 ()])
      = Ok (cnt n, Some best_prev, rest) ∧
    [mkNode "w" 1 (); mkNode "z" 1 ()] !! j = Some n ∧
    lagging_iter [mkNode "w" 1 (); mkNode "z" 1 ()] !! j = Some best_prev ∧
    length rest = 1%nat ∧
    Forall (λ x, cnt x <= cnt n) [mkNode "w" 1 (); mkNode "z" 1 ()] ∧
    ∀ j' x, (j < j')%nat →
            [mkNode "w" 1 (); mkNode "z" 1 ()] !! j' = Some x → cnt x < cnt n.
Proof.
  apply (scan_finds_last_max [mkNode "w" 1 (); mkNode "z" 1 ()]).
  - discriminate.
  - repeat constructor; simpl; lia.
Defined.

(** X13. Counting a bigram is a look-up-or-create followed by an update:
    afterwards the lookup of the counted word finds a node with the old
    count plus one (1 for a new node) and the caller's update applied to its
    child list (an empty list for a new node), every other lookup is
    unchanged, the list is one node longer exactly when the word was
    absent, and unique keys stay unique. *)
Theorem count_bigram_lookup (l : BigramList) (w : string)
    (k : TrigramList → TrigramList) :
  getitem (TrigramModel._count_bigram l w k) w
    = Some (mkNode w (item_cnt l w + 1)
              (k (from_option child [] (getitem l w)))) ∧
  (∀ b, b ≠ w → getitem (TrigramModel._count_bigram l w k) b = getitem l b) ∧
  length (TrigramModel._count_bigram l w k)
    = (length l + (if getitem l w is Some _ then 0 else 1))%nat ∧
  (NoDup (data <$> l) → NoDup (data <$> TrigramModel._count_bigram l w k)).
Proof.
  set (f := λ n : Node TrigramList,
              TrigramModel.with_child k (TrigramModel.incr n)).
  change (TrigramModel._count_bigram l w k) with (count_item f [] l w).
  split_and!.
  - rewrite getitem_count_item by done. rewrite decide_True by done.
    unfold item_cnt. destruct (getitem l w) as [n|] eqn:Hn; simpl; [|done].
    apply getitem_Some in Hn as [_ Hd]. unfold f, TrigramModel.with_child.
    simpl. by rewrite Hd.
  - intros b Hb. rewrite getitem_count_item by done. by rewrite decide_False.
  - rewrite <-(length_fmap data (count_item f [] l w)), data_count_item by done.
    destruct (getitem l w) eqn:Hn.
    + rewrite decide_True; [rewrite length_fmap; lia|].
      apply getitem_is_Some. by rewrite Hn.
    + rewrite decide_False; [simpl; rewrite length_fmap; lia|].
      by apply getitem_None.
  - by apply NoDup_count_item.
Qed.

(** ** More about the generator *)

Lemma best_bigram_cnt g r w g1 r1 :
  OutputGenerator._best_bigram g r = Ok (w, g1, r1) →
  g1 = g ∨ g1 = OutputGenerator.set_refresh_cnt g (OutputGenerator.refresh_limit g).
Proof.
  unfold OutputGenerator._best_bigram.
  destruct (OutputGenerator.dict_getitem _ _) as [u|]; [|done]. simpl.
  destruct (bigrams u).
  - rewrite rand_word_draw. intros Hd. apply draw_Ok in Hd as (_ & -> & _).
    by right.
  - intros [= <- <- <-]. by left.
Qed.

Lemma best_trigram_cnt g r w g1 r1 :
  OutputGenerator._best_trigram g r = Ok (w, g1, r1) →
  g1 = g ∨ g1 = OutputGenerator.set_refresh_cnt g (OutputGenerator.refresh_limit g).
Proof.
  unfold OutputGenerator._best_trigram.
  destruct (OutputGenerator.dict_getitem _ _) as [u|]; [|done]. simpl.
  destruct (OutputGenerator.prev g ≫= getitem (bigrams u)) as [bn|];
    [|apply best_bigram_cnt].
  destruct (child bn); [apply best_bigram_cnt|].
  intros [= <- <- <-]. by left.
Qed.

Lemma select_word_cnt g r w g1 r1 :
  OutputGenerator.select_word g r = Ok (w, g1, r1) →
  g1 = OutputGenerator.set_refresh_cnt g (OutputGenerator.refresh_limit g) ∨
  (g1 = g ∧ 0 < OutputGenerator.refresh_cnt g).
Proof.
  unfold OutputGenerator.select_word. case_decide as Hf.
  - rewrite rand_word_draw. intros Hd. apply draw_Ok in Hd as (_ & -> & _).
    by left.
  - assert (0 < OutputGenerator.refresh_cnt g) by lia.
    destruct (OutputGenerator.prev_prev g).
    { intros Hb. apply best_trigram_cnt in Hb as [->| ->]; auto. }
    destruct (OutputGenerator.prev g).
    { intros Hb. apply best_bigram_cnt in Hb as [->| ->]; auto. }
    rewrite rand_word_draw. intros Hd. apply draw_Ok in Hd as (_ & -> & _).
    by left.
Qed.

(** What a call leaves in the generator. *)
Lemma generate_word_effect g r w g' r' :
  OutputGenerator.generate_word g r = Ok (w, g', r') →
  ∃ c, g' = shift g c w ∧
       (c = OutputGenerator.refresh_limit g - 1 ∨
        (c = OutputGenerator.refresh_cnt g - 1 ∧ 0 < OutputGenerator.refresh_cnt g)).
Proof.
  unfold OutputGenerator.generate_word. intros Hgen.
  apply bind_Ok_inv in Hgen as ([[w1 g1] r1] & Hsel & Hgen).
  apply select_word_cnt in Hsel.
  destruct (OutputGenerator.cycle_detected g1 w1).
  - apply bind_Ok_inv in Hgen as ([[w2 g2] r2] & Hd & [= <- <- <-]).
    rewrite rand_word_draw in Hd. apply draw_Ok in Hd as (_ & -> & _).
    eexists. split; [|left; done].
    destruct Hsel as [->|[-> _]]; done.
  - simpl in Hgen. injection Hgen as <- <- <-.
    destruct Hsel as [->|[-> Hpos]].
    + eexists. split; [|left; done]. done.
    + eexists. split; [|right; done]. done.
Qed.

Lemma generate_words_length n g r ws g' r' :
  OutputGenerator.generate_words n g r = Ok (ws, g', r') → length ws = n.
Proof.
  revert g r ws g' r'. induction n as [|n IH]; intros g r ws g' r'; simpl.
  - by intros [= <- _ _].
  - destruct (OutputGenerator.generate_word g r) as [[[w g1] r1]|]; [|done].
    simpl.
    destruct (OutputGenerator.generate_words n g1 r1) as [[[ws1 g2] r2]|] eqn:Hn;
      [|done].
    simpl. intros [= <- _ _]. simpl. f_equal. by eapply IH.
Qed.

(** X14. [n] calls of [generate_word()] that do not raise return exactly
    [n] words, leave the model and the refresh limit untouched, and leave in
    the window the last four of the words the window held followed by the
    words returned: the last word returned is [prev], the one before it
    [prev_prev], and so on. *)
Theorem generate_words_window (n : nat) (g : OutputGenerator.t)
    (r : OutputGenerator.rng) :
  match OutputGenerator.generate_words n g r with
  | Ok (ws, g', _) =>
      length ws = n ∧
      OutputGenerator.first_words g' = OutputGenerator.first_words g ∧
      OutputGenerator.refresh_limit g' = OutputGenerator.refresh_limit g ∧
      window g' = drop n (window g ++ (Some <$> ws))
  | Raise _ => True
  end.
Proof.
  revert g r. induction n as [|n IH]; intros g r; simpl; [done|].
  destruct (OutputGenerator.generate_word g r) as [[[w g1] r1]|] eqn:Hw; [|done].
  simpl. specialize (IH g1 r1).
  destruct (OutputGenerator.generate_words n g1 r1) as [[[ws g2] r2]|]; [|done].
  simpl. destruct IH as (Hlen & Hfw & Hlim & Hwin).
  apply generate_word_effect in Hw as (c & -> & _).
  split_and!; [by rewrite Hlen|done|done|].
  rewrite Hwin. unfold window, shift. simpl. done.
Qed.

Lemma generate_words_reachable fw R n g r ws g' r' :
  OutputGenerator.reachable fw R g →
  OutputGenerator.generate_words n g r = Ok (ws, g', r') →
  OutputGenerator.reachable fw R g'.
Proof.
  revert g r ws g' r'. induction n as [|n IH]; intros g r ws g' r' Hg; simpl.
  - by intros [= _ <- _].
  - destruct (OutputGenerator.generate_word g r) as [[[w g1] r1]|] eqn:Hw; [|done].
    simpl.
    destruct (OutputGenerator.generate_words n g1 r1) as [[[ws1 g2] r2]|] eqn:Hn;
      [|done].
    simpl. intros [= _ <- _]. eapply IH; [|done].
    by eapply OutputGenerator.reachable_step.
Qed.

Lemma after_calls_reachable fw R n g r :
  OutputGenerator.reachable fw R g →
  OutputGenerator.reachable fw R (after_calls n g r).
Proof.
  intros Hg. unfold after_calls.
  destruct (OutputGenerator.generate_words n g r) as [[[ws g'] r']|] eqn:Hn;
    [|done].
  by eapply generate_words_reachable.
Qed.

Lemma reachable_counter fw R g :
  OutputGenerator.reachable fw R g →
  OutputGenerator.first_words g = fw ∧
  OutputGenerator.refresh_limit g = R ∧
  (g = OutputGenerator.init fw R ∨
   OutputGenerator.refresh_cnt g = R - 1 ∨
   (0 <= OutputGenerator.refresh_cnt g ∧ OutputGenerator.refresh_cnt g < R - 1)).
Proof.
  induction 1 as [|g r w g' r' _ (Hfw & Hlim & IH) Hgen].
  - split_and!; [done|done|by left].
  - apply generate_word_effect in Hgen as (c & -> & Hc). simpl.
    split_and!; [done|done|]. right.
    destruct Hc as [->|[-> Hpos]]; [left; lia|].
    destruct IH as [->|[Heq|[H0 HR]]]; simpl in *; lia.
Qed.

(** X15. With a refresh limit [R ≥ 1], the counter of every generator a
    caller can reach stays between 0 and [R]: it is [R] only before the
    first call and at most [R - 1] afterwards, so at most [R - 1] calls in
    a row can go without a draw that resets it. *)
Theorem refresh_cnt_bounds (fw : gmap string Unigram) (R : Z)
    (g : OutputGenerator.t) :
  1 <= R → OutputGenerator.reachable fw R g →
  OutputGenerator.refresh_limit g = R ∧
  0 <= OutputGenerator.refresh_cnt g <= R ∧
  (OutputGenerator.refresh_cnt g = R → g = OutputGenerator.init fw R).
Proof.
  intros HR Hg. destruct (reachable_counter fw R g Hg) as (_ & Hlim & Hc).
  split; [done|]. destruct Hc as [->|[Heq|[H0 H1]]]; simpl; split; try lia; try done.
Qed.

(** Over the model of [doc2] with limit 3 and the draws of [rng0], four
    calls return [c d e a]: the first and the fourth are draws, and the
    fourth leaves the counter at 2. *)
Example after_four_calls :
  OutputGenerator.generate_words 4 (OutputGenerator.init (trained [doc2]) 3) rng0
  = Ok (["c"; "d"; "e"; "a"]%string,
        OutputGenerator.mk (trained [doc2]) 3 2
          (Some "c") (Some "d") (Some "e") (Some "a")%string,
        OutputGenerator.advance (OutputGenerator.advance rng0)).
Proof. by vm_compute. Qed.

Lemma refresh_cnt_bounds_witness :
  let g := after_calls 4 (OutputGenerator.init (trained [doc2]) 3) rng0 in
  OutputGenerator.refresh_limit g = 3 ∧
  0 <= OutputGenerator.refresh_cnt g <= 3 ∧
  (OutputGenerator.refresh_cnt g = 3 →
   g = OutputGenerator.init (trained [doc2]) 3).
Proof.
  apply (refresh_cnt_bounds (trained [doc2]) 3
           (after_calls 4 (OutputGenerator.init (trained [doc2]) 3) rng0)).
  - lia.
  - apply after_calls_reachable, OutputGenerator.reachable_init.
Defined.

(** X16. With a refresh limit [R ≤ 0] the counter never gets above 0, so
    every call of [generate_word()] a caller can make takes the forced
    draw: every word is a random key and no greedy rule is ever used. *)
Theorem nonpositive_limit_always_draws (fw : gmap string Unigram) (R : Z)
    (g : OutputGenerator.t) (r : OutputGenerator.rng) :
  R <= 0 → OutputGenerator.reachable fw R g →
  OutputGenerator.refresh_cnt g <= 0 ∧
  OutputGenerator.select_word g r = OutputGenerator._rand_word g r.
Proof.
  intros HR Hg.
  assert (OutputGenerator.refresh_cnt g <= 0) as Hc.
  { destruct (reachable_counter fw R g Hg) as (_ & _ & [->|[Heq|[H0 H1]]]);
      simpl; lia. }
  split; [done|]. unfold OutputGenerator.select_word. by rewrite decide_True.
Qed.

Lemma nonpositive_limit_always_draws_witness :
  let g := after_calls 2 (OutputGenerator.init (trained [doc2]) 0) rng0 in
  OutputGenerator.refresh_cnt g <= 0 ∧
  OutputGenerator.select_word g rng0 = OutputGenerator._rand_word g rng0.
Proof.
  apply (nonpositive_limit_always_draws (trained [doc2]) 0
           (after_calls 2 (OutputGenerator.init (trained [doc2]) 0) rng0) rng0).
  - lia.
  - apply after_calls_reachable, OutputGenerator.reachable_init.
Defined.

(** The state of that instance: with limit 0 two calls return the draws
    [c a] and leave the counter at -1; the next word is the draw [c], where
    the same window with a positive counter gives [b], the head of the list
    of second words of [a]. *)
Example nonpositive_limit_example :
  let g := after_calls 2 (OutputGenerator.init (trained [doc2]) 0) rng0 in
  g = OutputGenerator.mk (trained [doc2]) 0 (-1)
        None None (Some "c") (Some "a")%string ∧
  word_of (OutputGenerator.select_word g rng0) = Some "c"%string ∧
  word_of (OutputGenerator.select_word (OutputGenerator.set_refresh_cnt g 1) rng0)
  = Some "b"%string.
Proof. by vm_compute. Qed.

(** X17. After training on at least one complete document and [finish()],
    generation never raises: whatever the refresh limit and the random
    source, any number [n] of calls of [generate_word()] returns [n] words,
    all of them keys of the hash table. *)
Theorem generation_never_fails (d : TrigramModel.document)
    (docs : list TrigramModel.document) :
  ∃ m mf,
    TrigramModel.run (TrigramModel.training (d :: docs)) TrigramModel.init = Ok m ∧
    TrigramModel.finish m = Ok mf ∧
    ∀ R r n, ∃ ws g' r',
      OutputGenerator.generate_words n (output_generator mf R) r = Ok (ws, g', r') ∧
      length ws = n ∧
      Forall (λ w, w ∈ dom (TrigramModel.first_words mf)) ws.
Proof.
  destruct (run_training_counts (d :: docs) TrigramModel.init)
    as (m & Hm & Hdom & _).
  exists m. eexists. split; [done|]. split; [apply finish_eq|].
  pose proof (closed_promote _ (run_training_closed_init _ m Hm)) as Hc.
  simpl. intros R r n. unfold output_generator. simpl.
  set (fw := promote_unigram <$> TrigramModel.first_words m) in *.
  assert (fw ≠ ∅) as Hne.
  { intros Hfw. apply (f_equal dom) in Hfw. unfold fw in Hfw.
    rewrite dom_fmap_L, Hdom, dom_empty_L in Hfw.
    destruct d as [[f s] ws]. rewrite bind_cons in Hfw.
    change (tokens (f, s, ws)) with (f :: s :: ws) in Hfw.
    assert (f ∈ (∅ : gset string)) as Hf; [|by apply elem_of_empty in Hf].
    rewrite <-Hfw. apply elem_of_union_l, elem_of_list_to_set. by left. }
  destruct (OutputGenerator.generate_words n _ r) as [[[ws g'] r']|e] eqn:Hgen.
  - exists ws, g', r'. split; [done|].
    split; [by apply generate_words_length in Hgen|].
    by destruct (generate_words_Ok fw n _ r ws g' r' Hc (gen_ok_init fw R) Hgen).
  - destruct (generate_words_Raise fw n _ r e Hc (gen_ok_init fw R) Hgen).
    done.
Qed.

(** ** Tester: reading the input files *)

Section find.
Context {A : Type} `{!EqDecision A}.
Implicit Types s sub : list A.

Lemma find_at_valid s sub i :
  find_at s sub i = -1 ∨
  ∃ j, find_at s sub i = Z.of_nat (i + j) ∧ (j ≤ length s)%nat ∧
       sub `prefix_of` drop j s.
Proof.
  revert i. induction s as [|x s IH]; intros i; cbn [find_at].
  - case_bool_decide as Hp; [|by left].
    right. exists 0%nat. split_and!; [f_equal; lia|done..].
  - case_bool_decide as Hp.
    + right. exists 0%nat. split_and!; [f_equal; lia|simpl; lia|done].
    + destruct (IH (S i)) as [->|(j & -> & Hj & Hpre)]; [by left|].
      right. exists (S j). split_and!; [f_equal; lia|simpl; lia|done].
Qed.

Lemma find_at_single_found (c : A) l rest i :
  c ∉ l → find_at (l ++ c :: rest) [c] i = Z.of_nat (i + length l).
Proof.
  revert i. induction l as [|x l IH]; intros i Hc; cbn [find_at app length].
  - rewrite bool_decide_eq_true_2; [f_equal; lia|].
    by apply prefix_cons, prefix_nil.
  - apply not_elem_of_cons in Hc as [Hx Hl].
    rewrite bool_decide_eq_false_2.
    + rewrite IH by done. f_equal. lia.
    + intros Hp. by apply prefix_cons_inv_1 in Hp.
Qed.

Lemma find_at_single_none (c : A) s i : c ∉ s → find_at s [c] i = -1.
Proof.
  revert i. induction s as [|x s IH]; intros i Hc; cbn [find_at app length].
  - rewrite bool_decide_eq_false_2; [done|]. apply prefix_nil_not.
  - apply not_elem_of_cons in Hc as [Hx Hs].
    rewrite bool_decide_eq_false_2; [by apply IH|].
    intros Hp. by apply prefix_cons_inv_1 in Hp.
Qed.

Lemma str_find_valid s sub start :
  str_find s sub start = -1 ∨
  ∃ i, str_find s sub start = Z.of_nat i ∧ (start ≤ i ≤ length s)%nat ∧
       sub `prefix_of` drop i s.
Proof.
  unfold str_find. case_decide as Hs; [|by left].
  destruct (find_at_valid (drop start s) sub start) as [->|(j & -> & Hj & Hp)];
    [by left|].
  right. exists (start + j)%nat. rewrite length_drop in Hj.
  split_and!; [done|lia|lia|]. by rewrite <-drop_drop.
Qed.

Lemma nth_index_loop_valid s sub k ind :
  (ind = -1 ∨ ∃ i, ind = Z.of_nat i ∧ (i ≤ length s)%nat ∧
                   sub `prefix_of` drop i s) →
  let r := _nth_index_loop s sub k ind in
  r = -1 ∨ ∃ i, r = Z.of_nat i ∧ (i ≤ length s)%nat ∧ sub `prefix_of` drop i s.
Proof.
  revert ind. induction k as [|k IH]; intros ind Hind; simpl; [done|].
  case_decide as Hf; [by left|]. apply IH.
  destruct (str_find_valid s sub (Z.to_nat (ind + 1))) as [?|(i & -> & Hi & Hp)];
    [done|].
  right. exists i. split_and!; [done|lia|done].
Qed.
End find.

(** X18. [_nth_index] returns -1 or the index of an occurrence of the
    substring inside the string, and always -1 when [n < 1]. *)
Theorem nth_index_valid {A} `{!EqDecision A} (string substring : list A) (n : Z) :
  (_nth_index string substring n = -1 ∨
   ∃ i, _nth_index string substring n = Z.of_nat i ∧
        (i ≤ length string)%nat ∧
        substring `prefix_of` drop i string) ∧
  (n < 1 → _nth_index string substring n = -1).
Proof.
  split.
  - apply nth_index_loop_valid. by left.
  - intros Hn. unfold _nth_index. by replace (Z.to_nat n) with 0%nat by lia.
Qed.

Section lines.
Context {A : Type} `{!EqDecision A}.
Implicit Types s content rest : list A.

Lemma str_find_single_found (nl : A) pre l rest :
  nl ∉ l →
  str_find (pre ++ l ++ nl :: rest) [nl] (length pre)
  = Z.of_nat (length pre + length l).
Proof.
  intros Hl. unfold str_find. rewrite decide_True.
  - rewrite drop_app_length. by apply find_at_single_found.
  - rewrite length_app. lia.
Qed.

Lemma nth_index_loop_lines (nl : A) lines pre rest :
  Forall (λ l, nl ∉ l) lines →
  _nth_index_loop (pre ++ (lines ≫= λ l, l ++ [nl]) ++ rest) [nl]
    (length lines) (Z.of_nat (length pre) - 1)
  = Z.of_nat (length pre + length (lines ≫= λ l, l ++ [nl])) - 1.
Proof.
  revert pre. induction lines as [|l lines IH]; intros pre Hl.
  - simpl. lia.
  - apply Forall_cons in Hl as [Hl Hls].
    cbn [length _nth_index_loop]. rewrite bind_cons.
    replace (Z.to_nat (Z.of_nat (length pre) - 1 + 1)) with (length pre) by lia.
    replace (pre ++ ((l ++ [nl]) ++ (lines ≫= λ l0, l0 ++ [nl])) ++ rest)
      with (pre ++ l ++ nl :: ((lines ≫= λ l0, l0 ++ [nl]) ++ rest))
      by (by rewrite <-!(assoc_L (++))).
    rewrite str_find_single_found by done.
    rewrite decide_False by lia.
    replace (pre ++ l ++ nl :: ((lines ≫= λ l0, l0 ++ [nl]) ++ rest))
      with ((pre ++ l ++ [nl]) ++ (lines ≫= λ l0, l0 ++ [nl]) ++ rest)
      by (by rewrite <-!(assoc_L (++))).
    replace (Z.of_nat (length pre + length l))
      with (Z.of_nat (length (pre ++ l ++ [nl])) - 1)
      by (rewrite !length_app; simpl; lia).
    rewrite IH by done. rewrite !length_app. simpl. lia.
Qed.

Lemma occ_nonneg (x : A) (l : list A) : 0 <= occ x l.
Proof. induction l as [|y l IH]; simpl; [done|]. case_decide; lia. Qed.

Lemma occ_not_elem (x : A) (l : list A) : x ∉ l → occ x l = 0.
Proof.
  induction l as [|y l IH]; simpl; [done|].
  intros [Hy Hl]%not_elem_of_cons. rewrite decide_False by done.
  rewrite IH by done. lia.
Qed.

Lemma nth_index_loop_short (nl : A) s k ind :
  -1 <= ind →
  occ nl (drop (Z.to_nat (ind + 1)) s) < Z.of_nat k →
  _nth_index_loop s [nl] k ind = -1.
Proof.
  revert ind. induction k as [|k IH]; intros ind Hind Hocc.
  - pose proof (occ_nonneg nl (drop (Z.to_nat (ind + 1)) s)). lia.
  - cbn [_nth_index_loop]. set (start := Z.to_nat (ind + 1)) in *.
    unfold str_find. destruct (decide (start ≤ length s)%nat) as [Hs|Hs];
      [|by rewrite decide_True].
    destruct (decide (nl ∈ drop start s)) as [Hin|Hnin].
    + apply list_elem_of_split_l in Hin as (l & rest & Hsplit & Hl).
      rewrite Hsplit, find_at_single_found by done.
      rewrite decide_False by lia. apply IH; [lia|].
      replace (Z.to_nat (Z.of_nat (start + length l) + 1))
        with (start + (length l + 1))%nat by lia.
      rewrite <-drop_drop, Hsplit.
      replace (l ++ nl :: rest) with ((l ++ [nl]) ++ rest)
        by (by rewrite <-(assoc_L (++))).
      replace (length l + 1)%nat with (length (l ++ [nl]))
        by (rewrite length_app; simpl; lia).
      rewrite drop_app_length.
      rewrite Hsplit, occ_app in Hocc. simpl in Hocc.
      rewrite decide_True in Hocc by done.
      rewrite (occ_not_elem nl l) in Hocc by done. lia.
    + rewrite find_at_single_none by done. by rewrite decide_True.
Qed.
End lines.

(** X19. [_read_file] skips whole lines: when the file starts with [n]
    lines, each ended by the newline character, the text returned for a
    skip of [n] is exactly what follows those lines. *)
Theorem read_file_skips_lines {A} `{!EqDecision A}
    (fs : string → read_outcome A) (nl : A) (name : string)
    (lines : list (list A)) (rest : list A) :
  fs name = Content ((lines ≫= λ l, l ++ [nl]) ++ rest) →
  Forall (λ l, nl ∉ l) lines →
  _read_file fs nl (name, Z.of_nat (length lines)) = Ok (Some rest).
Proof.
  intros Hfs Hl. unfold _read_file. simpl. rewrite Hfs. do 2 f_equal.
  unfold _nth_index. rewrite Nat2Z.id.
  rewrite (nth_index_loop_lines nl lines [] rest Hl
           : _nth_index_loop ((lines ≫= λ l, l ++ [nl]) ++ rest) [nl]
               (length lines) (-1)
             = Z.of_nat (length (lines ≫= λ l, l ++ [nl])) - 1).
  replace (Z.to_nat (Z.of_nat (length (lines ≫= λ l, l ++ [nl])) - 1 + 1))
    with (length (lines ≫= λ l, l ++ [nl])) by lia.
  apply drop_app_length.
Qed.

Lemma read_file_skips_lines_witness :
  _read_file (λ _, Content [1; 2; 0; 0; 3; 4]%nat) 0%nat ("houn.txt", Z.of_nat 2)
  = Ok (Some [3; 4]%nat).
Proof.
  apply (read_file_skips_lines (λ _, Content [1; 2; 0; 0; 3; 4]%nat) 0%nat
           "houn.txt" [[1; 2]; []]%nat [3; 4]%nat).
  - reflexivity.
  - repeat constructor; intros H; by repeat (apply elem_of_cons in H as [H|H]; [done|]);
      apply elem_of_nil in H.
Defined.

(** X20. [_read_file] returns [None] exactly when opening or reading the
    file raises an [OSError]; it raises exactly when they raise an
    exception of another class, and then raises that exception (a file that
    opens but cannot be decoded gives [UnicodeDecodeError], not [None]); and
    when the file is read it returns the whole content, skipping nothing, if
    the number of lines to skip is not positive or exceeds the number of
    newline characters of the file. *)
Theorem read_file_short {A} `{!EqDecision A}
    (fs : string → read_outcome A) (nl : A) (name : string) (skip : Z) :
  (_read_file fs nl (name, skip) = Ok None ↔ fs name = OSError) ∧
  (∀ e, _read_file fs nl (name, skip) = Raise e ↔ fs name = Propagates e) ∧
  (∀ content, fs name = Content content →
     skip <= 0 ∨ occ nl content < skip →
     _read_file fs nl (name, skip) = Ok (Some content)).
Proof.
  unfold _read_file. simpl. split_and!.
  - destruct (fs name); split; congruence.
  - intros e. destruct (fs name); split; congruence.
  - intros content -> Hskip. do 2 f_equal.
    assert (_nth_index content [nl] skip = -1) as ->; [|done].
    unfold _nth_index. destruct Hskip as [Hs|Hs].
    + by replace (Z.to_nat skip) with 0%nat by lia.
    + apply nth_index_loop_short; [done|].
      change (Z.to_nat (-1 + 1)) with 0%nat. rewrite drop_0. lia.
Qed.

Example read_file_undecodable :
  _read_file (file_system undecodable_externals) 0%nat ("sign.txt", 8)%string
  = Raise UnicodeDecodeError.
Proof. reflexivity. Qed.

(** ** Tester: tokens *)

(** X21. [_remove_starting_single_quote] raises, with [IndexError], exactly
    on the empty word and on the word that is a lone apostrophe; on every
    other word it returns a non-empty word: the word without its first
    character when that is an apostrophe not followed by [s], the word
    itself otherwise. *)
Theorem remove_starting_single_quote_spec (word : string) :
  match _remove_starting_single_quote word with
  | Raise e => e = IndexError ∧ (word = EmptyString ∨ word = "'"%string)
  | Ok w =>
      w ≠ EmptyString ∧ word ≠ EmptyString ∧ word ≠ "'"%string ∧
      (w = word ∨ word = String "'" w)
  end.
Proof.
  destruct word as [|c0 rest]; simpl; [by auto|].
  case_decide as Hc0.
  - subst c0. destruct rest as [|c1 rest]; [by auto|].
    case_decide; split_and!; try discriminate; auto.
  - split_and!; try discriminate; auto. intros [= ? ?]. done.
Qed.

Lemma str_in_empty s : str_in EmptyString s = true.
Proof. by destruct s. Qed.

Lemma not_punctuation word :
  str_in word _PUNCTUATION = false → word ≠ EmptyString ∧ word ≠ "'"%string.
Proof. intros H. split; intros ->; by vm_compute in H. Qed.

Lemma remove_quote_Ok word :
  word ≠ EmptyString → word ≠ "'"%string →
  ∃ t, _remove_starting_single_quote word = Ok t ∧ t ≠ EmptyString.
Proof.
  intros Hne Hnq. destruct word as [|c0 rest]; [done|]. simpl.
  case_decide as Hc0.
  - subst c0. destruct rest as [|c1 rest]; [done|].
    case_decide; eexists; (split; [done|discriminate]).
  - eexists. split; [done|discriminate].
Qed.

Lemma mapM_result_Ok {B D} (f : B → result D) (l : list B) :
  Forall (λ x, ∃ y, f x = Ok y) l →
  ∃ k, mapM f l = Ok k ∧ Forall2 (λ x y, f x = Ok y) l k.
Proof.
  induction 1 as [|x l [y Hy] _ (k & Hk & Hall)]; simpl.
  - by exists [].
  - exists (y :: k). rewrite Hy. simpl. rewrite Hk. simpl.
    split; [done|]. by constructor.
Qed.

(** X22. Provided [lower] turns no non-empty word into the empty word and
    no word but the apostrophe into an apostrophe, [_tokenize] never raises:
    the words that could make [_remove_starting_single_quote] fail occur in
    [_PUNCTUATION] and are filtered out first.  It returns one non-empty
    token for each word the tokenizers produce that does not occur in
    [_PUNCTUATION]. *)
Theorem tokenize_total {A} (E : externals A) (text : list A) :
  (∀ w, str_lower E w = EmptyString → w = EmptyString) →
  (∀ w, str_lower E w = "'"%string → w = "'"%string) →
  ∃ toks, _tokenize E text = Ok toks ∧
    Forall (λ t, t ≠ EmptyString) toks ∧
    Forall2 (λ word t, _remove_starting_single_quote (str_lower E word) = Ok t)
      (filter (λ word, str_in word _PUNCTUATION = false)
         ((word_tokenize E <$> sent_tokenize E text) ≫= id))
      toks.
Proof.
  intros Hempty Hquote. unfold _tokenize.
  set (ws := filter _ _).
  destruct (mapM_result_Ok
              (λ word, _remove_starting_single_quote (str_lower E word)) ws)
    as (toks & Htoks & Hall).
  { apply Forall_forall. intros word Hword.
    apply list_elem_of_filter in Hword as [Hp _].
    apply not_punctuation in Hp as [Hne Hnq].
    destruct (remove_quote_Ok (str_lower E word)) as (t & Ht & _);
      [by intros Hl%Hempty|by intros Hl%Hquote|by exists t]. }
  exists toks. split; [done|]. split; [|done].
  apply Forall_forall. intros t Ht.
  apply list_elem_of_lookup in Ht as [i Hi].
  destruct (Forall2_lookup_r _ _ _ _ _ Hall Hi) as (word & Hw & Hword).
  apply list_elem_of_lookup_2, list_elem_of_filter in Hw as [Hp _].
  apply not_punctuation in Hp as [Hne Hnq].
  destruct (remove_quote_Ok (str_lower E word)) as (t' & Ht' & Hnt);
    [by intros Hl%Hempty|by intros Hl%Hquote|].
  congruence.
Qed.

Lemma tokenize_total_witness :
  ∃ toks, _tokenize example_externals [] = Ok toks ∧
    Forall (λ t, t ≠ EmptyString) toks ∧
    Forall2 (λ word t,
               _remove_starting_single_quote
                 (str_lower example_externals word) = Ok t)
      (filter (λ word, str_in word _PUNCTUATION = false)
         ((word_tokenize example_externals
             <$> sent_tokenize example_externals []) ≫= id))
      toks.
Proof.
  apply (tokenize_total example_externals []).
  - intros w Hw. exact Hw.
  - intros w Hw. exact Hw.
Defined.

Example tokenize_example :
  _tokenize example_externals [] = Ok ["Hello"; "tis"; "'s"]%string.
Proof. by vm_compute. Qed.

Example punctuation_length : String.length _PUNCTUATION = 30%nat.
Proof. reflexivity. Qed.

(** ** Tester: feeding the model *)

Lemma bind_Ok_r {B} (m : result B) : m ≫= Ok = m.
Proof. by destruct m. Qed.

Lemma consume_range_run pre ws m :
  consume_range (pre ++ ws) (seq (length pre) (length ws)) m
  = TrigramModel.run (TrigramModel.ConsumeWord <$> ws) m.
Proof.
  revert pre m. induction ws as [|w ws IH]; intros pre m; [done|].
  cbn [length seq consume_range]. unfold py_index.
  rewrite list_lookup_middle by done. rewrite bind_Ok. csimpl.
  destruct (TrigramModel.consume_word m w) as [m1|]; [|done]. rewrite !bind_Ok.
  replace (pre ++ w :: ws) with ((pre ++ [w]) ++ ws)
    by (by rewrite <-(assoc_L (++))).
  replace (S (length pre)) with (length (pre ++ [w]))
    by (rewrite length_app; simpl; lia).
  apply IH.
Qed.

Lemma consume_text_eq {A} (E : externals A) (model : TrigramModel.t)
    (text : list A) :
  _consume_text E model text =
  words ← _tokenize E text;
  match words with
  | first_word :: second_word :: ws =>
      TrigramModel.run (TrigramModel.cycle (first_word, second_word, ws)) model
  | _ => Raise IndexError
  end.
Proof.
  unfold _consume_text. destruct (_tokenize E text) as [words|]; [|done].
  rewrite !bind_Ok. destruct words as [|f [|s ws]]; [done..|].
  change (py_index (f :: s :: ws) 0) with (Ok f).
  change (py_index (f :: s :: ws) 1) with (Ok s). rewrite !bind_Ok.
  cbn [length]. replace (S (S (length ws)) - 2)%nat with (length ws) by lia.
  rewrite (consume_range_run [f; s] ws (TrigramModel.start_input model f s)
           : consume_range (f :: s :: ws) (seq 2 (length ws)) _ = _).
  cbn [TrigramModel.cycle TrigramModel.run TrigramModel.do_call].
  rewrite bind_Ok, run_app. cbn [TrigramModel.run TrigramModel.do_call].
  destruct (TrigramModel.run _ _) as [m1|]; [|done]. rewrite !bind_Ok.
  by rewrite bind_Ok_r.
Qed.

(** X23. [_consume_text] feeds the model one complete training cycle: on a
    text with at least two tokens it does what [start_input] on the first
    two, [consume_word] on each of the others in order and [end_input] do;
    on a text with fewer than two tokens it raises [IndexError] (and
    whatever [_tokenize] raises, it raises). *)
Theorem consume_text_cycle {A} (E : externals A) (model : TrigramModel.t)
    (text : list A) :
  _consume_text E model text =
  match _tokenize E text with
  | Ok (first_word :: second_word :: ws) =>
      TrigramModel.run (TrigramModel.cycle (first_word, second_word, ws)) model
  | Ok _ => Raise IndexError
  | Raise e => Raise e
  end.
Proof.
  rewrite consume_text_eq. destruct (_tokenize E text) as [[|f [|s ws]]|]; done.
Qed.

Lemma for_files_app {A} `{!EqDecision A} (E : externals A) files docs rest model :
  Forall2 (λ file d, ∃ content,
             _read_file (file_system E) (newline E) file = Ok (Some content) ∧
             _tokenize E content = Ok (tokens d)) files docs →
  for_files E (files ++ rest) model =
  m ← TrigramModel.run (TrigramModel.training docs) model; for_files E rest m.
Proof.
  intros Hall. revert model.
  induction Hall as [|file [[f s] ws] files docs (content & Hread & Htok) _ IH];
    intros model; [done|].
  cbn [for_files app]. rewrite Hread, bind_Ok, consume_text_eq, Htok, bind_Ok.
  change (tokens (f, s, ws)) with (f :: s :: ws). cbn match.
  unfold TrigramModel.training. rewrite bind_cons, run_app.
  destruct (TrigramModel.run (TrigramModel.cycle (f, s, ws)) model) as [m1|];
    [|done].
  rewrite !bind_Ok. apply IH.
Qed.

Lemma for_files_trains {A} `{!EqDecision A} (E : externals A) files docs model :
  Forall2 (λ file d, ∃ content,
             _read_file (file_system E) (newline E) file = Ok (Some content) ∧
             _tokenize E content = Ok (tokens d)) files docs →
  for_files E files model =
  m ← TrigramModel.run (TrigramModel.training docs) model; Ok (Some m).
Proof.
  intros Hall. rewrite <-(app_nil_r files). by rewrite (for_files_app E files docs).
Qed.

(** X24. When every file of [_FILES] is readable and what is left of it
    after the skipped lines has at least two tokens, [_build_model] returns
    the model trained by one complete cycle per file, in the order of
    [_FILES], and finished. *)
Theorem build_model_trains {A} `{!EqDecision A} (E : externals A)
    (docs : list TrigramModel.document) :
  Forall2 (λ file d, ∃ content,
             _read_file (file_system E) (newline E) file = Ok (Some content) ∧
             _tokenize E content = Ok (tokens d)) _FILES docs →
  ∃ m mf,
    TrigramModel.run (TrigramModel.training docs) TrigramModel.init = Ok m ∧
    TrigramModel.finish m = Ok mf ∧
    _build_model E = Ok (Some mf).
Proof.
  intros Hall. destruct (run_training_ok docs TrigramModel.init) as [m Hm].
  exists m. eexists. split; [done|]. split; [apply finish_eq|].
  unfold _build_model. rewrite (for_files_trains E _FILES docs _ Hall), Hm.
  rewrite !bind_Ok. by rewrite finish_eq.
Qed.

Lemma build_model_trains_witness :
  ∃ m mf,
    TrigramModel.run
      (TrigramModel.training
         (replicate 4 ("Hello", "tis", ["'s"])%string)) TrigramModel.init = Ok m ∧
    TrigramModel.finish m = Ok mf ∧
    _build_model example_externals = Ok (Some mf).
Proof.
  apply (build_model_trains example_externals
           (replicate 4 ("Hello", "tis", ["'s"])%string)).
  repeat constructor; exists []; split; by vm_compute.
Defined.

(** X25. A file that cannot be read stops [_build_model] at that file.
    When the files of [_FILES] before it are read and hold at least two
    tokens each: if opening or reading the file raises an [OSError],
    [_build_model] returns [None]; if it raises an exception of another
    class, [_build_model] raises that exception.  In both cases the files
    after it are not looked at and no model is returned. *)
Theorem build_model_unreadable {A} `{!EqDecision A} (E : externals A)
    (before after : list (string * Z)) (file : string * Z)
    (docs : list TrigramModel.document) :
  _FILES = before ++ file :: after →
  Forall2 (λ file d, ∃ content,
             _read_file (file_system E) (newline E) file = Ok (Some content) ∧
             _tokenize E content = Ok (tokens d)) before docs →
  (file_system E file.1 = OSError → _build_model E = Ok None) ∧
  (∀ e, file_system E file.1 = Propagates e → _build_model E = Raise e).
Proof.
  intros Hfiles Hall. unfold _build_model.
  rewrite Hfiles, (for_files_app E before docs _ _ Hall).
  destruct (run_training_ok docs TrigramModel.init) as [m ->].
  rewrite bind_Ok. cbn [for_files]. unfold _read_file.
  split; [intros ->|intros e ->]; done.
Qed.

Lemma build_model_unreadable_witness :
  _build_model unreadable_externals = Ok None ∧
  _build_model undecodable_externals = Raise UnicodeDecodeError.
Proof.
  split.
  - refine (proj1 (build_model_unreadable unreadable_externals
                     [("houn.txt", 8)]%string
                     [("stud.txt", 8); ("vall.txt", 8)]%string
                     ("sign.txt", 8)%string
                     [("Hello", "tis", ["'s"])%string] _ _) _).
    + reflexivity.
    + repeat constructor; exists []; split; by vm_compute.
    + reflexivity.
  - refine (proj2 (build_model_unreadable undecodable_externals
                     [("houn.txt", 8)]%string
                     [("stud.txt", 8); ("vall.txt", 8)]%string
                     ("sign.txt", 8)%string
                     [("Hello", "tis", ["'s"])%string] _ _) _ _).
    + reflexivity.
    + repeat constructor; exists []; split; by vm_compute.
    + reflexivity.
Defined.

(** ** Tester: writing the output *)

Lemma pop_app {B} (l : list B) (x : B) : pop (l ++ [x]) = Ok (x, l).
Proof. unfold pop. by rewrite last_snoc, removelast_last. Qed.

Lemma pop_nonempty {B} (l : list B) :
  l ≠ [] → ∃ x l', l = l' ++ [x] ∧ pop l = Ok (x, l').
Proof.
  intros Hl. destruct (exists_last Hl) as (l' & x & ->).
  exists x, l'. split; [done|]. apply pop_app.
Qed.

Lemma generate_loop_ok {A} (E : externals A) fw word_count fuel st :
  closed fw → fw ≠ ∅ → writer_ok fw st →
  match generate_loop E fuel word_count st with
  | None => True
  | Some (Raise _) => False
  | Some (Ok words) =>
      word_count <= Z.of_nat (length words) ∧
      (words = [] ∨ ∃ w, last words = Some (w +:+ "."))
  end.
Proof.
  intros Hc Hne. revert st. induction fuel as [|fuel IH];
    intros st (Hg & Hlen & Hlast); cbn [generate_loop].
  - case_decide as Hcond; [done|].
    assert (w_new_word st = Some "."%string) as Hnw
      by (destruct (decide (w_new_word st = Some "."%string)); tauto).
    split; [lia|auto].
  - case_decide as Hcond.
    2:{ assert (w_new_word st = Some "."%string) as Hnw
          by (destruct (decide (w_new_word st = Some "."%string)); tauto).
        split; [lia|auto]. }
    destruct (OutputGenerator.generate_word (w_generator st) (w_rng st))
      as [[[w g] r]|e] eqn:Hgen.
    2:{ pose proof Hg as [Hfw _]. rewrite <-Hfw in Hg.
        apply (generate_word_Raise _ _ _ Hg) in Hgen as [_ Hempty]. congruence. }
    destruct (generate_word_Ok fw _ _ _ _ _ Hc Hg Hgen) as [_ Hg1].
    case_decide as Hw.
    + case_decide as Hcnt.
      * apply IH. split_and!; simpl; [done|done|].
        intros _. left. destruct (w_words st); [done|simpl in Hlen; lia].
      * destruct (pop_nonempty (w_words st)) as (x & l' & Hl' & ->).
        { intros Hnil. rewrite Hnil in Hlen. simpl in Hlen. lia. }
        apply IH. split_and!; simpl; [done| |].
        -- rewrite <-Hlen, Hl', !length_app. done.
        -- intros _. right. exists x. by rewrite last_snoc.
    + apply IH. split_and!; simpl; [done| |].
      * rewrite length_app. simpl. lia.
      * intros [= ?]. done.
Qed.

(** X26. On a model trained on at least one complete document and
    finished, the loop of [_generate_words] never raises, whatever the
    tokens, the limit and the random source: [words.pop()] is only reached
    with a word in the list.  When the loop ends, the list it hands to
    [join] holds at least [word_count] words and, unless it is empty, its
    last word ends with a period. *)
Theorem generate_words_loop_ok {A} (E : externals A)
    (d : TrigramModel.document) (docs : list TrigramModel.document) :
  ∃ m mf,
    TrigramModel.run (TrigramModel.training (d :: docs)) TrigramModel.init = Ok m ∧
    TrigramModel.finish m = Ok mf ∧
    ∀ fuel word_count refresh_limit r,
      match generate_loop E fuel word_count
              (mkWriter (output_generator mf refresh_limit) r [] 0 true None) with
      | None => True
      | Some (Raise _) => False
      | Some (Ok words) =>
          word_count <= Z.of_nat (length words) ∧
          (words = [] ∨ ∃ w, last words = Some (w +:+ ".")) ∧
          _generate_words E fuel mf word_count refresh_limit r
            = Some (Ok (String.concat " " words))
      end.
Proof.
  destruct (run_training_counts (d :: docs) TrigramModel.init)
    as (m & Hm & Hdom & _).
  exists m. eexists. split; [done|]. split; [apply finish_eq|].
  pose proof (closed_promote _ (run_training_closed_init _ m Hm)) as Hc.
  intros fuel wc R r. unfold _generate_words, output_generator. simpl.
  set (fw := promote_unigram <$> TrigramModel.first_words m) in *.
  assert (fw ≠ ∅) as Hne.
  { intros Hfw. apply (f_equal dom) in Hfw. unfold fw in Hfw.
    rewrite dom_fmap_L, Hdom, dom_empty_L in Hfw.
    destruct d as [[f s] ws]. rewrite bind_cons in Hfw.
    change (tokens (f, s, ws)) with (f :: s :: ws) in Hfw.
    assert (f ∈ (∅ : gset string)) as Hf; [|by apply elem_of_empty in Hf].
    rewrite <-Hfw. apply elem_of_union_l, elem_of_list_to_set. by left. }
  assert (writer_ok fw (mkWriter (OutputGenerator.init fw R) r [] 0 true None))
    as Hinit by (split_and!; [by apply gen_ok_init|done|by left]).
  pose proof (generate_loop_ok E fw wc fuel _ Hc Hne Hinit) as Hloop.
  destruct (generate_loop E fuel wc _) as [[words|e]|]; [|done..].
  by destruct Hloop as [H1 H2].
Qed.


Lemma count_words_cons w ws :
  count_words (w :: ws) =
  (if decide (w = "."%string) then 0 else 1) + count_words ws.
Proof.
  unfold count_words. rewrite filter_cons.
  destruct (decide (w = "."%string)) as [->|Hw].
  - by rewrite decide_False by (intros H; by apply H).
  - rewrite decide_True by done. simpl length. lia.
Qed.

Lemma generate_loop_ends {A} (E : externals A) word_count k st ws g' r' :
  Z.of_nat (length (w_words st)) = w_count st →
  OutputGenerator.generate_words k (w_generator st) (w_rng st) = Ok (ws, g', r') →
  (ws ≠ [] → last ws = Some "."%string) →
  (ws = [] → w_new_word st = Some "."%string) →
  word_count <= w_count st + count_words ws →
  ∃ words, generate_loop E k word_count st = Some (Ok words).
Proof.
  revert st ws g' r'.
  induction k as [|k IH]; intros st ws g' r' Hlen Hgen Hlast Hnil Hwc;
    cbn [generate_loop].
  - simpl in Hgen. injection Hgen as <- _ _.
    rewrite decide_False; [by eexists|].
    rewrite (Hnil eq_refl).
    change (count_words []) with 0 in Hwc.
    intros [?|?]; [lia|congruence].
  - case_decide as Hcond; [|by eexists].
    rewrite generate_words_S in Hgen.
    destruct (OutputGenerator.generate_word (w_generator st) (w_rng st))
      as [[[w g1] r1]|] eqn:Hw; [|done].
    rewrite bind_Ok in Hgen.
    destruct (OutputGenerator.generate_words k g1 r1) as [[[ws' g2] r2]|] eqn:Hws;
      [|done].
    rewrite bind_Ok in Hgen. injection Hgen as <- _ _.
    rewrite count_words_cons in Hwc.
    assert (ws' ≠ [] → last ws' = Some "."%string) as Hlast'.
    { intros Hne. specialize (Hlast ltac:(done)).
      destruct ws'; [done|]. by rewrite last_cons_cons in Hlast. }
    destruct (decide (w = "."%string)) as [->|Hne].
    + case_decide as Hcnt.
      * apply (IH _ ws' g2 r2); simpl; [done|done|done|done|lia].
      * destruct (pop_nonempty (w_words st)) as (x & l' & Hl' & ->).
        { intros Hn. rewrite Hn in Hlen. simpl in Hlen. lia. }
        apply (IH _ ws' g2 r2); simpl; [|done|done|done|lia].
        rewrite <-Hlen, Hl', !length_app. done.
    + apply (IH _ ws' g2 r2); simpl; [|done|done| |lia].
      * rewrite length_app. simpl. lia.
      * intros ->. specialize (Hlast ltac:(done)). simpl in Hlast. congruence.
Qed.

(** X27. [_generate_words] ends as soon as enough words have come out and
    the generator returns a period: if the first [k] calls of
    [generate_word()] do not raise, return at least [word_count] words that
    are not periods and end with a period, then the loop ends within [k]
    iterations and [_generate_words] returns a text. *)
Theorem generate_words_ends {A} (E : externals A) (k : nat)
    (model : TrigramModel.t) (word_count refresh_limit : Z)
    (r : OutputGenerator.rng) :
  last (generated k (output_generator model refresh_limit) r) = Some "."%string →
  word_count <= count_words (generated k (output_generator model refresh_limit) r) →
  ∃ text, _generate_words E k model word_count refresh_limit r = Some (Ok text).
Proof.
  unfold generated, _generate_words. intros Hlast Hwc.
  destruct (OutputGenerator.generate_words k _ r) as [[[ws g'] r']|] eqn:Hgen;
    [|done].
  destruct (generate_loop_ends E word_count k
              (mkWriter (output_generator model refresh_limit) r [] 0 true None)
              ws g' r') as [words ->]; simpl; try done.
  - intros ->. done.
  - by eexists.
Qed.

Lemma generate_words_ends_witness :
  ∃ text,
    _generate_words example_externals 5
      (TrigramModel.mk (trained [doc3]) None None) 3 15 rng0 = Some (Ok text).
Proof.
  apply (generate_words_ends example_externals 5
           (TrigramModel.mk (trained [doc3]) None None) 3 15 rng0).
  - by vm_compute.
  - by vm_compute.
Defined.

Example generate_words_example :
  _generate_words example_externals 8
    (TrigramModel.mk (trained [doc3]) None None) 3 15 rng0
  = Some (Ok "so. it is."%string).
Proof. by vm_compute. Qed.
